(** * Odo: a structured view over a flat value sequence

    A shallow embedding of [src/Odo.js] (class [Odo]) and [src/OdoError.js].

    The instance [this], the containers it builds and every object a value
    may refer to live in one store of objects, addressed by location, so
    that aliasing (a container captured by a getter, a value returned twice)
    is the aliasing of the program.  Every method is a function on the state
    of the instance in a small state-and-exception monad: a method returns
    ([Ok]) or throws ([Throw]), and in both cases leaves a state.

    Scope of the object model.  An object is modelled by the own properties
    that the program gives it.  What the language and the class give
    besides -- the members found along the prototype chain (the methods of
    [Odo.prototype] for the instance, those of [Object.prototype],
    [Array.prototype], [Function.prototype], [String.prototype],
    [Number.prototype] and [Boolean.prototype]), the own properties of a
    function, and the bag [i] of the internals, which is an own property of
    the instance -- is listed by name ([Js.builtin], [bag]) but not held in
    the store: the internals are kept in the state record.  A run that
    reads or writes one of these by name leaves what the model follows:
    its outcome is [Beyond], with the state reached, and no statement is
    made about what the program does from there.  Own properties come
    first, as in the language: a key that the program has defined on an
    object is read from the object.

    Numbers are integers, [NaN] and the infinities; strings are ASCII; the
    value sequence is an ordinary array given as a list; the objects of the
    values are plain objects, arrays and functions with the prototypes of
    the language; a range spec is not changed once it has been handed to
    [addStructure]; and user functions (transforms) may read the store and
    allocate in it, but do not mutate it and do not throw. *)

From Stdlib Require Import ZArith Lia Ascii String DecimalString DecimalN
  DecimalPos Sorted.
From stdpp Require Import base option list strings relations.

Open Scope string_scope.
Set Warnings "-register-all".

(** ** Strings: what the code uses of [String.prototype] and [isFinite] *)

Module Js.

(** [s.includes(c)] for a one-character [c]. *)
Fixpoint includes (c : ascii) (s : string) : bool :=
  match s with
  | EmptyString => false
  | String a s' => Ascii.eqb a c || includes c s'
  end.

(** [s.split(c)] for a one-character separator: never the empty list. *)
Fixpoint split (c : ascii) (s : string) : list string :=
  match s with
  | EmptyString => [EmptyString]
  | String a s' =>
      if Ascii.eqb a c then EmptyString :: split c s'
      else match split c s' with
           | [] => [String a EmptyString]
           | w :: ws => String a w :: ws
           end
  end.

(** [l.join(sep)]; [String(l)] and [l.toString()] are [join ","]. *)
Fixpoint join (sep : string) (l : list string) : string :=
  match l with
  | [] => EmptyString
  | [x] => x
  | x :: xs => x ++ sep ++ join sep xs
  end.

(** [a > b] on strings: lexicographic on code units. *)
Definition gt (a b : string) : bool :=
  match String.compare a b with Gt => true | _ => false end.

Definition of_N (n : N) : string := NilZero.string_of_uint (N.to_uint n).

(** An array index is a canonical numeric string below [2^32 - 1]. *)
Definition array_index (s : string) : option N :=
  match NilEmpty.uint_of_string s with
  | Some d =>
      let n := N.of_uint d in
      if String.eqb (of_N n) s && (n <? 4294967295)%N then Some n else None
  | None => None
  end.

(** *** [isFinite(s)] on a string: [ToNumber] of the string is finite *)

Definition is_space (c : ascii) : bool :=
  let n := nat_of_ascii c in
  (Nat.eqb n 9 || Nat.eqb n 10 || Nat.eqb n 11 || Nat.eqb n 12
   || Nat.eqb n 13 || Nat.eqb n 32)%bool.

Fixpoint drop_spaces (l : list ascii) : list ascii :=
  match l with
  | c :: l' => if is_space c then drop_spaces l' else l
  | [] => []
  end.

Definition trim (l : list ascii) : list ascii :=
  rev (drop_spaces (rev (drop_spaces l))).

Definition digit (base : Z) (c : ascii) : option Z :=
  let n := Z.of_nat (nat_of_ascii c) in
  let d :=
    if (48 <=? n)%Z && (n <=? 57)%Z then Some (n - 48)%Z
    else if (97 <=? n)%Z && (n <=? 102)%Z then Some (n - 87)%Z
    else if (65 <=? n)%Z && (n <=? 70)%Z then Some (n - 55)%Z
    else None in
  match d with
  | Some v => if (v <? base)%Z then Some v else None
  | None => None
  end.

(** Reads the longest run of digits: its value on top of [acc], the number
    of digits read, and the rest. *)
Fixpoint digits (base : Z) (l : list ascii) (acc : Z) (n : nat)
  : Z * nat * list ascii :=
  match l with
  | c :: l' =>
      match digit base c with
      | Some d => digits base l' (acc * base + d)%Z (S n)
      | None => (acc, n, l)
      end
  | [] => (acc, n, [])
  end.

(** The magnitude of a numeric string: not a number, infinite, or
    [mantissa * 10 ^ exponent]. *)
Inductive magnitude := NaN | Infinite | Finite (mantissa exponent : Z).

Definition is_e (c : ascii) : bool :=
  Ascii.eqb c "e"%char || Ascii.eqb c "E"%char.

Definition exponent_part (l : list ascii) : option Z :=
  match l with
  | [] => Some 0%Z
  | c :: l' =>
      if is_e c then
        let '(neg, l'') :=
          match l' with
          | "-"%char :: r => (true, r)
          | "+"%char :: r => (false, r)
          | _ => (false, l')
          end in
        match digits 10 l'' 0 0 with
        | (_, O, _) => None
        | (e, _, []) => Some (if neg : bool then (- e)%Z else e)
        | _ => None
        end
      else None
  end.

Definition unsigned_decimal (l : list ascii) : magnitude :=
  if String.eqb (string_of_list_ascii l) "Infinity" then Infinite
  else
    let '(m1, n1, r1) := digits 10 l 0 0 in
    let '(m, n2, r2) :=
      match r1 with
      | "."%char :: r => digits 10 r m1 0
      | _ => (m1, O, r1)
      end in
    match (n1 + n2)%nat with
    | O => NaN
    | _ =>
        match exponent_part r2 with
        | Some e => Finite m (e - Z.of_nat n2)
        | None => NaN
        end
    end.

Definition prefixed (base : Z) (l : list ascii) : magnitude :=
  match digits base l 0 0 with
  | (_, O, _) => NaN
  | (m, _, []) => Finite m 0
  | _ => NaN
  end.

Definition string_magnitude (s : string) : magnitude :=
  match trim (list_ascii_of_string s) with
  | [] => Finite 0 0
  | "0"%char :: "x"%char :: r | "0"%char :: "X"%char :: r => prefixed 16 r
  | "0"%char :: "o"%char :: r | "0"%char :: "O"%char :: r => prefixed 8 r
  | "0"%char :: "b"%char :: r | "0"%char :: "B"%char :: r => prefixed 2 r
  | "+"%char :: r | "-"%char :: r => unsigned_decimal r
  | l => unsigned_decimal l
  end.

(** Magnitudes from [2^1024 - 2^970] on round to an infinity. *)
Definition overflow : Z := (2 ^ 1024 - 2 ^ 970)%Z.

Definition isFinite (s : string) : bool :=
  match string_magnitude s with
  | NaN | Infinite => false
  | Finite m e =>
      (m =? 0)%Z
      || (if (0 <=? e)%Z then (m * 10 ^ e <? overflow)%Z
          else (m <? overflow * 10 ^ (- e))%Z)
  end.

(** *** The double nearest to an integer *)

(** Round to nearest, ties to even, on 53 bits; [None] when the result is
    an infinity. *)
Definition round_to_double (z : Z) : option Z :=
  let a := Z.abs z in
  if (a <? 2 ^ 53)%Z then Some z
  else
    let e := (Z.log2 a - 52)%Z in
    let q := (a / 2 ^ e)%Z in
    let r := (a mod 2 ^ e)%Z in
    let half := (2 ^ (e - 1))%Z in
    let q' :=
      if (half <? r)%Z || ((r =? half)%Z && Z.odd q) then (q + 1)%Z else q in
    let m := (q' * 2 ^ e)%Z in
    if (m <? 2 ^ 1024)%Z then Some (Z.sgn z * m)%Z else None.

(** *** What the language and the class give to every value *)

(** The sorts of values a property is read from. *)
Inductive holder :=
| HInstance   (* the instance of [Odo] *)
| HObject     (* a plain object *)
| HArray
| HFunction
| HString
| HNumber
| HBoolean.

Definition object_members : list string :=
  ["constructor"; "__defineGetter__"; "__defineSetter__"; "hasOwnProperty";
   "__lookupGetter__"; "__lookupSetter__"; "isPrototypeOf";
   "propertyIsEnumerable"; "toString"; "valueOf"; "__proto__";
   "toLocaleString"].

(** The methods of the class [Odo]. *)
Definition odo_members : list string :=
  ["constructor"; "setValues"; "addStructure"; "resetStructure";
   "setStructure"; "removeUnusedStructure"; "_cachedValue";
   "_getCursorToEndOfPath"; "_convertRangeToGetter"; "_ensurePathStructure";
   "export"].

(** [Array.prototype], but for [length], which is an own property. *)
Definition array_members : list string :=
  ["at"; "concat"; "constructor"; "copyWithin"; "entries"; "every"; "fill";
   "filter"; "find"; "findIndex"; "findLast"; "findLastIndex"; "flat";
   "flatMap"; "forEach"; "includes"; "indexOf"; "join"; "keys";
   "lastIndexOf"; "map"; "pop"; "push"; "reduce"; "reduceRight"; "reverse";
   "shift"; "slice"; "some"; "sort"; "splice"; "toLocaleString";
   "toReversed"; "toSorted"; "toSpliced"; "toString"; "unshift"; "values";
   "with"].

(** The own properties of a function, and [Function.prototype]. *)
Definition function_members : list string :=
  ["length"; "name"; "prototype"; "arguments"; "caller"; "apply"; "bind";
   "call"; "constructor"; "toString"].

(** [String.prototype], but for [length] and the indices, which are own
    properties. *)
Definition string_members : list string :=
  ["anchor"; "at"; "big"; "blink"; "bold"; "charAt"; "charCodeAt";
   "codePointAt"; "concat"; "constructor"; "endsWith"; "fixed"; "fontcolor";
   "fontsize"; "includes"; "indexOf"; "isWellFormed"; "italics";
   "lastIndexOf"; "link"; "localeCompare"; "match"; "matchAll"; "normalize";
   "padEnd"; "padStart"; "repeat"; "replace"; "replaceAll"; "search";
   "slice"; "small"; "split"; "startsWith"; "strike"; "sub"; "substr";
   "substring"; "sup"; "toLocaleLowerCase"; "toLocaleUpperCase";
   "toLowerCase"; "toString"; "toUpperCase"; "toWellFormed"; "trim";
   "trimEnd"; "trimLeft"; "trimRight"; "trimStart"; "valueOf"].

Definition number_members : list string :=
  ["constructor"; "toExponential"; "toFixed"; "toLocaleString";
   "toPrecision"; "toString"; "valueOf"].

Definition boolean_members : list string :=
  ["constructor"; "toString"; "valueOf"].

Definition members (h : holder) : list string :=
  match h with
  | HInstance => odo_members ++ object_members
  | HObject => object_members
  | HArray => array_members ++ object_members
  | HFunction => function_members ++ object_members
  | HString => string_members ++ object_members
  | HNumber => number_members ++ object_members
  | HBoolean => boolean_members ++ object_members
  end.

(** [builtin h k]: a value of the sort [h] has a property [k] that the
    store does not hold. *)
Definition builtin (h : holder) (k : string) : bool :=
  existsb (String.eqb k) (members h).

(** A first segment of a field path that reads [undefined] on a new
    instance: not the bag, not a method of the class, not a member of
    [Object.prototype]. *)
Definition top (k : string) : bool :=
  negb (String.eqb k "i") && negb (builtin HInstance k).

(** A later segment of a field path that reads [undefined] on a new
    container, object or array. *)
Definition plain (k : string) : bool :=
  negb (String.eqb k "length") && negb (builtin HObject k)
  && negb (builtin HArray k).

End Js.

(** ** Values, objects and the state of an instance *)

Definition loc := nat.

(** The identity of a function, and the identity of a range-spec array
    (the cache is keyed by the reference of the array, not by its
    contents). *)
Definition fid := nat.
Definition rid := nat.

Inductive value :=
| VUndef
| VNull
| VBool (b : bool)
| VNum (n : Z)
| VNaN
| VInf (negative : bool)
| VStr (s : string)
| VRef (l : loc).

(** The function handed to [_cachedValue] by [_convertRangeToGetter]. *)
Inductive compute :=
| CIndexFn (i : Z) (f : fid)
| CSliceFn (s e : Z) (f : fid).

(** The closures [_convertRangeToGetter] returns, with what they capture. *)
Inductive getter :=
| GFun (f : fid) (existingValue : value)
| GIndex (i : Z)
| GCached (valueFn : compute) (cacheKey : rid)
| GSlice (s e : Z).

Inductive prop :=
| PData (v : value)
| PGet (g : getter).

Inductive kind :=
| KObject
| KArray (len : N)
| KFunction (f : fid).

(** An object: its kind and its own properties in creation order.  The
    [length] of an array is kept in its kind. *)
Record object := Object { okind : kind; oprops : list (string * prop) }.

(** The range specs of the data model. *)
Inductive range :=
| RFun (f : fid)
| RIndex (i : Z)
| RIndexFn (key : rid) (i : Z) (f : fid)
| RSlice (s e : Z)
| RSliceFn (key : rid) (s e : Z) (f : fid).

(** An element of the set [i.unused]. *)
Inductive marker :=
| MString (s : string)
| MArray (path : list string).

Inductive error :=
| OdoError (message : string) (cursor_obj : value) (cursor_key : option string)
    (cursor_path : list string) (field : string)
| TypeError
| RangeError
| SyntaxError.

Record state := State {
  values : list value;
  fields : list string;
  unused : list marker;
  cached : list (rid * value);
  heap : list object
}.

Definition this : loc := 0.

Definition set_values (vs : list value) (st : state) : state :=
  State vs (fields st) (unused st) (cached st) (heap st).
Definition set_fields (fs : list string) (st : state) : state :=
  State (values st) fs (unused st) (cached st) (heap st).
Definition set_unused (us : list marker) (st : state) : state :=
  State (values st) (fields st) us (cached st) (heap st).
Definition set_cached (c : list (rid * value)) (st : state) : state :=
  State (values st) (fields st) (unused st) c (heap st).
Definition set_heap (h : list object) (st : state) : state :=
  State (values st) (fields st) (unused st) (cached st) h.

(** [new Odo()]. *)
Definition new_Odo : state :=
  State [] [] [] [] [Object KObject []].

(** ** The monad of methods *)

(** [Beyond st]: the run has left what the model follows, in the state
    [st]. *)
Inductive outcome (A : Type) :=
| Ok (a : A) (st : state)
| Throw (e : error) (st : state)
| Beyond (st : state).
Arguments Ok {A} a st.
Arguments Throw {A} e st.
Arguments Beyond {A} st.

Definition M (A : Type) : Type := state -> outcome A.

Definition ret {A} (a : A) : M A := fun st => Ok a st.
Definition throw {A} (e : error) : M A := fun st => Throw e st.
Definition beyond {A} : M A := fun st => Beyond st.
Definition bind {A B} (m : M A) (k : A -> M B) : M B :=
  fun st =>
    match m st with
    | Ok a st' => k a st'
    | Throw e st' => Throw e st'
    | Beyond st' => Beyond st'
    end.
Definition gets {A} (f : state -> A) : M A := fun st => Ok (f st) st.
Definition modify (f : state -> state) : M unit := fun st => Ok tt (f st).

Notation "x <- m ;; k" := (bind m (fun x => k))
  (at level 100, m at next level, right associativity).
Notation "m ;;; k" := (bind m (fun _ => k))
  (at level 100, right associativity).

(** [for (const x of l) body(x)]. *)
Fixpoint for_each {A} (body : A -> M unit) (l : list A) : M unit :=
  match l with
  | [] => ret tt
  | x :: l' => body x ;;; for_each body l'
  end.

Definition state_of {A} (o : outcome A) : state :=
  match o with Ok _ st => st | Throw _ st => st | Beyond st => st end.

(** ** Sets and maps of the internals *)

Definition marker_eqb (a b : marker) : bool :=
  match a, b with
  | MString x, MString y => String.eqb x y
  | _, _ => false
  end.

(** [set.has(x)], [set.add(x)], [set.delete(x)] on an insertion-ordered
    set.  Two arrays are the same element only when they are the same
    reference, and no array is ever looked up, so [marker_eqb] compares
    strings only. *)
Definition fields_add (x : string) (s : list string) : list string :=
  if existsb (String.eqb x) s then s else s ++ [x].
Definition unused_has (x : marker) (s : list marker) : bool :=
  existsb (marker_eqb x) s.
Definition unused_add (x : marker) (s : list marker) : list marker :=
  if unused_has x s then s else s ++ [x].
Definition unused_delete (x : marker) (s : list marker) : list marker :=
  filter (fun y => negb (marker_eqb x y) = true) s.

Fixpoint cached_get (k : rid) (c : list (rid * value)) : option value :=
  match c with
  | [] => None
  | (k', v) :: c' => if Nat.eqb k k' then Some v else cached_get k c'
  end.
Fixpoint cached_set (k : rid) (v : value) (c : list (rid * value))
  : list (rid * value) :=
  match c with
  | [] => [(k, v)]
  | (k', v') :: c' =>
      if Nat.eqb k k' then (k, v) :: c' else (k', v') :: cached_set k v c'
  end.

(** ** Own properties *)

Fixpoint props_get (k : string) (ps : list (string * prop)) : option prop :=
  match ps with
  | [] => None
  | (k', p) :: ps' => if String.eqb k k' then Some p else props_get k ps'
  end.

(** Defining a property keeps the place of an existing key and appends a
    new one. *)
Fixpoint props_set (k : string) (p : prop) (ps : list (string * prop))
  : list (string * prop) :=
  match ps with
  | [] => [(k, p)]
  | (k', p') :: ps' =>
      if String.eqb k k' then (k, p) :: ps' else (k', p') :: props_set k p ps'
  end.

Fixpoint props_delete (k : string) (ps : list (string * prop))
  : list (string * prop) :=
  match ps with
  | [] => []
  | (k', p') :: ps' =>
      if String.eqb k k' then props_delete k ps'
      else (k', p') :: props_delete k ps'
  end.

(** Defining an index at or past the [length] of an array moves the
    [length] past it. *)
Definition grow (k : string) (kd : kind) : kind :=
  match kd with
  | KArray len =>
      match Js.array_index k with
      | Some n => if (len <=? n)%N then KArray (n + 1) else kd
      | None => kd
      end
  | _ => kd
  end.

Definition is_array (kd : kind) : bool :=
  match kd with KArray _ => true | _ => false end.

Definition falsy (v : value) : bool :=
  match v with
  | VUndef | VNull | VBool false | VNum 0 | VNaN | VStr EmptyString => true
  | _ => false
  end.

Definition is_undefined (v : value) : bool :=
  match v with VUndef => true | _ => false end.

(** The property key a value names: [cursor.key] is [undefined] when the
    path was empty. *)
Definition key_of (k : option string) : string := default "undefined" k.

(** ** The class [Odo] *)

Section Odo.

(** What calling a function does: [call f arg h] is the result of the
    function [f] on [arg] in the store [h], with the objects it allocates
    (they are appended to the store). *)
Variable call : fid -> value -> list object -> value * list object.

Definition apply (f : fid) (arg : value) : M value :=
  fun st =>
    let '(v, new) := call f arg (heap st) in
    Ok v (set_heap (heap st ++ new) st).

Definition alloc (o : object) : M value :=
  fun st => Ok (VRef (length (heap st))) (set_heap (heap st ++ [o]) st).

Definition store (l : loc) (o : object) : M unit :=
  modify (fun st => set_heap (<[l:=o]> (heap st)) st).

(** *** Reading the value sequence *)

(** [values[i]] on an array: a negative index names no element. *)
Definition index_value (vs : list value) (i : Z) : value :=
  if (i <? 0)%Z then VUndef else default VUndef (vs !! Z.to_nat i).

(** [values.slice(s, e)]: negative bounds count from the end. *)
Definition clamp (len i : Z) : Z :=
  if (i <? 0)%Z then Z.max (len + i) 0 else Z.min i len.

Definition slice (vs : list value) (s e : Z) : list value :=
  let len := Z.of_nat (length vs) in
  let k := clamp len s in
  let final := clamp len e in
  take (Z.to_nat (final - k)) (drop (Z.to_nat k) vs).

(** A new array holding [vs]. *)
Definition array_of (vs : list value) : object :=
  Object (KArray (N.of_nat (length vs)))
    (imap (fun i v => (Js.of_N (N.of_nat i), PData v)) vs).

(** *** Getters *)

Definition run (c : compute) : M value :=
  match c with
  | CIndexFn i f =>
      vs <- gets values ;;
      apply f (index_value vs i)
  | CSliceFn s e f =>
      vs <- gets values ;;
      a <- alloc (array_of (slice vs s e)) ;;
      apply f a
  end.

Definition _cachedValue (valueFn : M value) (cacheKey : rid) : M value :=
  c <- gets cached ;;
  match cached_get cacheKey c with
  | Some v => ret v
  | None =>
      val <- valueFn ;;
      modify (fun st => set_cached (cached_set cacheKey val (cached st)) st) ;;;
      ret val
  end.

Definition invoke (g : getter) : M value :=
  match g with
  | GFun f existingValue => apply f existingValue
  | GIndex i => vs <- gets values ;; ret (index_value vs i)
  | GCached c cacheKey => _cachedValue (run c) cacheKey
  | GSlice s e => vs <- gets values ;; alloc (array_of (slice vs s e))
  end.

Definition _convertRangeToGetter (r : range) (existingValue : value) : getter :=
  match r with
  | RFun f => GFun f existingValue
  | RIndex i => GIndex i
  | RIndexFn key i f => GCached (CIndexFn i f) key
  | RSliceFn key s e f => GCached (CSliceFn s e f) key
  | RSlice s e => GSlice s e
  end.

(** *** Property access: [o[k]], [o[k] = v], [Object.defineProperty],
    [delete o[k]], in strict mode *)

(** The sort of the object at [l]. *)
Definition holder_of (l : loc) (kd : kind) : Js.holder :=
  if Nat.eqb l this then Js.HInstance
  else match kd with
       | KObject => Js.HObject
       | KArray _ => Js.HArray
       | KFunction _ => Js.HFunction
       end.

(** The key of the bag of the internals: the own property [i] that the
    constructor defines on the instance. *)
Definition bag (l : loc) (k : string) : bool :=
  Nat.eqb l this && String.eqb k "i".

(** The object [o] at [l] has a property [k] that the store does not
    hold, when the program has not defined [k] on it: the bag, or a member
    that the language or the class gives to its sort. *)
Definition given (l : loc) (o : object) (k : string) : bool :=
  bag l k || Js.builtin (holder_of l (okind o)) k.

(** An own property that the language gives to a function ([name],
    [length], [prototype]) and that the program has not defined anew. *)
Definition native_own (o : object) (k : string) : bool :=
  match okind o, props_get k (oprops o) with
  | KFunction _, None => Js.builtin Js.HFunction k
  | _, _ => false
  end.

(** The own properties of a string: its [length] and its characters. *)
Definition string_get (s k : string) : option value :=
  if String.eqb k "length" then Some (VNum (Z.of_nat (String.length s)))
  else match Js.array_index k with
       | Some n =>
           match String.get (N.to_nat n) s with
           | Some c => Some (VStr (String c EmptyString))
           | None => None
           end
       | None => None
       end.

(** [base[k]]: an own property; or else a member that the language or the
    class gives, where the model stops; or else [undefined]. *)
Definition Get (base : value) (k : string) : M value :=
  match base with
  | VUndef | VNull => throw TypeError
  | VBool _ => if Js.builtin Js.HBoolean k then beyond else ret VUndef
  | VNum _ | VNaN | VInf _ =>
      if Js.builtin Js.HNumber k then beyond else ret VUndef
  | VStr s =>
      match string_get s k with
      | Some v => ret v
      | None => if Js.builtin Js.HString k then beyond else ret VUndef
      end
  | VRef l =>
      h <- gets heap ;;
      match h !! l with
      | None => ret VUndef
      | Some o =>
          match props_get k (oprops o) with
          | Some (PData v) => ret v
          | Some (PGet g) => invoke g
          | None =>
              if is_array (okind o) && String.eqb k "length"
              then ret (VNum (match okind o with
                              | KArray len => Z.of_N len
                              | _ => 0
                              end))
              else if given l o k then beyond
              else ret VUndef
          end
      end
  end.

(** [base[k] = v].  Assigning through a property that has only a getter,
    or on a primitive, throws.  The model does not follow an assignment to
    the [length] of an array, to the bag, or to a key that the object
    inherits. *)
Definition Put (base : value) (k : string) (v : value) : M unit :=
  match base with
  | VRef l =>
      h <- gets heap ;;
      match h !! l with
      | None => ret tt
      | Some o =>
          match props_get k (oprops o) with
          | Some (PGet _) => throw TypeError
          | p =>
              if (is_array (okind o) && String.eqb k "length")
                 || (match p with None => true | Some _ => false end
                     && given l o k)
              then beyond
              else store l (Object (grow k (okind o))
                              (props_set k (PData v) (oprops o)))
          end
      end
  | _ => throw TypeError
  end.

(** [Object.defineProperty(base, k, { get: g, enumerable: true,
    configurable: true })].  The properties that the program defines are
    configurable; the [length] of an array is not; the model does not
    follow a definition over the bag or over an own property that the
    language gives to a function. *)
Definition DefineGetter (base : value) (k : string) (g : getter) : M unit :=
  match base with
  | VRef l =>
      h <- gets heap ;;
      match h !! l with
      | None => ret tt
      | Some o =>
          if is_array (okind o) && String.eqb k "length" then throw TypeError
          else if bag l k || native_own o k then beyond
          else store l (Object (grow k (okind o))
                          (props_set k (PGet g) (oprops o)))
      end
  | _ => throw TypeError
  end.

(** [delete base[k]]: own properties only. *)
Definition Delete (base : value) (k : string) : M unit :=
  match base with
  | VUndef | VNull => throw TypeError
  | VBool _ | VNum _ | VNaN | VInf _ => ret tt
  | VStr s =>
      match string_get s k with
      | Some _ => throw TypeError
      | None => ret tt
      end
  | VRef l =>
      h <- gets heap ;;
      match h !! l with
      | None => ret tt
      | Some o =>
          if is_array (okind o) && String.eqb k "length" then throw TypeError
          else if bag l k || native_own o k then beyond
          else store l (Object (okind o) (props_delete k (oprops o)))
      end
  end.

(** *** Methods *)

(** [setValues(values)]. *)
Definition setValues (vs : list value) : M unit :=
  modify (set_values vs) ;;;
  modify (set_cached []).

Record cursor := Cursor {
  cobj : value;
  ckey : option string;
  cpath : list string
}.

(** [path.pop()]: the last element, and what is left of the array. *)
Definition pop (path : list string) : option string * list string :=
  (last path, removelast path).

Definition quote : string := String (ascii_of_nat 34) EmptyString.

Definition misdefined (field : string) (path : list string) : string :=
  quote ++ field
  ++ quote ++ " may be misdefined, encountered undefined parent for path elements "
  ++ quote ++ Js.join "," path ++ quote.

(** The loop of [_getCursorToEndOfPath]: [cursor.obj[field]] is read once
    for the test and once for the step. *)
Fixpoint walk (lastKey : option string) (path keys : list string)
    (obj : value) : M value :=
  match keys with
  | [] => ret obj
  | field :: keys' =>
      v <- Get obj field ;;
      if falsy v
      then throw (OdoError (misdefined field path) obj lastKey path field)
      else
        obj' <- Get obj field ;;
        walk lastKey path keys' obj'
  end.

Definition _getCursorToEndOfPath (path0 : list string) : M cursor :=
  let '(lastKey, path) := pop path0 in
  obj <- walk lastKey path path (VRef this) ;;
  ret (Cursor obj lastKey path).

(** The loop of [_ensurePathStructure].  [isPathNumber] is computed from
    the path without its last key, and [rebuiltPath] grows by the whole
    [path] (as a string: its elements joined by commas) at every turn. *)
Fixpoint ensure (path : list string) (isPathNumber : list bool)
    (keys : list string) (obj : value) (index : nat) (rebuiltPath : string)
  : M value :=
  match keys with
  | [] => ret obj
  | key :: keys' =>
      v <- Get obj key ;;
      (if is_undefined v then
         let isNextKeyNumeric := nth (index + 1) isPathNumber false in
         c <- alloc (if isNextKeyNumeric then Object (KArray 0) []
                     else Object KObject []) ;;
         Put obj key c
       else ret tt) ;;;
      obj' <- Get obj key ;;
      let rebuiltPath' :=
        rebuiltPath
        ++ (if String.eqb rebuiltPath EmptyString then EmptyString else ".")
        ++ Js.join "," path in
      modify (fun st =>
        if unused_has (MString rebuiltPath') (unused st)
        then set_unused (unused_delete (MString rebuiltPath') (unused st)) st
        else st) ;;;
      ensure path isPathNumber keys' obj' (index + 1) rebuiltPath'
  end.

Definition _ensurePathStructure (path0 : list string)
  : M (value * option string) :=
  let '(lastKey, path) := pop path0 in
  let isPathNumber := map Js.isFinite path in
  obj <- ensure path isPathNumber path (VRef this) 0 EmptyString ;;
  ret (obj, lastKey).

(** The entries of a structure, sorted as [addStructure] sorts them:
    greater field names first, by a stable sort. *)
Fixpoint insert_entry (x : string * range) (l : list (string * range))
  : list (string * range) :=
  match l with
  | [] => [x]
  | y :: l' => if Js.gt y.1 x.1 then y :: insert_entry x l' else x :: l
  end.

Definition sort_entries (l : list (string * range)) : list (string * range) :=
  foldr insert_entry [] l.

(** The body of the loop of [addStructure]. *)
Definition add_field (entry : string * range) : M unit :=
  let '(fieldName, r) := entry in
  let isPath := Js.includes "." fieldName in
  let path := Js.split "." fieldName in
  modify (fun st => set_fields (fields_add fieldName (fields st)) st) ;;;
  c <- (if isPath then _ensurePathStructure path
        else ret (VRef this, Some fieldName)) ;;
  let '(obj, key) := c in
  existingValue <- Get obj (key_of key) ;;
  DefineGetter obj (key_of key) (_convertRangeToGetter r existingValue).

Definition addStructure (structure : list (string * range)) : M unit :=
  for_each add_field (sort_entries structure).

(** The body of the loop of [resetStructure]. *)
Definition reset_field (fieldName : string) : M unit :=
  let isPath := Js.includes "." fieldName in
  let path := Js.split "." fieldName in
  if isPath then
    c <- _getCursorToEndOfPath path ;;
    let unusedPath := Js.join "." (cpath c) in
    modify (fun st =>
      set_unused (unused_add (MString unusedPath) (unused st)) st) ;;;
    Delete (cobj c) (key_of (ckey c))
  else Delete (VRef this) fieldName.

Definition resetStructure : M unit :=
  modify (set_unused []) ;;;
  modify (set_cached []) ;;;
  fs <- gets fields ;;
  for_each reset_field fs ;;;
  modify (set_fields []).

(** The body of the loop of [removeUnusedStructure]. *)
Definition remove_unused (field : marker) : M unit :=
  match field with
  | MArray path =>
      c <- _getCursorToEndOfPath path ;;
      Delete (cobj c) (key_of (ckey c))
  | MString s => Delete (VRef this) s
  end.

Definition removeUnusedStructure : M unit :=
  us <- gets unused ;;
  for_each remove_unused us ;;;
  modify (set_unused []).

Definition setStructure (structure : list (string * range)) : M unit :=
  resetStructure ;;;
  addStructure structure ;;;
  removeUnusedStructure.

(** *** [export()]: [JSON.parse(JSON.stringify(this))] *)

(** What [JSON.parse] builds. *)
Inductive json :=
| JNull
| JBool (b : bool)
| JNum (n : Z)
| JStr (s : string)
| JArr (items : list json)
| JObj (members : list (string * json)).

Fixpoint map_m {A B} (f : A -> M B) (l : list A) : M (list B) :=
  match l with
  | [] => ret []
  | x :: l' => y <- f x ;; ys <- map_m f l' ;; ret (y :: ys)
  end.

Fixpoint insert_N (x : N) (l : list N) : list N :=
  match l with
  | [] => [x]
  | y :: l' => if (x <=? y)%N then x :: l else y :: insert_N x l'
  end.

(** The own keys of an object, in the order of enumeration: array indices
    in ascending order, then the other keys in creation order. *)
Definition own_keys (ps : list (string * prop)) : list string :=
  let ks := map fst ps in
  map Js.of_N (foldr insert_N [] (omap Js.array_index ks))
  ++ filter (fun k => Js.array_index k = None) ks.

Definition indices (len : N) : list string :=
  map (fun i => Js.of_N (N.of_nat i)) (seq 0 (N.to_nat len)).

Definition callable (h : list object) (v : value) : option fid :=
  match v with
  | VRef l =>
      match h !! l with
      | Some (Object (KFunction f) _) => Some f
      | _ => None
      end
  | _ => None
  end.

(** [SerializeJSONProperty] from the value on, followed by the parse of
    the text: [None] is [undefined] (no text).  [depth] bounds the nesting
    (the call stack of the engine); [stack] holds the objects being
    serialized, to refuse a cyclic structure. *)
Fixpoint serialize (depth : nat) (stack : list loc) (key : string)
    (value : value) : M (option json) :=
  match depth with
  | O => throw RangeError
  | S depth' =>
      value <-
        (match value with
         | VRef _ =>
             toJSON <- Get value "toJSON" ;;
             h <- gets heap ;;
             match callable h toJSON with
             | Some f => apply f (VStr key)
             | None => ret value
             end
         | _ => ret value
         end) ;;
      match value with
      | VUndef => ret None
      | VNull => ret (Some JNull)
      | VBool b => ret (Some (JBool b))
      | VNum n => ret (Some (JNum n))
      | VNaN | VInf _ => ret (Some JNull)
      | VStr s => ret (Some (JStr s))
      | VRef l =>
          h <- gets heap ;;
          match h !! l with
          | None => ret None
          | Some o =>
              match okind o with
              | KFunction _ => ret None
              | KArray len =>
                  if existsb (Nat.eqb l) stack then throw TypeError
                  else
                    items <- map_m (fun k =>
                        v <- Get value k ;;
                        r <- serialize depth' (l :: stack) k v ;;
                        ret (default JNull r))
                      (indices len) ;;
                    ret (Some (JArr items))
              | KObject =>
                  if existsb (Nat.eqb l) stack then throw TypeError
                  else
                    members <- map_m (fun k =>
                        v <- Get value k ;;
                        r <- serialize depth' (l :: stack) k v ;;
                        ret (option_map (pair k) r))
                      (own_keys (oprops o)) ;;
                    ret (Some (JObj (omap id members)))
              end
          end
      end
  end.

Definition export (depth : nat) : M json :=
  r <- serialize depth [] EmptyString (VRef this) ;;
  match r with
  | Some j => ret j
  | None => throw SyntaxError
  end.

End Odo.

(** ** The scenarios of [Odo.test.js] *)

Module Scenarios.

(** The elements of an array of the store. *)
Definition elements (h : list object) (v : value) : list value :=
  match v with
  | VRef l =>
      match h !! l with
      | Some o =>
          omap (fun kp => match kp.2 with PData x => Some x | _ => None end)
            (oprops o)
      | None => []
      end
  | _ => []
  end.

(** A number as arithmetic sees it. *)
Inductive number := Finite (z : Z) | NotANumber | Infinite (negative : bool).

(** The value of the number nearest to the integer [z]. *)
Definition of_Z (z : Z) : value :=
  match Js.round_to_double z with
  | Some m => VNum m
  | None => VInf (z <? 0)%Z
  end.

Definition of_number (n : number) : value :=
  match n with
  | Finite z => of_Z z
  | NotANumber => VNaN
  | Infinite s => VInf s
  end.

(** [ToNumber], where the result is an integer, [NaN] or an infinity.  A
    string is taken for [NaN], and so is an object: the scenarios hand
    numbers (or [undefined]) to the products. *)
Definition to_number (v : value) : number :=
  match v with
  | VUndef => NotANumber
  | VNull => Finite 0
  | VBool b => Finite (if b then 1 else 0)
  | VNum n => Finite n
  | VNaN => NotANumber
  | VInf s => Infinite s
  | VStr _ | VRef _ => NotANumber
  end.

(** [v * k], for an integer [k]. *)
Definition times (k : Z) (v : value) : value :=
  match to_number v with
  | Finite n => of_Z (n * k)
  | NotANumber => VNaN
  | Infinite s =>
      if (k =? 0)%Z then VNaN else VInf (xorb s (k <? 0)%Z)
  end.

Definition of_int (k : Z) : string :=
  match k with
  | Z0 => "0"
  | Zpos p => Js.of_N (Npos p)
  | Zneg p => "-" ++ Js.of_N (Npos p)
  end.

(** [v + k], for an integer [k]: a sum, or the string of [v] followed by
    the digits of [k].  An object is taken for [NaN]: the scenarios add to
    the elements of slices of numbers. *)
Definition plus (k : Z) (v : value) : value :=
  match v with
  | VStr s => VStr (s ++ of_int k)
  | _ =>
      match to_number v with
      | Finite n => of_Z (n + k)
      | NotANumber => VNaN
      | Infinite s => VInf s
      end
  end.

(** The functions of the tests: [v => v * 100], [v => v * 50],
    [v => v * 0] and [list => list.map(v => v + 10)] (on an array). *)
Definition call (f : fid) (arg : value) (h : list object)
  : value * list object :=
  match f with
  | 0 => (times 100 arg, [])
  | 1 => (times 50 arg, [])
  | 2 => (times 0 arg, [])
  | 3 => (VRef (length h), [array_of (map (plus 10) (elements h arg))])
  | _ => (VUndef, [])
  end.

Definition nums (l : list Z) : list value := map VNum l.

(** The value sequences of the tests. *)
Definition six : list value := nums [11; 12; 13; 14; 15; 16]%Z.
Definition six' : list value := nums [111; 112; 113; 114; 115; 116]%Z.
Definition three : list value := nums [11; 12; 13]%Z.

(** Runs the methods one after the other; stops at the first that throws. *)
Fixpoint script (ms : list (M unit)) : M unit :=
  match ms with
  | [] => ret tt
  | m :: ms' => m ;;; script ms'
  end.

Definition exported (ms : list (M unit)) : outcome json :=
  (script ms ;;; export call 8) new_Odo.

Definition result {A} (o : outcome A) : option A :=
  match o with Ok a _ => Some a | _ => None end.

End Scenarios.

(** ** Notions used by the statements *)

(** The instance is an ordinary object of the store. *)
Definition instance (st : state) : Prop :=
  exists ps, heap st !! this = Some (Object KObject ps).

(** [extends st st']: [st'] is [st] with objects added to the store and
    another cache. *)
Definition extends (st st' : state) : Prop :=
  exists c new,
    st' = State (values st) (fields st) (unused st) c (heap st ++ new).

(** [preserves P m]: the method [m] keeps the property [P] of the state,
    whether it returns or throws. *)
Definition preserves {A} (P : state -> Prop) (m : M A) : Prop :=
  forall st, P st -> P (state_of (m st)).

(** A property of the registry and of the unused set only. *)
Definition registry_only (P : state -> Prop) : Prop :=
  forall st st',
    fields st = fields st' -> unused st = unused st' -> P st -> P st'.

(** The marker [resetStructure] records for the field path [fieldName]:
    the path without its last key, joined by dots. *)
Definition marker_of (fieldName : string) : string :=
  Js.join "." (removelast (Js.split "." fieldName)).

(** [raises Q m]: whatever the method [m] throws satisfies [Q]. *)
Definition raises {A} (Q : error -> Prop) (m : M A) : Prop :=
  forall st e st', m st = Throw e st' -> Q e.

(** An error of the language, as opposed to an [OdoError]. *)
Definition native (e : error) : Prop :=
  e = TypeError \/ e = RangeError \/ e = SyntaxError.

(** A string that consists only of digits. *)
Definition digits_only (s : string) : bool :=
  negb (String.eqb s EmptyString)
  && forallb (fun c => match Js.digit 10 c with Some _ => true | None => false end)
       (list_ascii_of_string s).

(** The container reached from the object at [l] through data properties
    along [keys]. *)
Fixpoint descend (h : list object) (l : loc) (keys : list string)
  : option loc :=
  match keys with
  | [] => Some l
  | k :: keys' =>
      match h !! l with
      | Some o =>
          match props_get k (oprops o) with
          | Some (PData (VRef c)) => descend h c keys'
          | _ => None
          end
      | None => None
      end
  end.

(** The own keys of the instance. *)
Definition own_key (st : state) (k : string) : Prop :=
  exists ps p,
    heap st !! this = Some (Object KObject ps) /\ props_get k ps = Some p.

(** A value that is not an object, or is a function with no [toJSON] of
    its own. *)
Definition leaf (st : state) (v : value) : Prop :=
  match v with
  | VRef l =>
      exists f fps,
        heap st !! l = Some (Object (KFunction f) fps)
        /\ props_get "toJSON" fps = None
  | _ => True
  end.

(** ** The shape of a view *)

(** The segments of a field path, its directory (the segments before the
    last) and its last key. *)
Definition segs (name : string) : list string := Js.split "." name.
Definition dir (name : string) : list string := removelast (segs name).
Definition leaf_key (name : string) : string := key_of (last (segs name)).

(** A field path whose segments name nothing that the language or the
    class gives: the first is not [i], the name of a method of the class
    or of a member of [Object.prototype]; the others are not [length] or
    the name of a member of [Object.prototype] or [Array.prototype]. *)
Definition admissible (f : string) : bool :=
  match segs f with
  | k :: ks => Js.top k && forallb Js.plain ks
  | [] => false
  end.

(** [q] is the path of a container of one of the fields [C]. *)
Definition is_dir (C : list string) (q : list string) : Prop :=
  q <> [] /\ exists f, f ∈ C /\ q `prefix_of` dir f.

(** The instance, or a container. *)
Definition node (C : list string) (q : list string) : Prop :=
  q = [] \/ is_dir C q.

Definition container (o : object) : Prop :=
  match okind o with KFunction _ => False | _ => True end.

(** The indices that an array holds are below its [length]. *)
Definition bounded (o : object) : Prop :=
  match okind o with
  | KArray len =>
      forall k p n,
        props_get k (oprops o) = Some p -> Js.array_index k = Some n ->
        (n < len)%N
  | _ => True
  end.

(** No field path of [C] is the beginning of another. *)
Definition prefix_free (C : list string) : Prop :=
  forall f1 f2, f1 ∈ C -> f2 ∈ C -> segs f1 `prefix_of` segs f2 -> f1 = f2.

(** [view C F st]: the instance holds the containers of the field paths
    [C], one object for each, linked by data properties, and the
    accessors of the fields [F] among them, and nothing else. *)
Record view (C : list string) (F : list (string * getter)) (st : state)
  : Prop := View {
  view_this : exists ps, heap st !! this = Some (Object KObject ps);
  view_sub : forall f g, (f, g) ∈ F -> f ∈ C;
  view_free : prefix_free C;
  view_names : forall f, f ∈ C -> admissible f = true;
  view_dirs : forall q, is_dir C q ->
    exists c o,
      descend (heap st) this q = Some c /\ heap st !! c = Some o
      /\ container o;
  view_inj : forall q1 q2 c,
    node C q1 -> node C q2 ->
    descend (heap st) this q1 = Some c ->
    descend (heap st) this q2 = Some c -> q1 = q2;
  view_closed : forall q c o k p,
    node C q -> descend (heap st) this q = Some c ->
    heap st !! c = Some o -> props_get k (oprops o) = Some p ->
    (is_dir C (q ++ [k]) /\ exists c', p = PData (VRef c'))
    \/ (exists f g, (f, g) ∈ F /\ segs f = (q ++ [k])%list /\ p = PGet g);
  view_fields : forall f g, (f, g) ∈ F ->
    exists c o,
      descend (heap st) this (dir f) = Some c /\ heap st !! c = Some o
      /\ props_get (leaf_key f) (oprops o) = Some (PGet g);
  view_bounds : forall q c o,
    node C q -> descend (heap st) this q = Some c ->
    heap st !! c = Some o -> bounded o
}.

(** [h'] has the objects of [h], with their properties and more; an
    object that is a function is as it was. *)
Definition adds (h h' : list object) : Prop :=
  forall (l : loc) o, h !! l = Some o ->
    exists o', h' !! l = Some o'
      /\ (forall k p, props_get k (oprops o) = Some p ->
                      props_get k (oprops o') = Some p)
      /\ (container o \/ o' = o).

(** The accessors a structure declares where nothing was declared
    before. *)
Definition getters (structure : list (string * range))
  : list (string * getter) :=
  map (fun e => (e.1, _convertRangeToGetter e.2 VUndef)) structure.

(** A structure that nests cleanly: its field names are distinct (it was
    an object literal), none is the beginning of another, and each is
    [admissible]. *)
Definition clean (structure : list (string * range)) : Prop :=
  NoDup structure.*1
  /\ prefix_free structure.*1
  /\ forall f, f ∈ structure.*1 -> admissible f = true.

(** [clean], as a test. *)
Fixpoint prefix_b (a b : list string) : bool :=
  match a, b with
  | [], _ => true
  | x :: a', y :: b' => String.eqb x y && prefix_b a' b'
  | _ :: _, [] => false
  end.

Definition prefix_free_b (C : list string) : bool :=
  forallb (fun f1 =>
    forallb (fun f2 =>
      negb (prefix_b (segs f1) (segs f2)) || String.eqb f1 f2) C) C.

Fixpoint nodup_b (l : list string) : bool :=
  match l with
  | [] => true
  | x :: l' => negb (existsb (String.eqb x) l') && nodup_b l'
  end.

Definition clean_b (structure : list (string * range)) : bool :=
  nodup_b structure.*1 && prefix_free_b structure.*1
  && forallb admissible structure.*1.

(** The registry holds the fields [F], each once. *)
Definition registered (F : list (string * getter)) (st : state) : Prop :=
  NoDup (fields st) /\ forall f, f ∈ fields st <-> exists g, (f, g) ∈ F.

Section Reading.

Variable call : fid -> value -> list object -> value * list object.

(** [base.k1.k2...]: the chain of property reads along [keys]. *)
Fixpoint read_path (keys : list string) (base : value) : M value :=
  match keys with
  | [] => ret base
  | k :: keys' => v <- Get call base k ;; read_path keys' v
  end.

End Reading.

(** An instance on which no structure was ever declared: [this] has no
    own key and the registry is empty.  ([new_Odo] is one; the values,
    the cache and the other objects of the store are arbitrary.) *)
Definition blank (st : state) : Prop :=
  heap st !! this = Some (Object KObject []) /\ fields st = [].

(** The own key of the instance that the field path [f] goes through. *)
Definition first_key (f : string) : option string := head (segs f).

(** The outcome [o], with the registry [fs] in its state. *)
Definition with_fields {A} (fs : list string) (o : outcome A) : outcome A :=
  match o with
  | Ok a st => Ok a (set_fields fs st)
  | Throw e st => Throw e (set_fields fs st)
  | Beyond st => Beyond (set_fields fs st)
  end.

(** The field [f] is installed in the store [h]: the containers of its
    path are there, and the last holds the accessor [g] under its key. *)
Definition installed (h : list object) (f : string) (g : getter) : Prop :=
  exists c o,
    descend h this (dir f) = Some c /\ h !! c = Some o
    /\ props_get (leaf_key f) (oprops o) = Some (PGet g).

(** ** The exported value *)

(** The image of a value that is not an object, or is a function: none
    for [undefined] and for a function, [null] for [NaN] and the
    infinities. *)
Definition json_of_leaf (v : value) : option json :=
  match v with
  | VUndef => None
  | VNull => Some JNull
  | VBool b => Some (JBool b)
  | VNum n => Some (JNum n)
  | VNaN | VInf _ => Some JNull
  | VStr s => Some (JStr s)
  | VRef _ => None
  end.

(** A range spec without a function: an index or a slice. *)
Definition unmapped (r : range) : bool :=
  match r with RIndex _ | RSlice _ _ => true | _ => false end.

(** A getter that reads the values only: an index or a slice. *)
Definition direct (g : getter) : bool :=
  match g with GIndex _ | GSlice _ _ => true | _ => false end.

(** The image of what a direct getter reads, on values that are leaves:
    that of the element, or the list of those of the slice, with [null]
    where an element has none. *)
Definition field_json (vs : list value) (g : getter) : option json :=
  match g with
  | GIndex i => json_of_leaf (index_value vs i)
  | GSlice s e =>
      Some (JArr (map (fun v => default JNull (json_of_leaf v))
                    (slice vs s e)))
  | _ => None
  end.

Fixpoint assoc (k : string) (ms : list (string * json)) : option json :=
  match ms with
  | [] => None
  | (k', j) :: ms' => if String.eqb k k' then Some j else assoc k ms'
  end.

(** [j[k1][k2]...] on an exported value: the members of a map, the items
    of a list. *)
Fixpoint jget (j : json) (path : list string) : option json :=
  match path with
  | [] => Some j
  | k :: path' =>
      match j with
      | JObj ms =>
          match assoc k ms with
          | Some j' => jget j' path'
          | None => None
          end
      | JArr items =>
          match Js.array_index k with
          | Some n =>
              match items !! N.to_nat n with
              | Some j' => jget j' path'
              | None => None
              end
          | None => None
          end
      | _ => None
      end
  end.

Definition is_list (j : json) : bool :=
  match j with JArr _ => true | _ => false end.

Definition is_map (j : json) : bool :=
  match j with JObj _ => true | _ => false end.

(** What the export of an object holds under the key [k], when the value
    read there has the image [image]: a map has a member if there is an
    image; a list has an item only for an index, [null] if there is no
    image. *)
Definition child_json (parent : json) (k : string) (image : option json)
  : option json :=
  match parent with
  | JObj _ => image
  | JArr _ =>
      match Js.array_index k with
      | Some _ => Some (default JNull image)
      | None => None
      end
  | _ => None
  end.

(** The image of what the object [o] holds under the key [k], where
    [rec] gives the image of an object that a data property holds. *)
Definition image (rec : loc -> option json) (vs : list value) (o : object)
    (k : string) : option json :=
  match props_get k (oprops o) with
  | Some (PData (VRef c)) => rec c
  | Some (PData v) => json_of_leaf v
  | Some (PGet g) => field_json vs g
  | None => None
  end.

(** The image of the object at [l], with those of the objects that its
    data properties hold down to the depth [n], and those of what its
    direct getters read. *)
Fixpoint render (h : list object) (vs : list value) (n : nat) (l : loc)
  : option json :=
  match n with
  | O => None
  | S n' =>
      match h !! l with
      | Some o =>
          match okind o with
          | KObject =>
              Some (JObj (omap (fun k => option_map (pair k)
                                           (image (render h vs n') vs o k))
                            (own_keys (oprops o))))
          | KArray len =>
              Some (JArr (map (fun k => default JNull
                                          (image (render h vs n') vs o k))
                            (indices len)))
          | KFunction _ => None
          end
      | None => None
      end
  end.

(** The objects of [stack] are nodes above the path [q]. *)
Definition above (C : list string) (h : list object) (q : list string)
    (stack : list loc) : Prop :=
  forall l, l ∈ stack ->
    exists q', node C q' /\ descend h this q' = Some l
               /\ length q' < length q.

(** * Properties *)

Section Properties.

Variable call : fid -> value -> list object -> value * list object.


(** ** Own properties *)

Lemma props_get_set_eq k p ps : props_get k (props_set k p ps) = Some p.
Proof.
  induction ps as [|[k' p'] ps IH]; simpl.
  - now rewrite String.eqb_refl.
  - destruct (String.eqb k k') eqn:E; simpl; rewrite ?String.eqb_refl, ?E; auto.
Qed.

Lemma props_get_set_ne k k' p ps :
  k <> k' -> props_get k' (props_set k p ps) = props_get k' ps.
Proof.
  intros Hne. induction ps as [|[k0 p0] ps IH]; simpl.
  - destruct (String.eqb_spec k' k); congruence.
  - destruct (String.eqb_spec k k0); simpl.
    + subst k0. destruct (String.eqb_spec k' k); congruence.
    + destruct (String.eqb_spec k' k0); auto.
Qed.

(** ** Getters only allocate and fill the cache *)

Lemma extends_refl st : extends st st.
Proof.
  exists (cached st), []. rewrite app_nil_r. now destruct st.
Qed.

Lemma extends_trans st1 st2 st3 :
  extends st1 st2 -> extends st2 st3 -> extends st1 st3.
Proof.
  intros (c & n & ->) (c' & n' & ->). simpl.
  exists c', (n ++ n')%list. now rewrite app_assoc.
Qed.

Lemma extends_lookup st st' l o :
  extends st st' -> heap st !! l = Some o -> heap st' !! l = Some o.
Proof.
  intros (c & n & ->) H. simpl. now apply lookup_app_l_Some.
Qed.

Lemma apply_ok f arg st :
  exists v st', apply call f arg st = Ok v st' /\ extends st st'.
Proof.
  unfold apply. destruct (call f arg (heap st)) as [v new].
  exists v, (set_heap (heap st ++ new) st). split; auto.
  exists (cached st), new. reflexivity.
Qed.

Lemma alloc_ok o st :
  alloc o st = Ok (VRef (length (heap st))) (set_heap (heap st ++ [o]) st).
Proof. reflexivity. Qed.

Lemma run_grows c st :
  exists v new, run call c st = Ok v (set_heap (heap st ++ new) st).
Proof.
  destruct c as [i f|s e f]; unfold run, bind, gets, apply.
  - destruct (call f (index_value (values st) i) (heap st)) as [v new].
    eauto.
  - rewrite alloc_ok. simpl.
    destruct (call f _ _) as [v new].
    exists v, ([array_of (slice (values st) s e)] ++ new)%list.
    unfold set_heap. simpl. now rewrite <- app_assoc.
Qed.

Lemma run_ok c st :
  exists v st', run call c st = Ok v st' /\ extends st st'.
Proof.
  destruct (run_grows c st) as (v & new & ->).
  exists v, (set_heap (heap st ++ new) st). split; auto.
  exists (cached st), new. reflexivity.
Qed.

Lemma invoke_ok g st :
  exists v st', invoke call g st = Ok v st' /\ extends st st'.
Proof.
  destruct g as [f ev|i|c key|s e]; simpl.
  - apply apply_ok.
  - unfold bind, gets, ret. eauto using extends_refl.
  - unfold _cachedValue, bind, gets.
    destruct (cached_get key (cached st)) as [v|].
    + exists v, st. split; auto using extends_refl.
    + destruct (run_ok c st) as (v & st' & -> & Hext).
      unfold modify, ret. eexists _, _. split; [reflexivity|].
      destruct Hext as (c' & n & ->). simpl. eexists _, n. reflexivity.
  - unfold bind, gets. rewrite alloc_ok. eexists _, _. split; [reflexivity|].
    eexists _, _. reflexivity.
Qed.

(** A read of an object returns, adding at most objects and cache
    entries, or leaves the model where it stands. *)
Lemma Get_ref_ok l k st :
  Get call (VRef l) k st = Beyond st
  \/ exists v st', Get call (VRef l) k st = Ok v st' /\ extends st st'.
Proof.
  unfold Get, bind, gets.
  destruct (heap st !! l) as [o|];
    [|right; unfold ret; eauto using extends_refl].
  destruct (props_get k (oprops o)) as [[v|g]|].
  - right. unfold ret; eauto using extends_refl.
  - right. apply invoke_ok.
  - destruct (is_array (okind o) && String.eqb k "length");
      [right; unfold ret; eauto using extends_refl|].
    destruct (given l o k); [now left|].
    right. unfold ret; eauto using extends_refl.
Qed.

Lemma top_spec k :
  Js.top k = true -> k <> "i" /\ Js.builtin Js.HInstance k = false.
Proof.
  unfold Js.top. intros H. apply andb_true_iff in H as [H1 H2].
  apply negb_true_iff in H1, H2. split; auto.
  now apply String.eqb_neq.
Qed.

Lemma plain_spec k :
  Js.plain k = true ->
  k <> "length" /\ Js.builtin Js.HObject k = false
  /\ Js.builtin Js.HArray k = false.
Proof.
  unfold Js.plain. intros H. apply andb_true_iff in H as [H H3].
  apply andb_true_iff in H as [H1 H2].
  apply negb_true_iff in H1, H2, H3. repeat split; auto.
  now apply String.eqb_neq.
Qed.

Lemma bag_ne l k : k <> "i" -> bag l k = false.
Proof.
  intros H. unfold bag. apply String.eqb_neq in H. rewrite H.
  apply andb_false_r.
Qed.

Lemma bag_not_this l k : l <> this -> bag l k = false.
Proof.
  intros H. unfold bag. apply Nat.eqb_neq in H. now rewrite H.
Qed.

(** On the instance, a first segment is not given. *)
Lemma given_top o k : Js.top k = true -> given this o k = false.
Proof.
  intros H. apply top_spec in H as [H1 H2]. unfold given.
  rewrite (bag_ne _ _ H1). unfold holder_of. simpl. exact H2.
Qed.

(** On a container that is not the instance, a later segment is not
    given. *)
Lemma given_plain l o k :
  l <> this -> container o -> Js.plain k = true -> given l o k = false.
Proof.
  intros Hl Hc H. apply plain_spec in H as (_ & H2 & H3). unfold given.
  rewrite (bag_not_this _ _ Hl). unfold holder_of.
  apply Nat.eqb_neq in Hl. rewrite Hl. simpl.
  unfold container in Hc. destruct (okind o); auto. contradiction.
Qed.

(** Reading a first segment on the instance returns. *)
Lemma Get_top st o k :
  heap st !! this = Some o -> Js.top k = true ->
  exists v st', Get call (VRef this) k st = Ok v st' /\ extends st st'.
Proof.
  intros Hthis Hk. destruct (Get_ref_ok this k st) as [H|H]; auto.
  exfalso. unfold Get, bind, gets in H. rewrite Hthis in H.
  destruct (props_get k (oprops o)) as [[v|g]|].
  - discriminate.
  - destruct (invoke_ok g st) as (v & st' & E & _). congruence.
  - rewrite (given_top o k Hk) in H.
    destruct (is_array (okind o) && String.eqb k "length"); discriminate.
Qed.

Lemma Get_own_getter st l o k g :
  heap st !! l = Some o -> props_get k (oprops o) = Some (PGet g) ->
  Get call (VRef l) k st = invoke call g st.
Proof.
  intros Hl Hk. unfold Get, bind, gets. now rewrite Hl, Hk.
Qed.

Lemma index_value_spec vs i :
  index_value vs i =
    if ((0 <=? i) && (i <? Z.of_nat (length vs)))%Z
    then nth (Z.to_nat i) vs VUndef else VUndef.
Proof.
  unfold index_value.
  destruct (Z.ltb_spec i 0); destruct (Z.leb_spec 0 i); try lia; simpl; auto.
  destruct (Z.ltb_spec i (Z.of_nat (length vs))).
  - destruct (vs !! Z.to_nat i) eqn:E.
    + simpl. symmetry. apply nth_lookup_Some with (d := VUndef) in E. auto.
    + apply lookup_ge_None in E. lia.
  - rewrite (proj2 (lookup_ge_None vs (Z.to_nat i))); auto. lia.
Qed.

(** Declaring one top-level field installs the getter of its range on the
    instance, and touches nothing but the registry, the cache and the
    store. *)
Lemma add_top_level_field st name r :
  instance st -> Js.includes "." name = false -> Js.top name = true ->
  exists ev st' ps,
    addStructure call [(name, r)] st = Ok tt st'
    /\ values st' = values st
    /\ unused st' = unused st
    /\ heap st' !! this = Some (Object KObject ps)
    /\ props_get name ps = Some (PGet (_convertRangeToGetter r ev)).
Proof.
  intros [ps Hthis] Hname Htop.
  unfold addStructure, sort_entries. simpl.
  unfold add_field, bind at 1. rewrite Hname.
  unfold bind at 1. unfold modify at 1.
  unfold bind at 1. unfold bind at 1. unfold ret at 1.
  set (st1 := set_fields _ st). simpl key_of.
  destruct (Get_top st1 _ name Hthis Htop) as (ev & st2 & -> & Hext).
  assert (H2 : heap st2 !! this = Some (Object KObject ps))
    by (eapply extends_lookup; eauto).
  unfold DefineGetter, bind, gets. rewrite H2. simpl.
  destruct (top_spec _ Htop) as [Hi _]. rewrite (bag_ne this name Hi). simpl.
  unfold store, modify, ret. simpl.
  exists ev. eexists _, _. split; [reflexivity|].
  destruct Hext as (c & n & ->). simpl. repeat split.
  - rewrite list_lookup_insert_eq; [reflexivity|].
    apply lookup_lt_Some in H2. exact H2.
  - apply props_get_set_eq.
Qed.

(** ** Reading fields *)

(** C2.  [setValues] replaces the value sequence and clears the cache;
    the registry, the unused set and the store (hence every installed
    accessor) are unchanged; and every index or slice accessor, wherever
    it is installed, reads the new sequence right after the call. *)
Theorem setValues_frame st vs :
  let st' := set_cached [] (set_values vs st) in
  setValues vs st = Ok tt st'
  /\ values st' = vs /\ cached st' = []
  /\ fields st' = fields st /\ unused st' = unused st /\ heap st' = heap st
  /\ (forall l o k i,
        heap st !! l = Some o ->
        props_get k (oprops o) = Some (PGet (GIndex i)) ->
        Get call (VRef l) k st' = Ok (index_value vs i) st')
  /\ (forall l o k s e,
        heap st !! l = Some o ->
        props_get k (oprops o) = Some (PGet (GSlice s e)) ->
        Get call (VRef l) k st' =
          Ok (VRef (length (heap st)))
             (set_heap (heap st ++ [array_of (slice vs s e)]) st')).
Proof.
  cbv zeta. repeat split.
  - intros l o k i Hl Hk.
    now rewrite (Get_own_getter _ l o k (GIndex i)).
  - intros l o k s e Hl Hk.
    now rewrite (Get_own_getter _ l o k (GSlice s e)).
Qed.

Lemma cached_get_set k v c : cached_get k (cached_set k v c) = Some v.
Proof.
  induction c as [|[k' v'] c IH]; simpl.
  - now rewrite Nat.eqb_refl.
  - destruct (Nat.eqb k k') eqn:E; simpl; rewrite ?Nat.eqb_refl, ?E; auto.
Qed.


(** ** Properties kept by the methods *)

Lemma preserves_ret {A} P (a : A) : preserves P (ret a).
Proof. now intros st H. Qed.

Lemma preserves_throw {A} P e : preserves P (@throw A e).
Proof. now intros st H. Qed.

Lemma preserves_beyond {A} P : preserves P (@beyond A).
Proof. now intros st H. Qed.

Lemma preserves_gets {A} P (f : state -> A) : preserves P (gets f).
Proof. now intros st H. Qed.

Lemma preserves_modify P f :
  (forall st, P st -> P (f st)) -> preserves P (modify f).
Proof. intros Hf st H. now apply Hf. Qed.

Lemma preserves_bind {A B} P (m : M A) (k : A -> M B) :
  preserves P m -> (forall a, preserves P (k a)) -> preserves P (bind m k).
Proof.
  intros Hm Hk st H. unfold bind. specialize (Hm st H).
  destruct (m st) as [a st'|e st'|st']; simpl in *; auto.
  now apply Hk.
Qed.

Lemma preserves_for_each {A} P (body : A -> M unit) l :
  (forall x, x ∈ l -> preserves P (body x)) -> preserves P (for_each body l).
Proof.
  induction l as [|x l IH]; intros Hb; simpl.
  - apply preserves_ret.
  - apply preserves_bind.
    + apply Hb. left.
    + intros _. apply IH. intros y Hy. apply Hb. now right.
Qed.

Lemma preserves_map_m {A B} P (f : A -> M B) l :
  (forall x, preserves P (f x)) -> preserves P (map_m f l).
Proof.
  intros Hf. induction l as [|x l IH]; simpl.
  - apply preserves_ret.
  - apply preserves_bind; [apply Hf|]. intros y.
    apply preserves_bind; [apply IH|]. intros ys. apply preserves_ret.
Qed.

Section Registry.

Variable P : state -> Prop.
Hypothesis P_registry : registry_only P.

Lemma preserves_set_heap : forall h st, P st -> P (set_heap h st).
Proof. intros h st. now apply P_registry. Qed.

Lemma preserves_set_cached : forall c st, P st -> P (set_cached c st).
Proof. intros c st. now apply P_registry. Qed.

Lemma preserves_set_values : forall vs st, P st -> P (set_values vs st).
Proof. intros vs st. now apply P_registry. Qed.

Lemma preserves_apply f arg : preserves P (apply call f arg).
Proof.
  intros st H. unfold apply. destruct (call f arg (heap st)) as [v new].
  simpl. now apply preserves_set_heap.
Qed.

Lemma preserves_alloc o : preserves P (alloc o).
Proof. intros st H. simpl. now apply preserves_set_heap. Qed.

Lemma preserves_store l o : preserves P (store l o).
Proof. apply preserves_modify. intros st. apply preserves_set_heap. Qed.

Lemma preserves_run c : preserves P (run call c).
Proof.
  destruct c; simpl; repeat (apply preserves_bind; intros);
    auto using preserves_gets, preserves_apply, preserves_alloc.
Qed.

Lemma preserves_invoke g : preserves P (invoke call g).
Proof.
  destruct g; simpl; unfold _cachedValue;
    repeat (apply preserves_bind; intros);
    auto using preserves_gets, preserves_apply, preserves_alloc,
      preserves_ret, preserves_run.
  destruct (cached_get cacheKey a); [apply preserves_ret|].
  repeat (apply preserves_bind; intros);
    auto using preserves_run, preserves_ret.
  apply preserves_modify. intros st. apply preserves_set_cached.
Qed.

Lemma preserves_Get base k : preserves P (Get call base k).
Proof.
  destruct base as [| |b|n| |neg|s|l]; simpl;
    auto using preserves_throw.
  - destruct (Js.builtin Js.HBoolean k);
      auto using preserves_ret, preserves_beyond.
  - destruct (Js.builtin Js.HNumber k);
      auto using preserves_ret, preserves_beyond.
  - destruct (Js.builtin Js.HNumber k);
      auto using preserves_ret, preserves_beyond.
  - destruct (Js.builtin Js.HNumber k);
      auto using preserves_ret, preserves_beyond.
  - destruct (string_get s k);
      [|destruct (Js.builtin Js.HString k)];
      auto using preserves_ret, preserves_beyond.
  - apply preserves_bind; [apply preserves_gets|]. intros h.
    destruct (h !! l) as [o|]; [|apply preserves_ret].
    destruct (props_get k (oprops o)) as [[v|g]|];
      auto using preserves_ret, preserves_invoke.
    destruct (is_array (okind o) && String.eqb k "length");
      [apply preserves_ret|].
    destruct (given l o k); auto using preserves_ret, preserves_beyond.
Qed.

Lemma preserves_Put base k v : preserves P (Put base k v).
Proof.
  destruct base; simpl; auto using preserves_throw.
  apply preserves_bind; [apply preserves_gets|]. intros h.
  destruct (h !! l) as [o|]; [|apply preserves_ret].
  destruct (props_get k (oprops o)) as [[v'|g]|];
    auto using preserves_throw;
    match goal with |- context [if ?b then _ else _] => destruct b end;
    auto using preserves_beyond, preserves_store.
Qed.

Lemma preserves_DefineGetter base k g : preserves P (DefineGetter base k g).
Proof.
  destruct base; simpl; auto using preserves_throw.
  apply preserves_bind; [apply preserves_gets|]. intros h.
  destruct (h !! l) as [o|]; [|apply preserves_ret].
  destruct (is_array (okind o) && String.eqb k "length");
    auto using preserves_throw.
  destruct (bag l k || native_own o k);
    auto using preserves_beyond, preserves_store.
Qed.

Lemma preserves_Delete base k : preserves P (Delete base k).
Proof.
  destruct base; simpl; auto using preserves_throw, preserves_ret.
  - destruct (string_get s k); auto using preserves_throw, preserves_ret.
  - apply preserves_bind; [apply preserves_gets|]. intros h.
    destruct (h !! l) as [o|]; [|apply preserves_ret].
    destruct (is_array (okind o) && String.eqb k "length");
      auto using preserves_throw.
    destruct (bag l k || native_own o k);
      auto using preserves_beyond, preserves_store.
Qed.

Lemma preserves_walk lastKey path keys obj :
  preserves P (walk call lastKey path keys obj).
Proof.
  revert obj. induction keys as [|field keys IH]; intros obj; simpl.
  - apply preserves_ret.
  - apply preserves_bind; [apply preserves_Get|]. intros v.
    destruct (falsy v); [apply preserves_throw|].
    apply preserves_bind; [apply preserves_Get|]. intros obj'. apply IH.
Qed.

Lemma preserves_getCursor path0 : preserves P (_getCursorToEndOfPath call path0).
Proof.
  unfold _getCursorToEndOfPath. destruct (pop path0) as [lastKey path].
  apply preserves_bind; [apply preserves_walk|]. intros obj.
  apply preserves_ret.
Qed.

Lemma preserves_setValues vs : preserves P (setValues vs).
Proof.
  unfold setValues. apply preserves_bind; [|intros _];
    apply preserves_modify; intros st;
    [apply preserves_set_values|apply preserves_set_cached].
Qed.

(** What a property needs, besides, to be kept by the methods that write
    the registry and the unused set. *)
Definition kept_by_unmark : Prop :=
  forall x st, P st -> P (set_unused (unused_delete x (unused st)) st).

Lemma preserves_ensure path nums keys obj index rebuilt :
  kept_by_unmark ->
  preserves P (ensure call path nums keys obj index rebuilt).
Proof.
  intros Hdel.
  revert obj index rebuilt.
  induction keys as [|key keys IH]; intros obj index rebuilt; simpl.
  - apply preserves_ret.
  - apply preserves_bind; [apply preserves_Get|]. intros v.
    apply preserves_bind.
    { destruct (is_undefined v); [|apply preserves_ret].
      apply preserves_bind; [apply preserves_alloc|]. intros c.
      apply preserves_Put. }
    intros _. apply preserves_bind; [apply preserves_Get|]. intros obj'.
    apply preserves_bind; [|intros _; apply IH].
    apply preserves_modify. intros st Hst.
    destruct (unused_has _ _); auto.
Qed.

End Registry.

(** ** The unused set across resets *)

Lemma elem_of_unused_delete x y s : y ∈ unused_delete x s -> y ∈ s.
Proof. unfold unused_delete. rewrite list_elem_of_filter. tauto. Qed.

Lemma elem_of_unused_add x y s : y ∈ unused_add x s -> y = x \/ y ∈ s.
Proof.
  unfold unused_add. destruct (unused_has x s); auto.
  rewrite elem_of_app, list_elem_of_singleton. tauto.
Qed.

Lemma elem_of_fields_add x y s : y ∈ fields_add x s -> y = x \/ y ∈ s.
Proof.
  unfold fields_add. destruct (existsb _ s); auto.
  rewrite elem_of_app, list_elem_of_singleton. tauto.
Qed.

Lemma preserves_ensurePathStructure P path0 :
  registry_only P -> kept_by_unmark P ->
  preserves P (_ensurePathStructure call path0).
Proof.
  intros HP Hdel. unfold _ensurePathStructure.
  destruct (pop path0) as [lastKey path].
  apply preserves_bind; [now apply preserves_ensure|]. intros obj.
  apply preserves_ret.
Qed.

Lemma elem_of_insert_entry x y l : y ∈ insert_entry x l -> y = x \/ y ∈ l.
Proof.
  induction l as [|z l IH]; simpl.
  - rewrite list_elem_of_singleton. tauto.
  - destruct (Js.gt z.1 x.1).
    + rewrite !elem_of_cons. intros [->|H]; auto. apply IH in H. tauto.
    + rewrite !elem_of_cons. tauto.
Qed.

Lemma elem_of_sort_entries y l : y ∈ sort_entries l -> y ∈ l.
Proof.
  unfold sort_entries. induction l as [|x l IH]; simpl; auto.
  intros H. apply elem_of_insert_entry in H as [->|H].
  - left.
  - right. auto.
Qed.

Lemma props_get_delete_ne k k' ps :
  k <> k' -> props_get k' (props_delete k ps) = props_get k' ps.
Proof.
  intros Hne. induction ps as [|[k0 p0] ps IH]; simpl; auto.
  destruct (String.eqb_spec k k0); simpl.
  - subst k0. destruct (String.eqb_spec k' k); congruence.
  - destruct (String.eqb_spec k' k0); auto.
Qed.

Lemma props_get_delete_eq k ps : props_get k (props_delete k ps) = None.
Proof.
  induction ps as [|[k0 p0] ps IH]; simpl; auto.
  destruct (String.eqb k k0) eqn:E; simpl; auto. now rewrite E.
Qed.

(** ** What a reset tracks *)

Lemma elem_of_unused_add_iff x y s : y ∈ unused_add x s <-> y = x \/ y ∈ s.
Proof.
  split; [apply elem_of_unused_add|].
  unfold unused_add. destruct (unused_has x s) eqn:E.
  - intros [->|H]; auto. unfold unused_has in E.
    apply existsb_exists in E as (z & Hz & Hm).
    destruct x as [a|], z as [b|]; try discriminate.
    simpl in Hm. apply String.eqb_eq in Hm. subst.
    now apply list_elem_of_In.
  - rewrite elem_of_app, list_elem_of_singleton. tauto.
Qed.

Lemma unused_registry U : registry_only (fun s => unused s = U).
Proof. intros st st' _ E H. congruence. Qed.

(** A field that is reset marks the path of its parent, if it has one. *)
Lemma reset_field_unused f st st' :
  reset_field call f st = Ok tt st' ->
  unused st'
  = if Js.includes "." f
    then unused_add (MString (marker_of f)) (unused st)
    else unused st.
Proof.
  unfold reset_field. destruct (Js.includes "." f).
  - unfold bind at 1. unfold _getCursorToEndOfPath, pop. unfold bind at 1.
    destruct (walk call (last (Js.split "." f)) (removelast (Js.split "." f))
                (removelast (Js.split "." f)) (VRef this) st)
      as [obj s1| |] eqn:Ew; [|discriminate..].
    assert (H1 : unused s1 = unused st).
    { pose proof (preserves_walk (fun s => unused s = unused st)
                    (unused_registry _) (last (Js.split "." f))
                    (removelast (Js.split "." f))
                    (removelast (Js.split "." f)) (VRef this) st eq_refl)
        as H.
      rewrite Ew in H. exact H. }
    unfold ret at 1. unfold bind at 1. unfold modify at 1.
    simpl cobj. simpl ckey. simpl cpath. intros H.
    match type of H with
    | Delete ?b ?k ?s = _ =>
        pose proof (preserves_Delete (fun s' => unused s' = unused s)
                      (unused_registry _) b k s eq_refl) as H2
    end.
    rewrite H in H2. simpl in H2. rewrite H2, H1. reflexivity.
  - intros H.
    pose proof (preserves_Delete (fun s' => unused s' = unused st)
                  (unused_registry _) (VRef this) f st eq_refl) as H2.
    rewrite H in H2. exact H2.
Qed.

Lemma reset_fields_unused fs :
  forall st st',
    for_each (reset_field call) fs st = Ok tt st' ->
    forall m,
      m ∈ unused st'
      <-> m ∈ unused st
          \/ exists f, f ∈ fs /\ Js.includes "." f = true
                       /\ m = MString (marker_of f).
Proof.
  induction fs as [|f fs IH]; intros st st'; simpl.
  - unfold ret. intros [= <-] m. split; auto.
    intros [H|(f & Hf & _)]; auto. now apply elem_of_nil in Hf.
  - unfold bind at 1.
    destruct (reset_field call f st) as [[] s1| |] eqn:E; [|discriminate..].
    intros H m. rewrite (IH _ _ H m), (reset_field_unused _ _ _ E).
    destruct (Js.includes "." f) eqn:Hinc.
    + rewrite elem_of_unused_add_iff. split.
      * intros [[->|H1]|(g & Hg & Hi & Hm)]; auto.
        -- right. exists f. split; [left|auto].
        -- right. exists g. split; [now right|auto].
      * intros [H1|(g & Hg & Hi & Hm)]; auto.
        apply elem_of_cons in Hg as [->|Hg]; [left; now left|].
        right. eauto.
    + split.
      * intros [H1|(g & Hg & Hi & Hm)]; auto.
        right. exists g. split; [now right|auto].
      * intros [H1|(g & Hg & Hi & Hm)]; auto.
        apply elem_of_cons in Hg as [->|Hg]; [congruence|]. right; eauto.
Qed.

(** The loop of [removeUnusedStructure] on markers that are strings:
    it returns, writes the instance only, and deletes from it the marked
    keys and nothing else. *)
Lemma remove_unused_run us :
  forall st ps,
    (forall p, MArray p ∉ us) -> MString "i" ∉ us ->
    heap st !! this = Some (Object KObject ps) ->
    exists ps',
      for_each (remove_unused call) us st
        = Ok tt (set_heap (<[this := Object KObject ps']> (heap st)) st)
      /\ (forall k, MString k ∈ us -> props_get k ps' = None)
      /\ (forall k, MString k ∉ us -> props_get k ps' = props_get k ps)
      /\ (forall k, props_get k ps = None -> props_get k ps' = None).
Proof.
  induction us as [|m us IH]; intros st ps Harr Hi Hthis.
  - exists ps. simpl. unfold ret.
    rewrite list_insert_id by exact Hthis. repeat split; auto.
    + now destruct st.
    + intros k Hk. now apply elem_of_nil in Hk.
  - destruct m as [s|p]; [|exfalso; apply (Harr p); left].
    assert (Hs : s <> "i") by (intros ->; apply Hi; left).
    simpl. unfold bind at 1. unfold Delete, bind, gets.
    rewrite Hthis. rewrite (bag_ne _ _ Hs). simpl. unfold store, modify.
    set (st1 := set_heap _ st).
    assert (H1 : heap st1 !! this = Some (Object KObject (props_delete s ps))).
    { simpl. rewrite list_lookup_insert_eq; auto.
      apply lookup_lt_Some in Hthis. exact Hthis. }
    assert (Harr' : forall p, MArray p ∉ us)
      by (intros p Hp; apply (Harr p); now right).
    assert (Hi' : MString "i" ∉ us) by (intros H; apply Hi; now right).
    destruct (IH st1 _ Harr' Hi' H1) as (ps' & -> & Hdel & Hkeep & Hnone).
    exists ps'. split; [|split; [|split]].
    + simpl. now rewrite list_insert_insert_eq.
    + intros k Hk. apply elem_of_cons in Hk as [[= ->]|Hk]; auto.
      apply Hnone, props_get_delete_eq.
    + intros k Hk. rewrite Hkeep.
      * apply props_get_delete_ne. intros ->. apply Hk. left.
      * intros H. apply Hk. now right.
    + intros k Hk. apply Hnone.
      destruct (String.eqb_spec s k) as [->|Hne].
      * apply props_get_delete_eq.
      * now rewrite props_get_delete_ne.
Qed.

(** C10 (as amended).  [resetStructure] empties the unused set before it
    records the parent paths of the fields it removes.  So, when it
    returns, the unused set holds the parent paths of the nested fields
    that were registered, and nothing else: whatever an earlier reset had
    marked is no longer tracked, unless it is such a parent path.  A
    [removeUnusedStructure] that follows returns, writes the instance
    only, and deletes from it the keys that are marked and no other. *)
Theorem reset_tracks_registered_parents st st1 :
  resetStructure call st = Ok tt st1 ->
  (forall m,
     m ∈ unused st1
     <-> exists f, f ∈ fields st /\ Js.includes "." f = true
                   /\ m = MString (marker_of f))
  /\ forall ps1,
       heap st1 !! this = Some (Object KObject ps1) ->
       MString "i" ∉ unused st1 ->
       exists st2 ps2,
         removeUnusedStructure call st1 = Ok tt st2
         /\ unused st2 = []
         /\ heap st2 = <[this := Object KObject ps2]> (heap st1)
         /\ (forall k, MString k ∈ unused st1 -> props_get k ps2 = None)
         /\ (forall k, MString k ∉ unused st1 ->
               props_get k ps2 = props_get k ps1).
Proof.
  unfold resetStructure.
  unfold bind at 1. unfold modify at 1.
  unfold bind at 1. unfold modify at 1.
  unfold bind at 1. unfold gets at 1. simpl fields.
  unfold bind at 1.
  destruct (for_each (reset_field call) (fields st)
              (set_cached [] (set_unused [] st))) as [[] s1| |] eqn:E;
    [|discriminate..].
  unfold modify. intros [= <-].
  assert (Htrack : forall m,
            m ∈ unused s1
            <-> exists f, f ∈ fields st /\ Js.includes "." f = true
                          /\ m = MString (marker_of f)).
  { intros m. rewrite (reset_fields_unused _ _ _ E m). simpl.
    rewrite elem_of_nil. tauto. }
  split; [exact Htrack|]. simpl. intros ps1 Hthis Hi.
  destruct (remove_unused_run (unused s1) (set_fields [] s1) ps1)
    as (ps2 & Hrun & Hdel & Hkeep & _); auto.
  { intros p Hp. apply Htrack in Hp as (f & _ & _ & Hm). discriminate. }
  eexists _, ps2. unfold removeUnusedStructure, bind, gets. simpl unused.
  rewrite Hrun. unfold modify. repeat split; auto.
Qed.

(** ** Path resolution failures *)

Lemma raises_ret {A} Q (a : A) : raises Q (ret a).
Proof. intros st e st' H. discriminate. Qed.

Lemma raises_gets {A} Q (f : state -> A) : raises Q (gets f).
Proof. intros st e st' H. discriminate. Qed.

Lemma raises_modify Q f : raises Q (modify f).
Proof. intros st e st' H. discriminate. Qed.

Lemma raises_beyond {A} Q : raises Q (@beyond A).
Proof. intros st e st' H. discriminate. Qed.

Lemma raises_throw {A} (Q : error -> Prop) e : Q e -> raises Q (@throw A e).
Proof. intros He st e' st' H. now injection H as <- _. Qed.

Lemma raises_bind {A B} Q (m : M A) (k : A -> M B) :
  raises Q m -> (forall a, raises Q (k a)) -> raises Q (bind m k).
Proof.
  intros Hm Hk st e st'. unfold bind.
  destruct (m st) as [a st1|e1 st1|st1] eqn:E.
  - apply Hk.
  - intros H. injection H as <- _. eapply Hm; eauto.
  - discriminate.
Qed.

Lemma raises_for_each {A} Q (body : A -> M unit) l :
  (forall x, raises Q (body x)) -> raises Q (for_each body l).
Proof.
  intros Hb. induction l as [|x l IH]; simpl.
  - apply raises_ret.
  - apply raises_bind; auto.
Qed.

Lemma raises_invoke Q g : raises Q (invoke call g).
Proof.
  intros st e st' H.
  destruct (invoke_ok g st) as (v & st1 & E & _). congruence.
Qed.

Lemma raises_Get base k : raises native (Get call base k).
Proof.
  destruct base as [| |b|n| |neg|s|l]; simpl.
  - apply raises_throw; now left.
  - apply raises_throw; now left.
  - destruct (Js.builtin Js.HBoolean k);
      [apply raises_beyond|apply raises_ret].
  - destruct (Js.builtin Js.HNumber k);
      [apply raises_beyond|apply raises_ret].
  - destruct (Js.builtin Js.HNumber k);
      [apply raises_beyond|apply raises_ret].
  - destruct (Js.builtin Js.HNumber k);
      [apply raises_beyond|apply raises_ret].
  - destruct (string_get s k); [apply raises_ret|].
    destruct (Js.builtin Js.HString k);
      [apply raises_beyond|apply raises_ret].
  - intros st e st' H.
    destruct (Get_ref_ok l k st) as [E|(v & st1 & E & _)];
      unfold Get in E; congruence.
Qed.

Lemma raises_store Q l o : raises Q (store l o).
Proof. apply raises_modify. Qed.

Lemma raises_Put base k v : raises native (Put base k v).
Proof.
  destruct base; simpl; try (apply raises_throw; now left).
  apply raises_bind; [apply raises_gets|]. intros h.
  destruct (h !! l) as [o|]; [|apply raises_ret].
  destruct (props_get k (oprops o)) as [[v'|g]|];
    try (apply raises_throw; now left);
    match goal with |- context [if ?b then _ else _] => destruct b end;
    try apply raises_store; apply raises_beyond.
Qed.

Lemma raises_DefineGetter base k g : raises native (DefineGetter base k g).
Proof.
  destruct base; simpl; try (apply raises_throw; now left).
  apply raises_bind; [apply raises_gets|]. intros h.
  destruct (h !! l) as [o|]; [|apply raises_ret].
  destruct (is_array (okind o) && String.eqb k "length");
    [apply raises_throw; now left|].
  destruct (bag l k || native_own o k);
    [apply raises_beyond|apply raises_store].
Qed.

Lemma raises_ensure path nums keys obj index rebuilt :
  raises native (ensure call path nums keys obj index rebuilt).
Proof.
  revert obj index rebuilt.
  induction keys as [|key keys IH]; intros obj index rebuilt; simpl.
  - apply raises_ret.
  - apply raises_bind; [apply raises_Get|]. intros v.
    apply raises_bind.
    { destruct (is_undefined v); [|apply raises_ret].
      apply raises_bind; [|intros c; apply raises_Put].
      intros st e st' H. discriminate. }
    intros _. apply raises_bind; [apply raises_Get|]. intros obj'.
    apply raises_bind; [apply raises_modify|]. intros _. apply IH.
Qed.

(** [addStructure] never raises an [OdoError]. *)
Lemma raises_addStructure structure :
  raises native (addStructure call structure).
Proof.
  unfold addStructure. apply raises_for_each. intros [fieldName r].
  unfold add_field.
  apply raises_bind; [apply raises_modify|]. intros _.
  apply raises_bind.
  { destruct (Js.includes "." fieldName); [|apply raises_ret].
    unfold _ensurePathStructure. destruct (pop _) as [lastKey path].
    apply raises_bind; [apply raises_ensure|]. intros; apply raises_ret. }
  intros [obj key]. apply raises_bind; [apply raises_Get|].
  intros ev. apply raises_DefineGetter.
Qed.

(** The loop of [_getCursorToEndOfPath] throws an [OdoError] exactly when,
    having walked some keys of the path, it reads a falsy value for the
    next one; the error carries the cursor reached and that key. *)
Lemma walk_fails_iff lastKey path keys obj st msg o k p field st' :
  walk call lastKey path keys obj st = Throw (OdoError msg o k p field) st'
  <-> exists pre post stk v,
        keys = (pre ++ field :: post)%list
        /\ walk call lastKey path pre obj st = Ok o stk
        /\ Get call o field stk = Ok v st'
        /\ falsy v = true
        /\ msg = misdefined field path /\ k = lastKey /\ p = path.
Proof.
  split.
  - revert obj st. induction keys as [|f0 keys IH]; intros obj st; simpl.
    + discriminate.
    + unfold bind at 1.
      destruct (Get call obj f0 st) as [v st1|e st1|st1] eqn:E1.
      2:{ intros H. injection H as -> _.
          destruct (raises_Get _ _ _ _ _ E1) as [|[|]]; discriminate. }
      2:{ discriminate. }
      destruct (falsy v) eqn:Ev.
      * intros H. injection H as <- <- <- <- <- <-.
        exists [], keys, st, v. simpl. repeat split; auto.
      * unfold bind at 1.
        destruct (Get call obj f0 st1) as [obj' st2|e st2|st2] eqn:E2.
        2:{ intros H. injection H as -> _.
            destruct (raises_Get _ _ _ _ _ E2) as [|[|]]; discriminate. }
        2:{ discriminate. }
        intros H. apply IH in H as (pre & post & stk & w & -> & Hw & Hg & Hf & Hm).
        exists (f0 :: pre), post, stk, w. simpl. repeat split; try tauto.
        unfold bind. now rewrite E1, Ev, E2.
  - intros (pre & post & stk & v & -> & Hw & Hg & Hf & -> & -> & ->).
    revert obj st Hw. induction pre as [|f0 pre IH]; intros obj st Hw; simpl in *.
    + injection Hw as <- <-. unfold bind. now rewrite Hg, Hf.
    + unfold bind in *.
      destruct (Get call obj f0 st) as [v0 st1|e st1|st1]; [|discriminate..].
      destruct (falsy v0); [discriminate|].
      destruct (Get call obj f0 st1) as [obj' st2|e st2|st2]; [|discriminate..].
      now apply IH.
Qed.

Lemma raises_walk lastKey path keys obj :
  raises (fun e => native e
                   \/ exists msg o field, e = OdoError msg o lastKey path field)
    (walk call lastKey path keys obj).
Proof.
  revert obj. induction keys as [|f0 keys IH]; intros obj; simpl.
  - apply raises_ret.
  - apply raises_bind.
    { intros st e st' H. left. eapply raises_Get; eauto. }
    intros v. destruct (falsy v).
    + apply raises_throw. right. eauto.
    + apply raises_bind; [|intros; apply IH].
      intros st e st' H. left. eapply raises_Get; eauto.
Qed.

Lemma for_each_app_throw {A} (body : A -> M unit) pre x post st st1 e st2 :
  for_each body pre st = Ok tt st1 -> body x st1 = Throw e st2 ->
  for_each body (pre ++ x :: post)%list st = Throw e st2.
Proof.
  revert st. induction pre as [|y pre IH]; intros st Hpre Hx; simpl in *.
  - injection Hpre as <-. unfold bind. now rewrite Hx.
  - unfold bind in *. destruct (body y st) as [[] st'| |]; [|discriminate..].
    now apply IH.
Qed.

(** C8 (as amended).  A path resolution failure ([OdoError]) is raised
    exactly when [_getCursorToEndOfPath], having walked some keys of the
    path, reads a falsy value for the next key; it carries the cursor
    reached (with the last key and the path) and the offending key.  It
    propagates to the caller of [resetStructure], and to the caller of
    [removeUnusedStructure] for a marker that is an array; [addStructure]
    never raises it: what it throws is an error of the language. *)
Theorem path_resolution_failure :
  (forall path0 st msg o k p field st',
     _getCursorToEndOfPath call path0 st
       = Throw (OdoError msg o k p field) st'
     <-> exists pre post stk v,
           removelast path0 = (pre ++ field :: post)%list
           /\ walk call (last path0) (removelast path0) pre (VRef this) st
              = Ok o stk
           /\ Get call o field stk = Ok v st'
           /\ falsy v = true
           /\ msg = misdefined field (removelast path0)
           /\ k = last path0 /\ p = removelast path0)
  /\ (forall st pre f post st1 e st2,
        fields st = (pre ++ f :: post)%list ->
        Js.includes "." f = true ->
        for_each (reset_field call) pre (set_cached [] (set_unused [] st))
          = Ok tt st1 ->
        _getCursorToEndOfPath call (Js.split "." f) st1 = Throw e st2 ->
        resetStructure call st = Throw e st2)
  /\ (forall st pre path0 post st1 e st2,
        unused st = (pre ++ MArray path0 :: post)%list ->
        for_each (remove_unused call) pre st = Ok tt st1 ->
        _getCursorToEndOfPath call path0 st1 = Throw e st2 ->
        removeUnusedStructure call st = Throw e st2)
  /\ (forall structure st e st',
        addStructure call structure st = Throw e st' -> native e).
Proof.
  repeat split.
  - unfold _getCursorToEndOfPath, pop, bind.
    destruct (walk _ _ _ _ _ st) as [obj st1|e st1|st1] eqn:E;
      [discriminate| |discriminate].
    intros H. injection H as -> ->. now apply walk_fails_iff.
  - intros H. apply walk_fails_iff in H.
    unfold _getCursorToEndOfPath, pop, bind. now rewrite H.
  - intros st pre f post st1 e st2 Hf Hpath Hpre Hc.
    unfold resetStructure, bind, modify, gets. simpl fields. rewrite Hf.
    rewrite (for_each_app_throw _ pre f post _ st1 e st2); auto.
    unfold reset_field. rewrite Hpath. unfold bind. now rewrite Hc.
  - intros st pre path0 post st1 e st2 Hu Hpre Hc.
    unfold removeUnusedStructure, bind, gets. rewrite Hu.
    rewrite (for_each_app_throw _ pre (MArray path0) post _ st1 e st2); auto.
    simpl. unfold bind. now rewrite Hc.
  - intros structure st e st' H. eapply raises_addStructure; eauto.
Qed.

(** ** The containers [_ensurePathStructure] creates *)

Lemma is_array_grow k kd : is_array (grow k kd) = is_array kd.
Proof.
  destruct kd; simpl; auto.
  destruct (Js.array_index k); auto. now destruct (len <=? n)%N.
Qed.

Lemma container_grow k kd ps ps' :
  container (Object kd ps) -> container (Object (grow k kd) ps').
Proof.
  unfold container. simpl. destruct kd; simpl; auto.
  destruct (Js.array_index k); auto. now destruct (len <=? n)%N.
Qed.

Lemma bounded_nil kd : bounded (Object kd []).
Proof. unfold bounded. simpl. destruct kd; auto. discriminate. Qed.

Lemma bounded_grow k p o :
  bounded o ->
  bounded (Object (grow k (okind o)) (props_set k p (oprops o))).
Proof.
  destruct o as [kd ps]. unfold bounded. simpl.
  destruct kd as [|len|f]; simpl; auto. intros Hb.
  assert (Hold : forall k' p' n',
            k <> k' -> props_get k' (props_set k p ps) = Some p' ->
            Js.array_index k' = Some n' -> (n' < len)%N).
  { intros k' p' n' Hne Hk'. rewrite props_get_set_ne in Hk' by auto. eauto. }
  destruct (Js.array_index k) as [n|] eqn:Ek.
  - destruct (N.leb_spec len n); intros k' p' n' Hk' Hn';
      (destruct (String.eqb_spec k k') as [<-|Hne];
       [rewrite Ek in Hn'; injection Hn' as <-; lia|]);
      specialize (Hold _ _ _ Hne Hk' Hn'); lia.
  - intros k' p' n' Hk' Hn'.
    destruct (String.eqb_spec k k') as [<-|Hne]; [congruence|eauto].
Qed.

Lemma isFinite_length : Js.isFinite "length" = false.
Proof. reflexivity. Qed.

Lemma not_array_length o k :
  (is_array (okind o) = true -> k <> "length") ->
  is_array (okind o) && String.eqb k "length" = false.
Proof.
  intros H. destruct (is_array (okind o)); auto.
  destruct (String.eqb_spec k "length"); auto. exfalso. now apply H.
Qed.

(** No member that the language gives to a value is a numeral. *)
Lemma builtin_not_finite h k :
  Js.builtin h k = true -> Js.isFinite k = false.
Proof.
  unfold Js.builtin. intros H. apply existsb_exists in H as (n & Hn & E).
  apply String.eqb_eq in E. subst n.
  assert (Hall : forallb (fun n => negb (Js.isFinite n)) (Js.members h) = true)
    by (destruct h; vm_compute; reflexivity).
  rewrite forallb_forall in Hall. apply Hall in Hn.
  now apply negb_true_iff in Hn.
Qed.

(** A key that the object lacks, own or given, reads [undefined]. *)
Lemma Get_absent st l o k :
  heap st !! l = Some o -> props_get k (oprops o) = None ->
  (is_array (okind o) = true -> k <> "length") ->
  given l o k = false ->
  Get call (VRef l) k st = Ok VUndef st.
Proof.
  intros Hl Hk Hlen Hg. unfold Get, bind, gets. rewrite Hl, Hk.
  now rewrite (not_array_length _ _ Hlen), Hg.
Qed.

Lemma Get_data st l o k v :
  heap st !! l = Some o -> props_get k (oprops o) = Some (PData v) ->
  Get call (VRef l) k st = Ok v st.
Proof. intros Hl Hk. unfold Get, bind, gets. now rewrite Hl, Hk. Qed.

Lemma Put_absent st l o k v :
  heap st !! l = Some o -> props_get k (oprops o) = None ->
  (is_array (okind o) = true -> k <> "length") ->
  given l o k = false ->
  Put (VRef l) k v st
  = Ok tt (set_heap (<[l := Object (grow k (okind o))
                             (props_set k (PData v) (oprops o))]> (heap st))
             st).
Proof.
  intros Hl Hk Hlen Hg. unfold Put, bind, gets. rewrite Hl, Hk.
  now rewrite (not_array_length _ _ Hlen), Hg.
Qed.

Lemma ensure_cons path nums key keys obj index rebuilt :
  ensure call path nums (key :: keys) obj index rebuilt
  = (v <- Get call obj key ;;
     (if is_undefined v then
        c <- alloc (if nth (index + 1) nums false then Object (KArray 0) []
                    else Object KObject []) ;;
        Put obj key c
      else ret tt) ;;;
     obj' <- Get call obj key ;;
     let rebuilt' :=
       (rebuilt ++ (if String.eqb rebuilt EmptyString then EmptyString else ".")
        ++ Js.join "," path)%string in
     modify (fun st =>
       if unused_has (MString rebuilt') (unused st)
       then set_unused (unused_delete (MString rebuilt') (unused st)) st
       else st) ;;;
     ensure call path nums keys obj' (index + 1) rebuilt').
Proof. reflexivity. Qed.

Section Fresh.

Variable path : list string.

Let nums := map Js.isFinite path.

(** The loop of [_ensurePathStructure], from an object that lacks the
    next key: one container is created for every key left, at the end of
    the store, each linked from the one before; the object gains the
    first key; nothing else changes, but for markers that may leave the
    unused set. *)
Lemma ensure_fresh keys :
  forall index l o rebuilt st,
    keys = drop index path ->
    heap st !! l = Some o ->
    match keys with
    | key :: _ =>
        props_get key (oprops o) = None
        /\ (is_array (okind o) = true -> key <> "length")
        /\ given l o key = false
    | [] => True
    end ->
    Forall (fun k => Js.builtin Js.HObject k = false) (tail keys) ->
    exists st',
      ensure call path nums keys (VRef l) index rebuilt st
      = Ok (VRef (match keys with
                  | [] => l
                  | _ => length (heap st) + length keys - 1
                  end)) st'
      /\ values st' = values st /\ fields st' = fields st
      /\ cached st' = cached st
      /\ (forall m, m ∈ unused st' -> m ∈ unused st)
      /\ length (heap st') = length (heap st) + length keys
      /\ (forall l0 o0, heap st !! l0 = Some o0 -> l0 <> l ->
            heap st' !! l0 = Some o0)
      /\ heap st' !! l
         = Some (match keys with
                 | [] => o
                 | key :: _ =>
                     Object (grow key (okind o))
                       (props_set key (PData (VRef (length (heap st))))
                          (oprops o))
                 end)
      /\ forall j, j < length keys ->
           exists kd,
             heap st' !! (length (heap st) + j)
             = Some (Object kd
                       match keys !! S j with
                       | Some k' => [(k', PData (VRef (length (heap st) + S j)))]
                       | None => []
                       end)
             /\ is_array kd = nth (index + j + 1) nums false
             /\ container (Object kd [])
             /\ bounded (Object kd
                           match keys !! S j with
                           | Some k' =>
                               [(k', PData (VRef (length (heap st) + S j)))]
                           | None => []
                           end).
Proof.
  induction keys as [|key keys IH];
    intros index l o rebuilt st Hkeys Hl Hfresh Hrest.
  - exists st. simpl. repeat apply conj; auto; try lia.
  - destruct Hfresh as (Hnone & Hlen & Hgiven). simpl in Hrest.
    set (c := length (heap st)).
    set (kd := if nth (index + 1) nums false then KArray 0 else KObject).
    set (st1 := set_heap (heap st ++ [Object kd []]) st).
    set (o1 := Object (grow key (okind o)) (props_set key (PData (VRef c)) (oprops o))).
    set (st2 := set_heap (<[l := o1]> (heap st1)) st1).
    assert (Hlt : l < length (heap st)) by (eapply lookup_lt_Some; eauto).
    assert (Hl1 : heap st1 !! l = Some o) by (simpl; now apply lookup_app_l_Some).
    assert (Hl2 : heap st2 !! l = Some o1).
    { simpl. apply list_lookup_insert_eq. rewrite length_app. lia. }
    assert (Hc2 : heap st2 !! c = Some (Object kd [])).
    { simpl. rewrite list_lookup_insert_ne by (unfold c; lia).
      unfold c. now rewrite lookup_app_r, Nat.sub_diag by lia. }
    assert (Hkeys' : keys = drop (index + 1) path).
    { replace (drop (index + 1) path) with (drop 1 (drop index path))
        by (rewrite drop_drop; f_equal; lia).
      now rewrite <- Hkeys. }
    set (rebuilt' := (rebuilt ++ (if String.eqb rebuilt EmptyString
                                  then EmptyString else ".")
                      ++ Js.join "," path)%string).
    set (st3 := if unused_has (MString rebuilt') (unused st2)
                then set_unused (unused_delete (MString rebuilt') (unused st2)) st2
                else st2).
    assert (Hh3 : heap st3 = heap st2) by (unfold st3; now destruct (unused_has _ _)).
    assert (Hv3 : values st3 = values st /\ fields st3 = fields st
                  /\ cached st3 = cached st
                  /\ forall m, m ∈ unused st3 -> m ∈ unused st).
    { unfold st3. destruct (unused_has _ _); simpl; repeat split; auto.
      intros m. apply elem_of_unused_delete. }
    destruct Hv3 as (Hv3 & Hf3 & Hc3 & Hu3).
    assert (Hlen3 : length (heap st3) = S (length (heap st))).
    { rewrite Hh3. simpl. rewrite length_insert, length_app. simpl. lia. }
    destruct (IH (index + 1) c (Object kd []) rebuilt' st3)
      as (st' & Hrun & Hv & Hf & Hc & Hu & Hlen' & Hframe & Hoc & Hchain);
      auto.
    { now rewrite Hh3. }
    { destruct keys as [|key' keys']; [exact I|].
      assert (Hk : path !! (index + 1) = Some key').
      { rewrite <- (Nat.add_0_r (index + 1)), <- lookup_drop, <- Hkeys'.
        reflexivity. }
      assert (En : nth (index + 1) nums false = Js.isFinite key').
      { unfold nums. now rewrite nth_lookup, list_lookup_fmap, Hk. }
      split; [reflexivity|]. split.
      - intros Harr ->. unfold kd in Harr. simpl in Harr. rewrite En in Harr.
        rewrite isFinite_length in Harr. discriminate.
      - unfold given. rewrite bag_not_this by (unfold c, this; lia).
        unfold holder_of.
        replace (Nat.eqb c this) with false
          by (symmetry; apply Nat.eqb_neq; unfold c, this; lia).
        unfold kd. rewrite En. simpl.
        destruct (Js.isFinite key') eqn:Ef; simpl.
        + destruct (Js.builtin Js.HArray key') eqn:Eb; auto.
          apply builtin_not_finite in Eb. congruence.
        + now inversion Hrest. }
    { destruct keys; simpl; [constructor|]. now inversion Hrest. }
    assert (Hl' : heap st' !! l = Some o1).
    { apply Hframe; [now rewrite Hh3|unfold c; lia]. }
    exists st'. repeat apply conj.
    + rewrite ensure_cons. unfold bind at 1.
      rewrite (Get_absent st l o key) by assumption. simpl is_undefined.
      cbv iota. unfold bind at 1. unfold bind at 1. rewrite alloc_ok.
      replace (if nth (index + 1) nums false then Object (KArray 0) []
               else Object KObject []) with (Object kd [])
        by (unfold kd; now destruct (nth (index + 1) nums false)).
      fold c. fold st1.
      rewrite (Put_absent st1 l o key) by assumption.
      fold o1. fold st2. unfold bind at 1.
      rewrite (Get_data st2 l o1 key (VRef c)) by
        (auto; apply props_get_set_eq).
      unfold bind at 1. unfold modify at 1. fold rebuilt'. fold st3.
      rewrite Hrun. f_equal. f_equal.
      destruct keys; simpl; rewrite ?Hlen3; unfold c; lia.
    + congruence.
    + congruence.
    + congruence.
    + auto.
    + rewrite Hlen', Hlen3. simpl. lia.
    + intros l0 o0 Hl0 Hne.
      assert (l0 < length (heap st)) by (eapply lookup_lt_Some; eauto).
      apply Hframe; [|unfold c; lia].
      rewrite Hh3. simpl. rewrite list_lookup_insert_ne by auto.
      now apply lookup_app_l_Some.
    + exact Hl'.
    + intros j Hj. destruct j as [|j].
      * replace (c + 0) with c by lia.
        replace (index + 0 + 1) with (index + 1) by lia.
        destruct keys as [|key' keys']; simpl in Hoc |- *.
        -- exists kd. split; [exact Hoc|]. split; [|split].
           ++ unfold kd. now destruct (nth (index + 1) nums false).
           ++ unfold kd. now destruct (nth (index + 1) nums false).
           ++ apply bounded_nil.
        -- exists (grow key' kd). rewrite Hlen3 in Hoc. fold c in Hoc.
           replace (c + 1) with (S c) by lia. split; [exact Hoc|].
           rewrite is_array_grow. split; [|split].
           ++ unfold kd. now destruct (nth (index + 1) nums false).
           ++ apply (container_grow key' kd [] []). unfold kd.
              now destruct (nth (index + 1) nums false).
           ++ apply (bounded_grow key' _ (Object kd [])), bounded_nil.
      * destruct (Hchain j) as (kdj & Hoj & Hk & Hcont); [simpl in Hj; lia|].
        exists kdj. rewrite Hlen3 in Hoj. fold c in Hoj.
        replace (c + S j) with (S c + j) by lia.
        replace (c + S (S j)) with (S c + S j) by lia.
        split; [exact Hoj|]. split; [rewrite Hk; f_equal; lia|].
        destruct Hcont as [Hcont Hb]. split; [exact Hcont|].
        now replace (S c + S j) with (length (heap st3) + S j)
          by (rewrite Hlen3; unfold c; lia).
Qed.

(** The chain, followed from the object. *)
Lemma fresh_chain_descend keys h l o n :
  h !! l = Some o ->
  match keys with
  | key :: _ => props_get key (oprops o) = Some (PData (VRef n))
  | [] => True
  end ->
  (forall j k', keys !! S j = Some k' ->
     exists oj,
       h !! (n + j) = Some oj
       /\ props_get k' (oprops oj) = Some (PData (VRef (n + S j)))) ->
  forall j, j < length keys -> descend h l (take (S j) keys) = Some (n + j).
Proof.
  revert l o n. induction keys as [|key keys IH]; intros l o n Hl Hk Hchain j Hj.
  - simpl in Hj. lia.
  - simpl. rewrite Hl, Hk. destruct j as [|j].
    + rewrite take_0. simpl. f_equal. lia.
    + destruct keys as [|k' keys']; [simpl in Hj; lia|].
      destruct (Hchain 0 k' eq_refl) as (o0 & Hn & Hk0).
      rewrite Nat.add_0_r in Hn.
      replace (n + S j) with (S n + j) by lia.
      eapply IH; [exact Hn| | |simpl in *; lia].
      * now replace (S n) with (n + 1) by lia.
      * intros j' k2 Hj'. destruct (Hchain (S j') k2 Hj') as (oj & Hoj & Hkj).
        exists oj. replace (S n + j') with (n + S j') by lia.
        split; [exact Hoj|].
        now replace (S n + S j') with (n + S (S j')) by lia.
Qed.

End Fresh.

Lemma ensure_app path nums pre rest :
  forall obj index rebuilt st obj' st1,
    ensure call path nums pre obj index rebuilt st = Ok obj' st1 ->
    exists rebuilt',
      ensure call path nums (pre ++ rest) obj index rebuilt st
      = ensure call path nums rest obj' (index + length pre) rebuilt' st1.
Proof.
  induction pre as [|key pre IH]; intros obj index rebuilt st obj' st1 H.
  - simpl in H. injection H as <- <-. exists rebuilt. simpl.
    now rewrite Nat.add_0_r.
  - simpl app. rewrite ensure_cons in *. unfold bind at 1 in H.
    unfold bind at 1.
    destruct (Get call obj key st) as [v s1| |]; [|discriminate..].
    unfold bind at 1 in H. unfold bind at 1.
    match goal with |- context [match ?m s1 with _ => _ end] =>
      destruct (m s1) as [[] s2| |] end; [|discriminate..].
    unfold bind at 1 in H. unfold bind at 1.
    destruct (Get call obj key s2) as [w s3| |]; [|discriminate..].
    cbv zeta in *. unfold bind at 1 in H. unfold bind at 1.
    unfold modify at 1 in H. unfold modify at 1.
    apply IH in H as [rebuilt' ->]. exists rebuilt'.
    f_equal. simpl. lia.
Qed.

(** C4 (as amended).  When [_ensurePathStructure], having walked the
    segments [pre] of a path, reaches an object on which the next segment
    reads [undefined] (the object has no such property, own or given by
    the language or the class), and no segment after it is the name of a
    member of [Object.prototype], it creates one container for that
    segment and one for each segment after it but the last of the path,
    each linked from the one before; and a container whose next segment
    is not the last of the path is an array if and only if [isFinite]
    holds of that next segment (a digit string, but also the empty
    string, a signed or an exponent form). *)
Theorem created_containers path0 st pre key rest l o st1 :
  removelast path0 = (pre ++ key :: rest)%list ->
  ensure call (removelast path0) (map Js.isFinite (removelast path0))
    pre (VRef this) 0 EmptyString st = Ok (VRef l) st1 ->
  heap st1 !! l = Some o ->
  props_get key (oprops o) = None ->
  (is_array (okind o) = true -> key <> "length") ->
  given l o key = false ->
  Forall (fun k => Js.builtin Js.HObject k = false) rest ->
  exists st' c,
    _ensurePathStructure call path0 st = Ok (VRef c, last path0) st'
    /\ descend (heap st') l (key :: rest) = Some c
    /\ forall j, j <= length rest ->
         exists cj oj,
           descend (heap st') l (take (S j) (key :: rest)) = Some cj
           /\ length (heap st1) <= cj
           /\ heap st' !! cj = Some oj
           /\ (j < length rest ->
               (is_array (okind oj) = true
                <-> Js.isFinite (nth (length pre + S j) path0 EmptyString)
                    = true)).
Proof.
  intros Hpath Hpre Hl Hnone Hlen Hgiven Hrest.
  set (path := removelast path0) in *.
  assert (Htake : path = take (length path0 - 1) path0).
  { unfold path. rewrite removelast_firstn_len. f_equal. lia. }
  assert (Hplen : length path0 - 1 = length pre + S (length rest)).
  { assert (H : length path = length pre + S (length rest))
      by (rewrite Hpath, length_app; simpl; lia).
    rewrite Htake, length_take in H. lia. }
  destruct (ensure_app path (map Js.isFinite path) pre (key :: rest)
              _ _ _ _ _ _ Hpre) as [rebuilt' Happ].
  destruct (ensure_fresh path (key :: rest) (0 + length pre) l o rebuilt' st1)
    as (st' & Hrun & _ & _ & _ & _ & _ & _ & Hl' & Hchain); auto.
  { rewrite Hpath. simpl. now rewrite drop_app_length. }
  assert (Hdesc : forall j, j < length (key :: rest) ->
            descend (heap st') l (take (S j) (key :: rest))
            = Some (length (heap st1) + j)).
  { eapply fresh_chain_descend; [exact Hl'| |].
    - simpl. apply props_get_set_eq.
    - intros j k' Hk'.
      destruct (Hchain j) as (kd & Hkd & _).
      { apply lookup_lt_Some in Hk'. simpl in *. lia. }
      rewrite Hk' in Hkd. eexists. split; [exact Hkd|].
      simpl. now rewrite String.eqb_refl. }
  exists st', (length (heap st1) + length (key :: rest) - 1).
  split; [|split].
  - unfold _ensurePathStructure, pop, bind. fold path.
    rewrite Hpath at 3. now rewrite Happ, Hrun.
  - replace (length (heap st1) + length (key :: rest) - 1)
      with (length (heap st1) + length rest) by (simpl; lia).
    rewrite <- (take_ge (key :: rest) (S (length rest))) by (simpl; lia).
    apply Hdesc. simpl. lia.
  - intros j Hj.
    destruct (Hchain j) as (kd & Hoj & Hk & _); [simpl; lia|].
    eexists _, _. split; [apply Hdesc; simpl; lia|].
    split; [lia|]. split; [exact Hoj|]. intros Hj'. simpl okind. rewrite Hk.
    assert (Hn : nth (0 + length pre + j + 1) (map Js.isFinite path) false
                 = Js.isFinite (nth (length pre + S j) path0 EmptyString)).
    { rewrite !nth_lookup, list_lookup_fmap.
      rewrite Htake, lookup_take_lt by lia.
      replace (0 + length pre + j + 1) with (length pre + S j) by lia.
      destruct (path0 !! (length pre + S j)) eqn:E; simpl; auto.
      apply lookup_ge_None in E. lia. }
    now rewrite Hn.
Qed.
(** ** Loops and sorted entries *)

Lemma for_each_cons_ok {A} (body : A -> M unit) x l st st1 :
  body x st = Ok tt st1 -> for_each body (x :: l) st = for_each body l st1.
Proof. intros H. simpl. unfold bind. now rewrite H. Qed.

Lemma elem_of_insert_entry_2 x y l : y = x \/ y ∈ l -> y ∈ insert_entry x l.
Proof.
  induction l as [|z l IH]; simpl.
  - rewrite list_elem_of_singleton. intros [|H]; auto. inversion H.
  - destruct (Js.gt z.1 x.1); rewrite !elem_of_cons;
      intros [->|[->|H]]; auto; right; apply IH; auto.
Qed.

Lemma elem_of_sort_entries_2 y l : y ∈ l -> y ∈ sort_entries l.
Proof.
  unfold sort_entries. induction l as [|x l IH]; simpl; auto.
  rewrite elem_of_cons. intros [->|H]; apply elem_of_insert_entry_2; auto.
Qed.


(** ** Views: the containers and accessors of a set of field paths *)

Lemma split_nonempty c s : Js.split c s <> [].
Proof.
  destruct s as [|a s]; simpl; [discriminate|].
  destruct (Ascii.eqb a c); [discriminate|].
  destruct (Js.split c s); discriminate.
Qed.

Lemma split_no_sep c s : Js.includes c s = false -> Js.split c s = [s].
Proof.
  induction s as [|a s IH]; simpl; auto.
  destruct (Ascii.eqb a c); simpl; [discriminate|].
  intros H. now rewrite IH.
Qed.

Lemma split_sep_length c s :
  Js.includes c s = true -> 2 <= length (Js.split c s).
Proof.
  induction s as [|a s IH]; simpl; [discriminate|].
  destruct (Ascii.eqb a c); simpl.
  - intros _. pose proof (split_nonempty c s).
    destruct (Js.split c s); [contradiction|simpl; lia].
  - intros H. apply IH in H. destruct (Js.split c s); simpl in *; lia.
Qed.

Lemma join_split c s : Js.join (String c EmptyString) (Js.split c s) = s.
Proof.
  induction s as [|a s IH]; simpl; auto.
  destruct (Ascii.eqb_spec a c) as [->|Hne].
  - pose proof (split_nonempty c s).
    destruct (Js.split c s) as [|y ys]; [contradiction|].
    simpl in *. now rewrite IH.
  - destruct (Js.split c s) as [|w ws]; simpl in *; [now subst|].
    destruct ws; simpl in *; now rewrite <- IH.
Qed.

Lemma segs_inj f1 f2 : segs f1 = segs f2 -> f1 = f2.
Proof.
  unfold segs. intros H.
  now rewrite <- (join_split "." f1), <- (join_split "." f2), H.
Qed.

Lemma segs_snoc f : segs f = (dir f ++ [leaf_key f])%list.
Proof.
  unfold dir, leaf_key. pose proof (split_nonempty "." f) as H. fold (segs f) in H.
  destruct (exists_last H) as (d & k & E). rewrite E.
  now rewrite removelast_last, last_snoc.
Qed.

Lemma segs_top f : Js.includes "." f = false -> dir f = [] /\ leaf_key f = f.
Proof.
  intros H. unfold dir, leaf_key, segs. now rewrite (split_no_sep _ _ H).
Qed.

Lemma descend_app h l q1 q2 :
  descend h l (q1 ++ q2)
  = match descend h l q1 with Some c => descend h c q2 | None => None end.
Proof.
  revert l. induction q1 as [|k q1 IH]; intros l; simpl; auto.
  destruct (h !! l) as [o|]; auto.
  destruct (props_get k (oprops o)) as [[[]|]|]; auto.
Qed.

Lemma descend_adds h h' l q c :
  adds h h' -> descend h l q = Some c -> descend h' l q = Some c.
Proof.
  intros Hadds. revert l. induction q as [|k q IH]; intros l; simpl; auto.
  destruct (h !! l) as [o|] eqn:Hl; [|discriminate].
  destruct (Hadds l o Hl) as (o' & -> & Hp & _).
  destruct (props_get k (oprops o)) as [[v|g]|] eqn:Hk; try discriminate.
  destruct v; try discriminate.
  rewrite (Hp _ _ Hk). apply IH.
Qed.


Lemma ensure_existing path nums pre :
  forall l index rebuilt s c,
    descend (heap s) l pre = Some c ->
    exists s',
      ensure call path nums pre (VRef l) index rebuilt s = Ok (VRef c) s'
      /\ heap s' = heap s /\ values s' = values s /\ fields s' = fields s
      /\ cached s' = cached s
      /\ (forall m, m ∈ unused s' -> m ∈ unused s).
Proof.
  induction pre as [|k pre IH]; intros l index rebuilt s c; simpl descend.
  - intros [= <-]. exists s. simpl. repeat apply conj; auto.
  - destruct (heap s !! l) as [o|] eqn:Hl; [|discriminate].
    destruct (props_get k (oprops o)) as [[v|g]|] eqn:Hk; try discriminate.
    destruct v as [| | | | | | |c1]; try discriminate.
    intros Hd. rewrite ensure_cons. unfold bind at 1.
    rewrite (Get_data s l o k (VRef c1)) by assumption.
    simpl is_undefined. cbv iota. unfold bind at 1. unfold ret at 1.
    unfold bind at 1. rewrite (Get_data s l o k (VRef c1)) by assumption.
    cbv zeta. unfold bind at 1. unfold modify at 1.
    match goal with |- context [ensure _ _ _ _ _ _ _ ?s1] => set (s' := s1) end.
    assert (Hs' : heap s' = heap s /\ values s' = values s
                  /\ fields s' = fields s /\ cached s' = cached s
                  /\ forall m, m ∈ unused s' -> m ∈ unused s).
    { unfold s'. destruct (unused_has _ _); simpl; repeat apply conj; auto.
      intros m. apply elem_of_unused_delete. }
    destruct Hs' as (Hh & Hv & Hf & Hc & Hu).
    match goal with |- context [ensure _ _ _ _ _ _ ?rb s'] =>
      destruct (IH c1 (index + 1) rb s' c)
        as (s2 & Hrun & Hh2 & Hv2 & Hf2 & Hc2 & Hu2);
      [now rewrite Hh|] end.
    exists s2. rewrite Hrun. repeat apply conj; auto; congruence.
Qed.

(** The loop of [_ensurePathStructure] on a path whose beginning [pre]
    exists and whose rest does not. *)
Lemma ensure_reach path pre rest s c oc :
  path = (pre ++ rest)%list ->
  descend (heap s) this pre = Some c ->
  heap s !! c = Some oc ->
  match rest with
  | key :: _ =>
      props_get key (oprops oc) = None
      /\ (is_array (okind oc) = true -> key <> "length")
      /\ given c oc key = false
  | [] => True
  end ->
  Forall (fun k => Js.builtin Js.HObject k = false) (tail rest) ->
  exists s2,
    ensure call path (map Js.isFinite path) path (VRef this) 0 EmptyString s
    = Ok (VRef (match rest with
                | [] => c
                | _ => length (heap s) + length rest - 1
                end)) s2
    /\ values s2 = values s /\ fields s2 = fields s
    /\ cached s2 = cached s
    /\ (forall m, m ∈ unused s2 -> m ∈ unused s)
    /\ length (heap s2) = length (heap s) + length rest
    /\ (forall l0 o0, heap s !! l0 = Some o0 -> l0 <> c ->
          heap s2 !! l0 = Some o0)
    /\ heap s2 !! c
       = Some (match rest with
               | [] => oc
               | key :: _ =>
                   Object (grow key (okind oc))
                     (props_set key (PData (VRef (length (heap s))))
                        (oprops oc))
               end)
    /\ forall j, j < length rest ->
         exists kd,
           heap s2 !! (length (heap s) + j)
           = Some (Object kd
                     match rest !! S j with
                     | Some k' => [(k', PData (VRef (length (heap s) + S j)))]
                     | None => []
                     end)
           /\ is_array kd
              = nth (length pre + j + 1) (map Js.isFinite path) false
           /\ container (Object kd [])
           /\ bounded (Object kd
                         match rest !! S j with
                         | Some k' =>
                             [(k', PData (VRef (length (heap s) + S j)))]
                         | None => []
                         end).
Proof.
  intros Hpath Hd Hc Habs Hrest.
  destruct (ensure_existing path (map Js.isFinite path) pre this 0
              EmptyString s c Hd)
    as (s1 & Hrun1 & Hh1 & Hv1 & Hf1 & Hc1 & Hu1).
  destruct (ensure_app path (map Js.isFinite path) pre rest
              _ _ _ _ _ _ Hrun1) as [rb Happ].
  destruct (ensure_fresh path rest (0 + length pre) c oc rb s1)
    as (s2 & Hrun2 & Hv2 & Hf2 & Hc2 & Hu2 & Hlen2 & Hframe & Hobj & Hchain).
  { rewrite Hpath. simpl. now rewrite drop_app_length. }
  { now rewrite Hh1. }
  { exact Habs. }
  { exact Hrest. }
  rewrite Hh1 in *. exists s2. repeat apply conj; auto; congruence.
Qed.

Lemma prefix_app_cases (q pre rest : list string) :
  q `prefix_of` (pre ++ rest)%list ->
  q `prefix_of` pre
  \/ exists j, j < length rest /\ q = (pre ++ take (S j) rest)%list.
Proof.
  intros Hq. pose proof (prefix_length _ _ Hq) as Hlen.
  rewrite length_app in Hlen.
  assert (E : q = take (length q) (pre ++ rest)).
  { destruct Hq as [k ->]. now rewrite take_app_length. }
  destruct (decide (length q <= length pre)) as [Hle|Hgt].
  - left. rewrite E, take_app_le by lia. apply prefix_take.
  - right. exists (length q - length pre - 1). split; [lia|].
    rewrite E at 1. rewrite take_app_ge by lia.
    do 2 f_equal. lia.
Qed.

Lemma container_props kd ps ps' :
  container (Object kd ps) -> container (Object kd ps').
Proof. auto. Qed.

Lemma container_grown k o ps' :
  container o -> container (Object (grow k (okind o)) ps').
Proof. destruct o as [kd ps]. apply container_grow. Qed.

Lemma grow_KObject k : grow k KObject = KObject.
Proof. reflexivity. Qed.

Lemma admissible_segs f :
  admissible f = true ->
  exists k ks,
    segs f = k :: ks /\ Js.top k = true
    /\ Forall (fun x => Js.plain x = true) ks.
Proof.
  unfold admissible. destruct (segs f) as [|k ks]; [discriminate|].
  intros H. apply andb_true_iff in H as [H1 H2].
  exists k, ks. repeat split; auto.
  apply Forall_forall. intros x Hx. rewrite forallb_forall in H2.
  apply H2. now apply list_elem_of_In.
Qed.

Lemma admissible_later f pre k t :
  admissible f = true -> segs f = (pre ++ k :: t)%list ->
  Forall (fun x => Js.plain x = true) t.
Proof.
  intros Hf Hs. destruct (admissible_segs f Hf) as (k0 & ks & E & _ & H).
  rewrite E in Hs. destruct pre as [|k1 pre]; simpl in Hs.
  - injection Hs as _ <-. exact H.
  - injection Hs as _ ->. apply Forall_app in H as [_ H].
    now apply Forall_cons in H as [_ H].
Qed.

(** On the nodes of a view, the segments of an admissible path are not
    given. *)
Lemma view_not_given C F st f q k c o :
  view C F st -> admissible f = true ->
  (q ++ [k])%list `prefix_of` segs f ->
  node C q -> descend (heap st) this q = Some c ->
  heap st !! c = Some o -> container o ->
  given c o k = false
  /\ (is_array (okind o) = true -> k <> "length")
  /\ bag c k = false.
Proof.
  intros Hview Hf [t Hp] Hq Hd Ho Hc.
  destruct (view_this _ _ _ Hview) as [ps Hps].
  destruct q as [|k1 q].
  - destruct (admissible_segs f Hf) as (k0 & ks & Hs & Htop & _).
    simpl in Hd. injection Hd as <-. rewrite Hps in Ho. injection Ho as <-.
    rewrite Hs in Hp. simpl in Hp. injection Hp as -> _.
    split; [now apply given_top|]. split; [discriminate|].
    now apply bag_ne, top_spec.
  - assert (Hne : c <> this).
    { intros ->. assert (E : k1 :: q = []); [|discriminate].
      eapply (view_inj _ _ _ Hview); eauto. now left. }
    assert (Hk : Js.plain k = true).
    { rewrite <- app_assoc in Hp. simpl in Hp.
      destruct (admissible_segs f Hf) as (k0 & ks & Hs & _ & H).
      rewrite Hs in Hp. injection Hp as _ ->.
      apply Forall_app in H as [_ H]. now apply Forall_cons in H as [H _]. }
    split; [now apply given_plain|].
    split; [intros _; now apply plain_spec|now apply bag_not_this].
Qed.

(** A container is no function. *)
Lemma container_not_native o k : container o -> native_own o k = false.
Proof. unfold container, native_own. now destruct (okind o). Qed.

Section AddField.

Variables (C : list string) (F : list (string * getter)) (st : state).
Hypothesis Hview : view C F st.

Variable G : string.
Hypothesis HG : forall g, (G, g) ∉ F.
Hypothesis Hfree1 : forall f, f ∈ C -> segs f `prefix_of` segs G -> f = G.
Hypothesis Hfree2 : forall f, f ∈ C -> segs G `prefix_of` segs f -> f = G.
Hypothesis Hnames : admissible G = true.

Lemma dir_prefix f : dir f `prefix_of` segs f.
Proof. rewrite (segs_snoc f) at 1. now exists [leaf_key f]. Qed.

(** How far the directory of [G] exists already. *)
Lemma locate rest0 :
  forall q c o,
    node C q -> descend (heap st) this q = Some c ->
    heap st !! c = Some o -> container o ->
    (q ++ rest0)%list `prefix_of` dir G ->
    exists pre rest c' o',
      (q ++ rest0 = pre ++ rest)%list
      /\ node C pre /\ descend (heap st) this pre = Some c'
      /\ heap st !! c' = Some o' /\ container o'
      /\ match rest with
         | [] => True
         | k :: _ => props_get k (oprops o') = None
         end.
Proof.
  induction rest0 as [|k rest0 IH]; intros q c o Hq Hd Hc Hcont Hpre.
  - exists q, [], c, o. repeat apply conj; auto.
  - destruct (props_get k (oprops o)) as [p|] eqn:Hk.
    2:{ exists q, (k :: rest0), c, o. repeat apply conj; auto. }
    destruct (view_closed _ _ _ Hview q c o k p Hq Hd Hc Hk)
      as [[Hdir (c1 & ->)]|(f & g & Hf & Hsegs & _)].
    + destruct (view_dirs _ _ _ Hview _ Hdir) as (c2 & o2 & Hd2 & Hc2 & Hcont2).
      assert (c2 = c1).
      { rewrite descend_app, Hd in Hd2. simpl in Hd2.
        rewrite Hc, Hk in Hd2. congruence. }
      subst c2.
      destruct (IH (q ++ [k])%list c1 o2) as (pre & rest & c' & o' & E & H);
        auto.
      { now right. }
      { now rewrite <- app_assoc. }
      exists pre, rest, c', o'. split; auto.
      rewrite <- E, <- app_assoc. reflexivity.
    + exfalso. apply (HG g). rewrite <- (Hfree1 f); auto.
      * eapply view_sub; eauto.
      * rewrite Hsegs.
        etransitivity; [|etransitivity; [exact Hpre|apply dir_prefix]].
        exists rest0. now rewrite <- app_assoc.
Qed.

(** The segments of [G] after the first that has no container. *)
Lemma later_plain pre k rest :
  dir G = (pre ++ k :: rest)%list ->
  Forall (fun x => Js.plain x = true) (rest ++ [leaf_key G]).
Proof.
  intros E. apply (admissible_later G pre k); auto.
  rewrite segs_snoc, E, <- app_assoc. reflexivity.
Qed.

Lemma plain_fresh (l : loc) kd ps k :
  l <> this -> container (Object kd []) -> Js.plain k = true ->
  given l (Object kd ps) k = false
  /\ (is_array kd = true -> k <> "length")
  /\ bag l k = false.
Proof.
  intros Hl Hc Hk. split; [now apply given_plain|].
  split; [intros _; now apply plain_spec|now apply bag_not_this].
Qed.

(** What [add_field] does of the field [G]: it creates the containers
    that its directory lacks, and defines the accessor in the last. *)
Lemma install r :
  exists pre rest c oc st3,
    dir G = (pre ++ rest)%list
    /\ node C pre
    /\ descend (heap st) this pre = Some c
    /\ heap st !! c = Some oc
    /\ container oc
    /\ props_get (hd (leaf_key G) rest) (oprops oc) = None
    /\ add_field call (G, r) st = Ok tt st3
    /\ fields st3 = fields_add G (fields st)
    /\ values st3 = values st
    /\ cached st3 = cached st
    /\ (forall m, m ∈ unused st3 -> m ∈ unused st)
    /\ length (heap st3) = length (heap st) + length rest
    /\ (forall l0 o0, heap st !! l0 = Some o0 -> l0 <> c ->
          heap st3 !! l0 = Some o0)
    /\ heap st3 !! c
       = Some (Object (grow (hd (leaf_key G) rest) (okind oc))
                 (props_set (hd (leaf_key G) rest)
                    match rest with
                    | [] => PGet (_convertRangeToGetter r VUndef)
                    | _ => PData (VRef (length (heap st)))
                    end (oprops oc)))
    /\ forall j, j < length rest ->
         exists kd,
           heap st3 !! (length (heap st) + j)
           = Some (Object kd
                     match rest !! S j with
                     | Some k' => [(k', PData (VRef (length (heap st) + S j)))]
                     | None =>
                         [(leaf_key G, PGet (_convertRangeToGetter r VUndef))]
                     end)
           /\ container (Object kd [])
           /\ bounded (Object kd
                         match rest !! S j with
                         | Some k' =>
                             [(k', PData (VRef (length (heap st) + S j)))]
                         | None =>
                             [(leaf_key G,
                               PGet (_convertRangeToGetter r VUndef))]
                         end).
Proof.
  destruct (view_this _ _ _ Hview) as [ps Hthis].
  destruct (locate (dir G) [] this (Object KObject ps))
    as (pre & rest & c & oc & Hsplit & Hpre & Hd & Hc & Hcont & Habs);
    auto; try (now left); try exact I.
  simpl in Hsplit.
  assert (Hleaf : rest = [] -> props_get (leaf_key G) (oprops oc) = None).
  { intros ->. rewrite app_nil_r in Hsplit. subst pre.
    destruct (props_get (leaf_key G) (oprops oc)) as [p|] eqn:Hk; auto.
    exfalso.
    destruct (view_closed _ _ _ Hview _ _ _ _ _ Hpre Hd Hc Hk)
      as [[[_ (f & Hf & Hp)] _]|(f & g & Hf & Hsegs & _)].
    - rewrite <- segs_snoc in Hp.
      assert (f = G).
      { apply Hfree2; auto. etransitivity; [exact Hp|apply dir_prefix]. }
      subst f. apply prefix_length in Hp. rewrite (segs_snoc G) in Hp at 1.
      rewrite length_app in Hp. simpl in Hp. lia.
    - rewrite <- segs_snoc in Hsegs. apply segs_inj in Hsegs. subst f.
      now apply (HG g). }
  assert (Habs' : props_get (hd (leaf_key G) rest) (oprops oc) = None).
  { destruct rest; simpl; auto. }
  set (g := _convertRangeToGetter r VUndef).
  set (st1 := set_fields (fields_add G (fields st)) st).
  (* the cursor *)
  assert (Hcursor : exists s2,
    (if Js.includes "." G then _ensurePathStructure call (Js.split "." G)
     else ret (VRef this, Some G)) st1
    = Ok (VRef (match rest with
                | [] => c
                | _ => length (heap st) + length rest - 1
                end), last (segs G)) s2
    /\ values s2 = values st /\ fields s2 = fields st1
    /\ cached s2 = cached st
    /\ (forall m, m ∈ unused s2 -> m ∈ unused st)
    /\ length (heap s2) = length (heap st) + length rest
    /\ (forall l0 o0, heap st !! l0 = Some o0 -> l0 <> c ->
          heap s2 !! l0 = Some o0)
    /\ heap s2 !! c
       = Some (match rest with
               | [] => oc
               | key :: _ =>
                   Object (grow key (okind oc))
                     (props_set key (PData (VRef (length (heap st))))
                        (oprops oc))
               end)
    /\ forall j, j < length rest ->
         exists kd,
           heap s2 !! (length (heap st) + j)
           = Some (Object kd
                     match rest !! S j with
                     | Some k' => [(k', PData (VRef (length (heap st) + S j)))]
                     | None => []
                     end)
           /\ container (Object kd [])
           /\ bounded (Object kd
                         match rest !! S j with
                         | Some k' =>
                             [(k', PData (VRef (length (heap st) + S j)))]
                         | None => []
                         end)).
  { destruct (Js.includes "." G) eqn:Hinc.
    - destruct (ensure_reach (dir G) pre rest st1 c oc)
        as (s2 & Hrun & Hv & Hf & Hc2 & Hu & Hlen & Hframe & Hobj & Hchain);
        auto.
      { destruct rest as [|k rest]; [exact I|]. split; [exact Habs|].
        destruct (view_not_given C F st G pre k c oc) as (H1 & H2 & _);
          auto.
        etransitivity; [|apply dir_prefix]. rewrite Hsplit.
        exists rest. now rewrite <- app_assoc. }
      { destruct rest as [|k rest]; [constructor|]. simpl.
        pose proof (later_plain _ _ _ Hsplit) as H.
        apply Forall_app in H as [H _].
        eapply Forall_impl; [exact H|]. intros x Hx. now apply plain_spec. }
      exists s2. repeat apply conj; auto.
      + unfold _ensurePathStructure, pop, bind. fold (segs G). fold (dir G).
        now rewrite Hrun.
      + intros j Hj. destruct (Hchain j Hj) as (kd & Hkd & _ & Hcont').
        exists kd. split; [exact Hkd|exact Hcont'].
    - destruct (segs_top G Hinc) as [Hdir Hlk].
      rewrite Hdir in Hsplit. symmetry in Hsplit.
      apply app_eq_nil in Hsplit as [-> ->].
      exists st1. unfold ret, segs. rewrite (split_no_sep _ _ Hinc).
      simpl in Hd. injection Hd as <-.
      repeat apply conj; auto. intros j Hj. simpl in Hj. lia. }
  destruct Hcursor
    as (s2 & Hrun & Hv & Hf & Hc2 & Hu & Hlen & Hframe & Hobj & Hchain).
  set (cl := match rest with
             | [] => c
             | _ => length (heap st) + length rest - 1
             end) in *.
  (* the last container *)
  assert (Hlast : exists ol,
    heap s2 !! cl = Some ol
    /\ props_get (leaf_key G) (oprops ol) = None
    /\ container ol
    /\ ol = match rest with
            | [] => oc
            | _ => Object (okind ol) []
            end
    /\ given cl ol (leaf_key G) = false
    /\ (is_array (okind ol) = true -> leaf_key G <> "length")
    /\ bag cl (leaf_key G) = false).
  { unfold cl. destruct rest as [|k rest'].
    - destruct (view_not_given C F st G pre (leaf_key G) c oc)
        as (P1 & P2 & P3); auto.
      { rewrite app_nil_r in Hsplit. now rewrite <- Hsplit, <- segs_snoc. }
      exists oc. repeat apply conj; auto.
    - destruct (Hchain (length rest')) as (kd & Hkd & Hcont' & _);
        [simpl; lia|].
      rewrite (proj2 (lookup_ge_None (k :: rest') (S (length rest')))) in Hkd
        by (simpl; lia).
      exists (Object kd []).
      replace (length (heap st) + length (k :: rest') - 1)
        with (length (heap st) + length rest') by (simpl; lia).
      assert (Hpl : Js.plain (leaf_key G) = true).
      { pose proof (later_plain _ _ _ Hsplit) as H.
        apply Forall_app in H as [_ H]. now apply Forall_cons in H as [H _]. }
      assert (Hn : length (heap st) + length rest' <> this).
      { apply lookup_lt_Some in Hthis. unfold this in *. lia. }
      destruct (plain_fresh _ kd [] (leaf_key G) Hn Hcont' Hpl)
        as (P1 & P2 & P3).
      repeat apply conj; auto. }
  destruct Hlast as (ol & Hol & Hnone & Hcontl & Holeq & Hgl & Hll & Hbl).
  exists pre, rest, c, oc.
  exists (set_heap
            (<[cl := Object (grow (leaf_key G) (okind ol))
                       (props_set (leaf_key G) (PGet g) (oprops ol))]>
               (heap s2)) s2).
  repeat apply conj.
  - exact Hsplit.
  - exact Hpre.
  - exact Hd.
  - exact Hc.
  - exact Hcont.
  - exact Habs'.
  - unfold add_field. unfold bind at 1. unfold modify at 1. fold st1.
    unfold bind at 1. rewrite Hrun. fold (leaf_key G).
    unfold bind at 1.
    rewrite (Get_absent s2 cl ol (leaf_key G)) by auto.
    unfold DefineGetter, bind, gets. rewrite Hol.
    rewrite (not_array_length _ _ Hll), Hbl.
    rewrite (container_not_native _ _ Hcontl).
    unfold store, modify. reflexivity.
  - exact Hf.
  - exact Hv.
  - exact Hc2.
  - exact Hu.
  - simpl. rewrite length_insert. exact Hlen.
  - intros l0 o0 Hl0 Hne. simpl.
    assert (l0 < length (heap st)) by (eapply lookup_lt_Some; eauto).
    rewrite list_lookup_insert_ne; [now apply Hframe|].
    unfold cl. destruct rest; [congruence|simpl; lia].
  - simpl. unfold cl. destruct rest as [|k rest].
    + simpl. rewrite list_lookup_insert_eq
        by (eapply lookup_lt_Some; eauto).
      rewrite Holeq. reflexivity.
    + assert (c < length (heap st)) by (eapply lookup_lt_Some; eauto).
      rewrite list_lookup_insert_ne by (simpl; lia). exact Hobj.
  - intros j Hj. simpl.
    destruct (Hchain j Hj) as (kd & Hkd & Hcont' & Hbound).
    destruct (decide (S j = length rest)) as [E|E].
    + assert (Hcl : cl = length (heap st) + j).
      { unfold cl. destruct rest; simpl in *; lia. }
      rewrite <- Hcl. rewrite list_lookup_insert_eq
        by (eapply lookup_lt_Some; eauto).
      rewrite (proj2 (lookup_ge_None rest (S j))) in * by lia.
      unfold loc in *. rewrite <- Hcl, Hol in Hkd. injection Hkd as ->.
      exists (grow (leaf_key G) kd). split; [reflexivity|]. split.
      * unfold container in *. simpl in *.
        destruct kd; simpl; auto.
        destruct (Js.array_index _); auto. now destruct (_ <=? _)%N.
      * apply (bounded_grow (leaf_key G) _ (Object kd [])), bounded_nil.
    + rewrite list_lookup_insert_ne.
      2:{ unfold cl. destruct rest; simpl in *; lia. }
      exists kd.
      destruct (rest !! S j) eqn:El; [auto|].
      apply lookup_ge_None in El. lia.
Qed.

(** Declaring [G] on a view of [C] and [F] gives a view of [G :: C] and
    of [F] with the accessor of [G]. *)
Lemma add_field_view r :
  exists st3,
    add_field call (G, r) st = Ok tt st3
    /\ view (G :: C) ((G, _convertRangeToGetter r VUndef) :: F) st3
    /\ fields st3 = fields_add G (fields st)
    /\ values st3 = values st
    /\ cached st3 = cached st
    /\ (forall m, m ∈ unused st3 -> m ∈ unused st)
    /\ adds (heap st) (heap st3).
Proof.
  destruct (install r)
    as (pre & rest & c & oc & st3 & Hsplit & Hpre & Hd & Hc & Hcont & Habs
        & Hrun & Hf & Hv & Hc2 & Hu & Hlen & Hframe & Hobj & Hchain).
  exists st3. split; [exact Hrun|].
  set (g := _convertRangeToGetter r VUndef) in *.
  set (n := length (heap st)) in *.
  set (k0 := hd (leaf_key G) rest) in *.
  set (p0 := match rest with [] => PGet g | _ => PData (VRef n) end) in *.
  assert (Hcn : c < n) by (eapply lookup_lt_Some; eauto).
  (* the store after, against the store before *)
  assert (Hold : forall l0 o0, heap st !! l0 = Some o0 ->
            exists o0', heap st3 !! l0 = Some o0'
              /\ (container o0 -> container o0')
              /\ (container o0 \/ o0' = o0)
              /\ (bounded o0 -> bounded o0')
              /\ (okind o0 = KObject -> okind o0' = KObject)
              /\ (forall k p, props_get k (oprops o0) = Some p ->
                    props_get k (oprops o0') = Some p)
              /\ (forall k p, props_get k (oprops o0') = Some p ->
                    props_get k (oprops o0) = Some p
                    \/ (l0 = c /\ k = k0 /\ p = p0))).
  { intros l0 o0 Hl0. destruct (decide (l0 = c)) as [->|Hne].
    - rewrite Hc in Hl0. injection Hl0 as <-.
      eexists. split; [exact Hobj|]. simpl. repeat apply conj.
      + apply container_grown.
      + now left.
      + apply bounded_grow.
      + intros ->. reflexivity.
      + intros k p Hk. rewrite props_get_set_ne; auto. congruence.
      + intros k p Hk. destruct (String.eqb_spec k0 k) as [<-|Hne].
        * rewrite props_get_set_eq in Hk. injection Hk as <-. auto.
        * rewrite props_get_set_ne in Hk; auto.
    - exists o0. split; [now apply Hframe|]. repeat apply conj; auto. }
  assert (Hadds : adds (heap st) (heap st3)).
  { intros l0 o0 Hl0.
    destruct (Hold l0 o0 Hl0) as (o0' & H1 & _ & H3 & _ & _ & H2 & _).
    eauto. }
  split; [|repeat apply conj; auto].
  assert (Hnew : forall j, j < length rest ->
            exists kd,
              heap st3 !! (n + j)
              = Some (Object kd
                        match rest !! S j with
                        | Some k' => [(k', PData (VRef (n + S j)))]
                        | None => [(leaf_key G, PGet g)]
                        end)
              /\ container (Object kd [])
              /\ bounded (Object kd
                            match rest !! S j with
                            | Some k' => [(k', PData (VRef (n + S j)))]
                            | None => [(leaf_key G, PGet g)]
                            end)) by exact Hchain.
  assert (Hdpre : descend (heap st3) this pre = Some c)
    by (eapply descend_adds; eauto).
  assert (Hdnew : forall j, j < length rest ->
            descend (heap st3) this (pre ++ take (S j) rest) = Some (n + j)).
  { intros j Hj. rewrite descend_app, Hdpre.
    eapply fresh_chain_descend; eauto.
    - destruct rest as [|k rest']; [exact I|]. simpl.
      apply props_get_set_eq.
    - intros j' k' Hk'. destruct (Hnew j') as (kd & Hkd & _).
      { apply lookup_lt_Some in Hk'. lia. }
      rewrite Hk' in Hkd. eexists. split; [exact Hkd|].
      simpl. now rewrite String.eqb_refl. }
  (* the nodes after, against the nodes before *)
  assert (Hdirs : forall q, is_dir (G :: C) q ->
            is_dir C q
            \/ exists j, j < length rest /\ q = (pre ++ take (S j) rest)%list).
  { intros q [Hne (f & Hf' & Hq)].
    apply elem_of_cons in Hf' as [->|Hf'].
    - rewrite Hsplit in Hq. apply prefix_app_cases in Hq as [Hq|Hq]; auto.
      left. split; auto. destruct Hpre as [->|[_ (f' & Hf' & Hp)]].
      + apply prefix_nil_inv in Hq. contradiction.
      + exists f'. split; auto. etransitivity; eauto.
    - left. split; auto. eauto. }
  assert (Hnode_old : forall q, node C q ->
            exists cq oq, descend (heap st) this q = Some cq
                          /\ heap st !! cq = Some oq /\ container oq).
  { intros q [->|Hq].
    - destruct (view_this _ _ _ Hview) as [ps Hps].
      exists this, (Object KObject ps). repeat split; auto.
    - apply (view_dirs _ _ _ Hview _ Hq). }
  assert (Hclass : forall q X, node (G :: C) q ->
            descend (heap st3) this q = Some X ->
            (node C q /\ descend (heap st) this q = Some X /\ X < n)
            \/ exists j, j < length rest
                 /\ q = (pre ++ take (S j) rest)%list /\ X = n + j).
  { intros q X Hq HX.
    assert (Hq' : node C q
                  \/ exists j, j < length rest
                       /\ q = (pre ++ take (S j) rest)%list).
    { destruct Hq as [->|Hq]; [left; now left|].
      apply Hdirs in Hq as [Hq|Hq]; [left; now right|now right]. }
    destruct Hq' as [Hq'|(j & Hj & ->)].
    - left. destruct (Hnode_old q Hq') as (cq & oq & Hdq & Hoq & _).
      assert (descend (heap st3) this q = Some cq)
        by (eapply descend_adds; eauto).
      assert (X = cq) by congruence. subst cq.
      repeat split; auto. eapply lookup_lt_Some; eauto.
    - right. exists j. repeat split; auto.
      rewrite (Hdnew j Hj) in HX. congruence. }
  destruct (view_this _ _ _ Hview) as [ps Hps].
  constructor.
  - (* the instance *)
    destruct (Hold this _ Hps) as (o' & Ho' & _ & _ & _ & Hk & _).
    destruct o' as [kd' ps']. simpl in Hk. rewrite Hk in Ho' by reflexivity.
    eauto.
  - (* accessors are of fields *)
    intros f g' Hf'. apply elem_of_cons in Hf' as [[= -> ->]|Hf'].
    + left.
    + right. eapply view_sub; eauto.
  - (* no path is the beginning of another *)
    intros f1 f2 H1 H2 Hp.
    apply elem_of_cons in H1 as [->|H1]; apply elem_of_cons in H2 as [->|H2];
      auto; try (symmetry; now apply Hfree2).
    eapply view_free; eauto.
  - (* the names *)
    intros f Hf'. apply elem_of_cons in Hf' as [->|Hf']; auto.
    eapply view_names; eauto.
  - (* the containers *)
    intros q Hq. apply Hdirs in Hq as [Hq|(j & Hj & ->)].
    + destruct (view_dirs _ _ _ Hview _ Hq) as (cq & oq & Hdq & Hoq & Hcq).
      destruct (Hold _ _ Hoq) as (oq' & Hoq' & Hc' & _).
      exists cq, oq'. repeat split; auto. eapply descend_adds; eauto.
    + destruct (Hnew j Hj) as (kd & Hkd & Hck & _).
      eexists _, _. split; [now apply Hdnew|]. split; [exact Hkd|].
      exact Hck.
  - (* one path for each *)
    intros q1 q2 X H1 H2 Hd1 Hd2.
    destruct (Hclass _ _ H1 Hd1) as [(Hn1 & Ho1 & Hlt1)|(j1 & Hj1 & -> & HX1)];
      destruct (Hclass _ _ H2 Hd2) as [(Hn2 & Ho2 & Hlt2)|(j2 & Hj2 & -> & HX2)];
      try lia.
    + eapply view_inj; eauto.
    + now replace j2 with j1 by lia.
  - (* nothing else *)
    intros q X o k p Hq HX Ho Hk.
    destruct (Hclass _ _ Hq HX) as [(Hnq & Hoq & Hlt)|(j & Hj & -> & ->)].
    + destruct (Hnode_old q Hnq) as (cq & oq & Hdq & Hoq' & _).
      assert (cq = X) by congruence. subst cq.
      destruct (Hold _ _ Hoq') as (o' & Ho' & _ & _ & _ & _ & _ & Hback).
      assert (o' = o) by congruence. subst o'.
      destruct (Hback k p Hk) as [Hk'|(-> & -> & ->)].
      * destruct (view_closed _ _ _ Hview _ _ _ _ _ Hnq Hoq Hoq' Hk')
          as [[[Hne (f & Hf' & Hp)] Hc']|(f & g' & Hf' & Hs & Hp)].
        -- left. split; auto. split; auto. exists f. split; auto. now right.
        -- right. exists f, g'. split; auto. now right.
      * assert (q = pre) by (eapply view_inj; eauto). subst q.
        unfold k0, p0. destruct rest as [|k1 rest']; simpl.
        -- right. exists G, g. split; [left|]. split; auto.
           rewrite segs_snoc, Hsplit. now rewrite app_nil_r.
        -- left. split; [|eauto]. split.
           ++ intros E. apply app_eq_nil in E as [_ E]. discriminate.
           ++ exists G. split; [left|]. rewrite Hsplit.
              apply prefix_app. now exists rest'.
    + destruct (Hnew j Hj) as (kd & Hkd & _).
      unfold loc in *. rewrite Hkd in Ho. injection Ho as <-. simpl in Hk.
      destruct (rest !! S j) as [k'|] eqn:Ek.
      * simpl in Hk. destruct (String.eqb_spec k k'); [|discriminate].
        subst k'. injection Hk as <-. left. split; [|eauto]. split.
        -- intros E. apply app_eq_nil in E as [_ E]. discriminate.
        -- exists G. split; [left|]. rewrite Hsplit, <- app_assoc.
           apply prefix_app. rewrite <- (take_S_r _ _ _ Ek).
           apply prefix_take.
      * simpl in Hk. destruct (String.eqb_spec k (leaf_key G)); [|discriminate].
        subst k. injection Hk as <-. right. exists G, g.
        split; [left|]. split; auto.
        apply lookup_ge_None in Ek.
        rewrite take_ge by lia. rewrite <- Hsplit. apply segs_snoc.
  - (* the accessors *)
    intros f g' Hf'. apply elem_of_cons in Hf' as [[= -> ->]|Hf'].
    + rewrite Hsplit. destruct rest as [|k1 rest'] eqn:Er.
      * rewrite app_nil_r. eexists _, _. split; [exact Hdpre|].
        split; [exact Hobj|]. simpl. apply props_get_set_eq.
      * destruct (Hnew (length rest')) as (kd & Hkd & _); [simpl; lia|].
        rewrite (proj2 (lookup_ge_None (k1 :: rest') (S (length rest'))))
          in Hkd by (simpl; lia).
        eexists _, _. split; [|split; [exact Hkd|]].
        -- rewrite <- (take_ge (k1 :: rest') (S (length rest')))
             by (simpl; lia).
           apply Hdnew. simpl. lia.
        -- simpl. now rewrite String.eqb_refl.
    + destruct (view_fields _ _ _ Hview _ _ Hf') as (cf & o1 & Hdf & Ho1 & Hpf).
      destruct (Hold _ _ Ho1) as (o1' & Ho1' & _ & _ & _ & _ & Hfw & _).
      exists cf, o1'. repeat split; auto. eapply descend_adds; eauto.
  - (* the lengths *)
    intros q X o Hq HX Ho.
    destruct (Hclass _ _ Hq HX) as [(Hnq & Hoq & Hlt)|(j & Hj & -> & ->)].
    + destruct (Hnode_old q Hnq) as (cq & oq & Hdq & Hoq' & _).
      assert (cq = X) by congruence. subst cq.
      destruct (Hold _ _ Hoq') as (o' & Ho' & _ & _ & Hb & _).
      assert (o' = o) by congruence. subst o'.
      apply Hb. eapply view_bounds; eauto.
    + destruct (Hnew j Hj) as (kd & Hkd & _ & Hb).
      unfold loc in *. rewrite Hkd in Ho. now injection Ho as <-.
Qed.

End AddField.

Lemma view_heap C F st st' : heap st = heap st' -> view C F st -> view C F st'.
Proof.
  intros E [H1 H2 H3 H4 H5 H6 H7 H8 H9].
  constructor; try rewrite <- E; auto.
Qed.

(** The own keys of the instance of a view: the first segments of the
    paths that have a container, and the top-level fields. *)
Lemma view_own_keys C F st k :
  view C F st ->
  own_key st k
  <-> is_dir C [k] \/ exists f g, (f, g) ∈ F /\ segs f = [k].
Proof.
  intros Hview. destruct (view_this _ _ _ Hview) as [ps Hps]. split.
  - intros (ps' & p & Hps' & Hp). rewrite Hps in Hps'. injection Hps' as <-.
    destruct (view_closed _ _ _ Hview [] this (Object KObject ps) k p) as [[H _]|(f & g & H & E & _)];
      auto; [now left|right; eauto].
  - intros [Hdir|(f & g & Hf & Hs)].
    + destruct (view_dirs _ _ _ Hview _ Hdir) as (c & o & Hd & _).
      simpl in Hd. rewrite Hps in Hd. simpl in Hd.
      destruct (props_get k ps) as [p|] eqn:E; [|discriminate].
      now exists ps, p.
    + destruct (view_fields _ _ _ Hview _ _ Hf) as (c & o & Hd & Ho & Hp).
      unfold dir, leaf_key in *. rewrite Hs in *. simpl in *.
      injection Hd as <-. rewrite Hps in Ho. injection Ho as <-.
      now exists ps, (PGet g).
Qed.

(** Deleting a key that holds an accessor changes no path. *)
Lemma descend_delete_getter h (c : loc) o lk g :
  h !! c = Some o -> props_get lk (oprops o) = Some (PGet g) ->
  forall q (l : loc),
    descend (<[c := Object (okind o) (props_delete lk (oprops o))]> h) l q
    = descend h l q.
Proof.
  intros Hc Hlk. induction q as [|k q IH]; intros l; simpl; auto.
  destruct (decide (l = c)) as [->|Hne].
  - rewrite list_lookup_insert_eq by (eapply lookup_lt_Some; eauto).
    rewrite Hc. simpl. destruct (String.eqb_spec lk k) as [<-|Hk].
    + now rewrite props_get_delete_eq, Hlk.
    + rewrite props_get_delete_ne by auto.
      destruct (props_get k (oprops o)) as [[[]|]|]; auto.
  - rewrite list_lookup_insert_ne by auto. unfold loc in *.
    destruct (h !! l) as [o'|]; auto.
    destruct (props_get k (oprops o')) as [[[]|]|]; auto.
Qed.

(** The loop of [_getCursorToEndOfPath] along containers. *)
Lemma walk_descend lastKey path q :
  forall l s c,
    descend (heap s) l q = Some c ->
    walk call lastKey path q (VRef l) s = Ok (VRef c) s.
Proof.
  induction q as [|k q IH]; intros l s c; simpl descend.
  - now intros [= <-].
  - destruct (heap s !! l) as [o|] eqn:Hl; [|discriminate].
    destruct (props_get k (oprops o)) as [[v|g]|] eqn:Hk; try discriminate.
    destruct v as [| | | | | | |c1]; try discriminate.
    intros Hd. cbn [walk]. unfold bind at 1.
    rewrite (Get_data s l o k (VRef c1)) by assumption. cbn [falsy].
    unfold bind at 1.
    rewrite (Get_data s l o k (VRef c1)) by assumption. now apply IH.
Qed.

Lemma snoc_inj (q1 q2 : list string) k1 k2 :
  (q1 ++ [k1] = q2 ++ [k2])%list -> q1 = q2 /\ k1 = k2.
Proof. intros H. apply app_inj_tail in H. tauto. Qed.

Lemma node_dir C f : f ∈ C -> node C (dir f).
Proof.
  intros Hf. destruct (dir f) eqn:E; [now left|].
  right. split; [discriminate|]. exists f. split; auto. now rewrite E.
Qed.

(** Resetting a registered field of a view deletes its accessor, and
    nothing else. *)
Lemma reset_field_view C F st f g :
  view C F st -> (f, g) ∈ F ->
  exists st',
    reset_field call f st = Ok tt st'
    /\ view C (filter (fun e => e.1 <> f) F) st'
    /\ fields st' = fields st /\ values st' = values st
    /\ cached st' = cached st
    /\ unused st'
       = (if Js.includes "." f
          then unused_add (MString (marker_of f)) (unused st)
          else unused st)
    /\ forall q (l : loc), descend (heap st') l q = descend (heap st) l q.
Proof.
  intros Hview Hf.
  destruct (view_fields _ _ _ Hview _ _ Hf) as (c & o & Hd & Ho & Hp).
  assert (HfC : f ∈ C) by (eapply view_sub; eauto).
  assert (Hcont : container o).
  { destruct (dir f) eqn:E.
    - simpl in Hd. injection Hd as <-.
      destruct (view_this _ _ _ Hview) as [ps Hps].
      rewrite Hps in Ho. now injection Ho as <-.
    - destruct (view_dirs _ _ _ Hview (dir f)) as (c' & o' & Hd' & Ho' & Hc').
      { split; [now rewrite E|]. exists f. split; auto. }
      rewrite E in Hd'. congruence. }
  destruct (view_not_given C F st f (dir f) (leaf_key f) c o)
    as (_ & Hlen & Hbag); auto.
  { eapply view_names; eauto. }
  { now rewrite <- segs_snoc. }
  { now apply node_dir. }
  assert (Hnat : native_own o (leaf_key f) = false)
    by now apply container_not_native.
  set (o' := Object (okind o) (props_delete (leaf_key f) (oprops o))).
  assert (Hdel : forall s, heap s = heap st ->
            Delete (VRef c) (leaf_key f) s
            = Ok tt (set_heap (<[c := o']> (heap st)) s)).
  { intros s Hs. unfold Delete, bind, gets. rewrite Hs, Ho.
    rewrite (not_array_length _ _ Hlen), Hbag, Hnat. cbn [orb].
    unfold store, modify. now rewrite Hs. }
  assert (Hrun : exists s,
            heap s = heap st /\ fields s = fields st /\ values s = values st
            /\ cached s = cached st
            /\ unused s
               = (if Js.includes "." f
                  then unused_add (MString (marker_of f)) (unused st)
                  else unused st)
            /\ reset_field call f st
               = Ok tt (set_heap (<[c := o']> (heap st)) s)).
  { unfold reset_field. destruct (Js.includes "." f) eqn:Hinc.
    - unfold bind at 1. unfold _getCursorToEndOfPath, pop.
      fold (segs f). fold (dir f). unfold bind at 1.
      rewrite (walk_descend _ _ _ _ _ _ Hd). unfold ret at 1.
      unfold bind at 1. unfold modify at 1. simpl cobj. simpl ckey.
      fold (leaf_key f).
      eexists. repeat apply conj; [..|apply Hdel]; reflexivity.
    - destruct (segs_top f Hinc) as [Hdir Hlk]. rewrite Hdir in Hd.
      simpl in Hd. injection Hd as <-. rewrite Hlk in Hdel.
      exists st. repeat apply conj; auto. }
  destruct Hrun as (s & Hs & Hfs & Hvs & Hcs & Hus & Hrun).
  assert (Hdesc : forall q (l : loc),
            descend (<[c := o']> (heap st)) l q = descend (heap st) l q)
    by (apply (descend_delete_getter _ _ _ _ g); auto).
  eexists. split; [exact Hrun|].
  split; [|repeat apply conj; auto].
  assert (Hlook : forall l x, <[c := o']> (heap st) !! l = Some x ->
            exists x0, heap st !! l = Some x0 /\ okind x = okind x0
              /\ forall k p, props_get k (oprops x) = Some p ->
                   props_get k (oprops x0) = Some p
                   /\ ~ (l = c /\ k = leaf_key f)).
  { intros l x Hx. destruct (decide (l = c)) as [->|Hne].
    - rewrite list_lookup_insert_eq in Hx by (eapply lookup_lt_Some; eauto).
      injection Hx as <-. exists o. repeat split; auto.
      + destruct (String.eqb_spec (leaf_key f) k) as [<-|Hk].
        * simpl in H. now rewrite props_get_delete_eq in H.
        * simpl in H. now rewrite props_get_delete_ne in H.
      + intros [_ ->]. simpl in H. now rewrite props_get_delete_eq in H.
    - rewrite list_lookup_insert_ne in Hx by auto.
      exists x. repeat split; auto. intros [? _]. contradiction. }
  assert (Hkeep : forall l x0, heap st !! l = Some x0 ->
            exists x, <[c := o']> (heap st) !! l = Some x
              /\ okind x = okind x0
              /\ forall k p, props_get k (oprops x0) = Some p ->
                   ~ (l = c /\ k = leaf_key f) ->
                   props_get k (oprops x) = Some p).
  { intros l x0 Hx0. destruct (decide (l = c)) as [->|Hne].
    - rewrite list_lookup_insert_eq by (eapply lookup_lt_Some; eauto).
      rewrite Ho in Hx0. injection Hx0 as <-.
      exists o'. split; [reflexivity|]. split; [reflexivity|].
      intros k p Hk Hn. simpl. rewrite props_get_delete_ne; [exact Hk|].
      intros <-. apply Hn. auto.
    - rewrite list_lookup_insert_ne by auto.
      exists x0. repeat split; auto. }
  constructor; simpl.
  - destruct (view_this _ _ _ Hview) as [ps Hps].
    destruct (Hkeep _ _ Hps) as ([kd ps'] & Hx & Hk & _).
    simpl in Hk. subst kd. eauto.
  - intros f' g' Hin. apply list_elem_of_filter in Hin as [_ Hin].
    eapply view_sub; eauto.
  - apply (view_free _ _ _ Hview).
  - apply (view_names _ _ _ Hview).
  - intros q Hq.
    destruct (view_dirs _ _ _ Hview _ Hq) as (cq & oq & Hdq & Hoq & Hcq).
    destruct (Hkeep _ _ Hoq) as (x & Hx & Hk & _).
    exists cq, x. rewrite Hdesc. repeat split; auto.
    unfold container in *. now rewrite Hk.
  - intros q1 q2 X H1 H2. rewrite !Hdesc. apply (view_inj _ _ _ Hview); auto.
  - intros q X x k p Hq HX Hx Hk. rewrite Hdesc in HX.
    destruct (Hlook _ _ Hx) as (x0 & Hx0 & _ & Hback).
    destruct (Hback _ _ Hk) as [Hk0 Hn].
    destruct (view_closed _ _ _ Hview _ _ _ _ _ Hq HX Hx0 Hk0)
      as [H|(f' & g' & Hf' & Hsg & Hpg)]; [now left|].
    right. exists f', g'. split; auto.
    apply list_elem_of_filter. split; auto. simpl. intros ->.
    rewrite segs_snoc in Hsg. apply snoc_inj in Hsg as [Hq' Hk'].
    apply Hn. split; [|auto]. rewrite Hq' in Hd. congruence.
  - intros f' g' Hin. apply list_elem_of_filter in Hin as [Hne Hin].
    simpl in Hne.
    destruct (view_fields _ _ _ Hview _ _ Hin) as (cf & x0 & Hdf & Hx0 & Hpf).
    destruct (Hkeep _ _ Hx0) as (x & Hx & _ & Hfw).
    exists cf, x. rewrite Hdesc. repeat split; auto.
    apply Hfw; auto. intros [-> Hk]. apply Hne.
    apply segs_inj. rewrite (segs_snoc f'), (segs_snoc f), Hk. f_equal.
    eapply (view_inj _ _ _ Hview); eauto using node_dir.
    eapply node_dir, view_sub; eauto.
  - intros q X x Hq HX Hx. rewrite Hdesc in HX.
    destruct (Hlook _ _ Hx) as (x0 & Hx0 & Hkd & Hback).
    pose proof (view_bounds _ _ _ Hview _ _ _ Hq HX Hx0) as Hb.
    unfold bounded in *. rewrite Hkd. destruct (okind x0); auto.
    intros k p n Hk. apply (Hb k p n). now apply Hback.
Qed.

(** ** Structures on views *)

Lemma adds_refl h : adds h h.
Proof. intros l o H. exists o. auto. Qed.

Lemma adds_trans h1 h2 h3 : adds h1 h2 -> adds h2 h3 -> adds h1 h3.
Proof.
  intros H12 H23 l o H. destruct (H12 l o H) as (o2 & H2 & Hp2 & Hc2).
  destruct (H23 l o2 H2) as (o3 & H3 & Hp3 & Hc3).
  exists o3. split; [exact H3|]. split; [auto|].
  destruct Hc2 as [Hc2| ->]; [now left|exact Hc3].
Qed.

Lemma leaf_adds st st' v :
  adds (heap st) (heap st') -> leaf st v -> leaf st' v.
Proof.
  intros Hadds. destruct v; auto. intros (f & fps & Hl & Hj).
  destruct (Hadds _ _ Hl) as (o' & Ho' & _ & [Hc| ->]); [destruct Hc|].
  exists f, fps. auto.
Qed.

Lemma is_dir_mono C C' q :
  (forall f, f ∈ C -> f ∈ C') -> is_dir C q -> is_dir C' q.
Proof. intros H [Hq (f & Hf & Hp)]. split; eauto. Qed.

Lemma node_mono C C' q :
  (forall f, f ∈ C -> f ∈ C') -> node C q -> node C' q.
Proof. intros H [->|Hq]; [now left|right; eapply is_dir_mono; eauto]. Qed.

(** A view depends on the fields as sets. *)
Lemma view_equiv C C' F F' st :
  (forall f, f ∈ C <-> f ∈ C') -> (forall e, e ∈ F <-> e ∈ F') ->
  view C F st -> view C' F' st.
Proof.
  intros HC HF Hview.
  assert (HC1 : forall f, f ∈ C -> f ∈ C') by (intros; now apply HC).
  assert (HC2 : forall f, f ∈ C' -> f ∈ C) by (intros; now apply HC).
  constructor.
  - apply (view_this _ _ _ Hview).
  - intros f g H. apply HC1. apply HF in H. eapply view_sub; eauto.
  - intros f1 f2 H1 H2. apply (view_free _ _ _ Hview); auto.
  - intros f H. apply (view_names _ _ _ Hview); auto.
  - intros q H. apply (view_dirs _ _ _ Hview). eapply is_dir_mono; eauto.
  - intros q1 q2 c H1 H2. apply (view_inj _ _ _ Hview); eapply node_mono; eauto.
  - intros q c o k p Hq Hd Ho Hk.
    destruct (view_closed _ _ _ Hview q c o k p) as [[H1 H2]|(f & g & H1 & H2)];
      auto.
    + eapply node_mono; eauto.
    + left. split; auto. eapply is_dir_mono; eauto.
    + right. exists f, g. split; auto. now apply HF.
  - intros f g H. apply HF in H. apply (view_fields _ _ _ Hview _ _ H).
  - intros q c o Hq. apply (view_bounds _ _ _ Hview). eapply node_mono; eauto.
Qed.

Lemma elem_of_fields_add_iff x y s : y ∈ fields_add x s <-> y = x \/ y ∈ s.
Proof.
  unfold fields_add. destruct (existsb (String.eqb x) s) eqn:E.
  - split; auto. intros [->|H]; auto.
    apply existsb_exists in E as (z & Hz & Hxz).
    apply String.eqb_eq in Hxz. subst z. now apply list_elem_of_In.
  - rewrite elem_of_app, list_elem_of_singleton. tauto.
Qed.

Lemma NoDup_fields_add x s : NoDup s -> NoDup (fields_add x s).
Proof.
  intros H. unfold fields_add. destruct (existsb (String.eqb x) s) eqn:E; auto.
  apply NoDup_app. repeat split; auto.
  - intros y Hy Hx. apply list_elem_of_singleton in Hx. subst y.
    assert (existsb (String.eqb x) s = true); [|congruence].
    apply existsb_exists. exists x. split.
    + now apply list_elem_of_In.
    + apply String.eqb_refl.
  - apply NoDup_singleton.
Qed.

(** The loop of [addStructure] on a view: every entry is installed. *)
Lemma add_fields_view entries :
  forall C F st,
    view C F st ->
    NoDup entries.*1 ->
    (forall f g, f ∈ entries.*1 -> (f, g) ∉ F) ->
    prefix_free (entries.*1 ++ C) ->
    (forall f, f ∈ entries.*1 -> admissible f = true) ->
    exists st',
      for_each (add_field call) entries st = Ok tt st'
      /\ view (entries.*1 ++ C) (getters entries ++ F) st'
      /\ (forall f, f ∈ fields st' <-> f ∈ fields st \/ f ∈ entries.*1)
      /\ (NoDup (fields st) -> NoDup (fields st'))
      /\ values st' = values st
      /\ cached st' = cached st
      /\ (forall m, m ∈ unused st' -> m ∈ unused st)
      /\ adds (heap st) (heap st').
Proof.
  induction entries as [|[G r] entries IH]; intros C F st Hview Hnd Hnew Hfree Hlen.
  - exists st. simpl. repeat apply conj; auto using adds_refl.
    + intros f. rewrite elem_of_nil. tauto.
  - simpl in Hnd. apply NoDup_cons in Hnd as [HG Hnd].
    assert (HGF : forall g, (G, g) ∉ F) by (intros g; apply Hnew; left).
    destruct (add_field_view C F st Hview G HGF) with (r := r)
      as (st1 & Hrun1 & Hview1 & Hf1 & Hv1 & Hc1 & Hu1 & Ha1).
    { intros f Hf Hp. apply Hfree; auto.
      - apply elem_of_app. now right.
      - simpl. left. }
    { intros f Hf Hp. symmetry. apply Hfree; auto.
      - simpl. left.
      - apply elem_of_app. now right. }
    { apply Hlen. left. }
    destruct (IH (G :: C) ((G, _convertRangeToGetter r VUndef) :: F) st1)
      as (st' & Hrun & Hview' & Hf' & Hnd' & Hv' & Hc' & Hu' & Ha'); auto.
    { intros f g Hf Hin. apply elem_of_cons in Hin as [[= -> ->]|Hin]; auto.
      apply (Hnew f g); auto. now right. }
    { intros f1 f2 H1 H2. apply Hfree.
      - apply elem_of_app in H1 as [H1|H1].
        + simpl. right. apply elem_of_app. now left.
        + apply elem_of_cons in H1 as [->|H1]; [left|].
          simpl. right. apply elem_of_app. now right.
      - apply elem_of_app in H2 as [H2|H2].
        + simpl. right. apply elem_of_app. now left.
        + apply elem_of_cons in H2 as [->|H2]; [left|].
          simpl. right. apply elem_of_app. now right. }
    { intros f Hf. apply Hlen. now right. }
    exists st'. repeat apply conj.
    + rewrite (for_each_cons_ok _ _ _ _ _ Hrun1). exact Hrun.
    + eapply view_equiv; [| |exact Hview'].
      * intros f. simpl. rewrite !elem_of_app, !elem_of_cons, elem_of_app.
        tauto.
      * intros e. simpl. rewrite !elem_of_app, !elem_of_cons, elem_of_app.
        tauto.
    + intros f. rewrite Hf', Hf1, elem_of_fields_add_iff. simpl.
      rewrite elem_of_cons. tauto.
    + intros H. apply Hnd'. rewrite Hf1. now apply NoDup_fields_add.
    + congruence.
    + congruence.
    + auto.
    + eapply adds_trans; eauto.
Qed.

Lemma insert_entry_perm x l : insert_entry x l ≡ₚ x :: l.
Proof.
  induction l as [|y l IH]; simpl; auto.
  destruct (Js.gt y.1 x.1); auto.
  rewrite IH. apply Permutation_swap.
Qed.

Lemma sort_entries_perm l : sort_entries l ≡ₚ l.
Proof.
  unfold sort_entries. induction l as [|x l IH]; simpl; auto.
  rewrite insert_entry_perm. now constructor.
Qed.

(** [addStructure] with a clean structure, on a view that has none of its
    fields: it returns, and every field is installed along its path. *)
Lemma addStructure_view structure C F st :
  view C F st ->
  NoDup structure.*1 ->
  (forall f g, f ∈ structure.*1 -> (f, g) ∉ F) ->
  prefix_free (structure.*1 ++ C) ->
  (forall f, f ∈ structure.*1 -> admissible f = true) ->
  exists st',
    addStructure call structure st = Ok tt st'
    /\ view (structure.*1 ++ C) (getters structure ++ F) st'
    /\ (forall f, f ∈ fields st' <-> f ∈ fields st \/ f ∈ structure.*1)
    /\ (NoDup (fields st) -> NoDup (fields st'))
    /\ values st' = values st
    /\ cached st' = cached st
    /\ (forall m, m ∈ unused st' -> m ∈ unused st)
    /\ adds (heap st) (heap st').
Proof.
  intros Hview Hnd Hnew Hfree Hlen.
  pose proof (sort_entries_perm structure) as Hperm.
  assert (Hperm1 : (sort_entries structure).*1 ≡ₚ structure.*1)
    by now apply fmap_Permutation.
  assert (Hperm2 : getters (sort_entries structure) ≡ₚ getters structure)
    by now apply fmap_Permutation.
  destruct (add_fields_view (sort_entries structure) C F st)
    as (st' & Hrun & Hview' & Hf' & Hnd' & Hrest); auto.
  - now rewrite Hperm1.
  - intros f g. rewrite Hperm1. auto.
  - intros f1 f2. rewrite !elem_of_app, !Hperm1, <- !elem_of_app. apply Hfree.
  - intros f. rewrite Hperm1. auto.
  - exists st'. split; [exact Hrun|]. split; [|split; [|split; [exact Hnd'|exact Hrest]]].
    + eapply view_equiv; [| |exact Hview'].
      * intros f. now rewrite !elem_of_app, Hperm1.
      * intros e. now rewrite !elem_of_app, Hperm2.
    + intros f. now rewrite Hf', Hperm1.
Qed.

(** The loop of [resetStructure] on a view: the accessor of every field
    of the list is deleted; no path to a container changes. *)
Lemma reset_fields_view fs :
  forall C F st,
    view C F st -> NoDup fs ->
    (forall f, f ∈ fs -> exists g, (f, g) ∈ F) ->
    exists st' F',
      for_each (reset_field call) fs st = Ok tt st'
      /\ view C F' st'
      /\ (forall e, e ∈ F' <-> e ∈ F /\ e.1 ∉ fs)
      /\ fields st' = fields st /\ values st' = values st
      /\ cached st' = cached st
      /\ (forall m, m ∈ unused st'
            <-> m ∈ unused st
                \/ exists f, f ∈ fs /\ Js.includes "." f = true
                             /\ m = MString (marker_of f))
      /\ forall q (l : loc), descend (heap st') l q = descend (heap st) l q.
Proof.
  induction fs as [|f fs IH]; intros C F st Hview Hnd Hreg.
  - exists st, F. simpl. repeat apply conj; auto.
    + intros e. rewrite elem_of_nil. tauto.
    + intros m. split; auto. intros [H|(f & Hf & _)]; auto.
      now apply elem_of_nil in Hf.
  - apply NoDup_cons in Hnd as [Hf Hnd].
    destruct (Hreg f) as [g Hg]; [left|].
    destruct (reset_field_view C F st f g Hview Hg)
      as (st1 & Hrun1 & Hview1 & Hf1 & Hv1 & Hc1 & Hu1 & Hd1).
    destruct (IH C _ st1 Hview1 Hnd)
      as (st' & F' & Hrun & Hview' & HF' & Hf' & Hv' & Hc' & Hu' & Hd').
    { intros f' Hf'. destruct (Hreg f') as [g' Hg']; [now right|].
      exists g'. apply list_elem_of_filter. split; auto.
      simpl. intros ->. contradiction. }
    exists st', F'. repeat apply conj; try congruence.
    + rewrite (for_each_cons_ok _ _ _ _ _ Hrun1). exact Hrun.
    + intros e. rewrite HF', list_elem_of_filter, not_elem_of_cons. tauto.
    + intros m. rewrite Hu', Hu1. split.
      * intros [H|(f' & H1 & H2 & H3)].
        -- destruct (Js.includes "." f) eqn:Hinc; auto.
           apply elem_of_unused_add in H as [->|H]; auto.
           right. exists f. repeat split; auto. left.
        -- right. exists f'. repeat split; auto. now right.
      * intros [H|(f' & H1 & H2 & H3)].
        -- left. destruct (Js.includes "." f); auto.
           unfold unused_add. destruct (unused_has _ _); auto.
           apply elem_of_app. now left.
        -- apply elem_of_cons in H1 as [->|H1].
           ++ left. rewrite H2. subst m. unfold unused_add.
              destruct (unused_has _ _) eqn:E.
              ** apply existsb_exists in E as (z & Hz & Hxz).
                 destruct z as [z|z]; simpl in Hxz; [|discriminate].
                 apply String.eqb_eq in Hxz. subst z.
                 now apply list_elem_of_In.
              ** apply elem_of_app. right. left.
           ++ right. exists f'. auto.
Qed.

(** [resetStructure] on a view whose registry holds its fields: it
    returns, no accessor is left, every container stays where it was, and
    the unused set holds the parent path of every nested field. *)
Lemma resetStructure_view C F st :
  view C F st -> registered F st ->
  exists st',
    resetStructure call st = Ok tt st'
    /\ view C [] st'
    /\ fields st' = [] /\ cached st' = [] /\ values st' = values st
    /\ (forall m, m ∈ unused st'
          <-> exists f, f ∈ fields st /\ Js.includes "." f = true
                        /\ m = MString (marker_of f))
    /\ forall q (l : loc), descend (heap st') l q = descend (heap st) l q.
Proof.
  intros Hview [Hnd Hreg].
  set (st0 := set_cached [] (set_unused [] st)).
  destruct (reset_fields_view (fields st) C F st0)
    as (st1 & F' & Hrun & Hview1 & HF' & Hf1 & Hv1 & Hc1 & Hu1 & Hd1); auto.
  { eapply view_heap; [|exact Hview]. reflexivity. }
  { intros f Hf. now apply Hreg. }
  exists (set_fields [] st1). repeat apply conj; auto.
  - unfold resetStructure, bind, modify, gets. fold st0.
    change (fields st0) with (fields st). now rewrite Hrun.
  - apply (view_heap C [] st1); [reflexivity|].
    eapply view_equiv; [| |exact Hview1]; [tauto|].
    intros e. rewrite HF'. split; [|intros H; now apply elem_of_nil in H].
    intros [He Hne]. exfalso. apply Hne. apply Hreg. exists e.2.
    now destruct e.
  - intros m. simpl. rewrite Hu1. simpl. rewrite elem_of_nil. tauto.
Qed.

(** ** Reading through a view *)

Lemma read_path_app keys1 keys2 base st :
  read_path call (keys1 ++ keys2) base st
  = match read_path call keys1 base st with
    | Ok v st' => read_path call keys2 v st'
    | Throw e st' => Throw e st'
    | Beyond st' => Beyond st'
    end.
Proof.
  revert base st. induction keys1 as [|k keys1 IH]; intros base st; simpl; auto.
  unfold bind. destruct (Get call base k st); auto.
Qed.

Lemma read_path_descend q :
  forall (l : loc) st c,
    descend (heap st) l q = Some c ->
    read_path call q (VRef l) st = Ok (VRef c) st.
Proof.
  induction q as [|k q IH]; intros l st c; simpl descend.
  - now intros [= <-].
  - destruct (heap st !! l) as [o|] eqn:Hl; [|discriminate].
    destruct (props_get k (oprops o)) as [[v|g]|] eqn:Hk; try discriminate.
    destruct v as [| | | | | | |c1]; try discriminate.
    intros Hd. cbn [read_path]. unfold bind.
    rewrite (Get_data st l o k (VRef c1)) by assumption. now apply IH.
Qed.

(** Reading a field of a view along its path runs its accessor. *)
Lemma view_read C F st f g :
  view C F st -> (f, g) ∈ F ->
  read_path call (segs f) (VRef this) st = invoke call g st.
Proof.
  intros Hview Hf.
  destruct (view_fields _ _ _ Hview _ _ Hf) as (c & o & Hd & Ho & Hp).
  rewrite segs_snoc, read_path_app, (read_path_descend _ _ _ _ Hd).
  cbn [read_path]. unfold bind.
  rewrite (Get_own_getter st c o (leaf_key f) g) by assumption.
  now destruct (invoke call g st).
Qed.

Lemma view_blank st : blank st -> view [] [] st /\ registered [] st.
Proof.
  intros [Hthis Hfields].
  assert (Hnode : forall q, node [] q -> q = []).
  { intros q [->|[_ (f & Hf & _)]]; auto. now apply elem_of_nil in Hf. }
  split; [constructor|split].
  - eauto.
  - intros f g H. now apply elem_of_nil in H.
  - intros f1 f2 H. now apply elem_of_nil in H.
  - intros f H. now apply elem_of_nil in H.
  - intros q [_ (f & Hf & _)]. now apply elem_of_nil in Hf.
  - intros q1 q2 c H1 H2 _ _. apply Hnode in H1, H2. congruence.
  - intros q c o k p Hq Hd Ho Hk. apply Hnode in Hq. subst q.
    simpl in Hd. injection Hd as <-. rewrite Hthis in Ho. injection Ho as <-.
    discriminate.
  - intros f g H. now apply elem_of_nil in H.
  - intros q c o Hq Hd Ho. apply Hnode in Hq. subst q.
    simpl in Hd. injection Hd as <-. rewrite Hthis in Ho. now injection Ho as <-.
  - rewrite Hfields. constructor.
  - intros f. rewrite Hfields. split.
    + intros H. now apply elem_of_nil in H.
    + intros [g H]. now apply elem_of_nil in H.
Qed.

Lemma elem_of_getters name g structure :
  (name, g) ∈ getters structure
  <-> exists r, (name, r) ∈ structure /\ g = _convertRangeToGetter r VUndef.
Proof.
  unfold getters. rewrite list_elem_of_fmap. split.
  - intros ([n r] & [= -> ->] & H). eauto.
  - intros (r & H & ->). exists (name, r). auto.
Qed.

Lemma elem_of_names name (structure : list (string * range)) :
  name ∈ structure.*1 <-> exists r, (name, r) ∈ structure.
Proof.
  rewrite list_elem_of_fmap. split.
  - intros ([n r] & -> & H). eauto.
  - intros (r & H). exists (name, r). auto.
Qed.

(** [addStructure] of a clean structure on a blank instance. *)
Lemma addStructure_blank structure st :
  blank st -> clean structure ->
  exists st',
    addStructure call structure st = Ok tt st'
    /\ view structure.*1 (getters structure) st'
    /\ registered (getters structure) st'
    /\ values st' = values st
    /\ cached st' = cached st
    /\ (forall m, m ∈ unused st' -> m ∈ unused st)
    /\ adds (heap st) (heap st').
Proof.
  intros Hblank (Hnd & Hfree & Hlen).
  destruct (view_blank st Hblank) as [Hview [Hnd0 Hreg0]].
  destruct (addStructure_view structure [] [] st)
    as (st' & Hrun & Hview' & Hf' & Hnd' & Hrest); auto.
  { intros f g _ H. now apply elem_of_nil in H. }
  { now rewrite app_nil_r. }
  rewrite !app_nil_r in Hview'.
  exists st'. split; [exact Hrun|]. split; [exact Hview'|].
  split; [|exact Hrest]. split; [now apply Hnd'|].
  intros f. rewrite Hf', Hreg0, elem_of_names. split.
  - intros [[g H]|[r H]]; [now apply elem_of_nil in H|].
    eexists. apply elem_of_getters. eauto.
  - intros [g H]. apply elem_of_getters in H as (r & H & _). eauto.
Qed.

(** On a blank instance, [addStructure] of a clean structure returns, and
    from then on, whatever values are set, every declared field reads
    along its path as its range spec says: in particular a field declared
    with a single index [i] reads the element [i] of the current values,
    at any depth. *)
Theorem declared_fields_read structure st :
  blank st -> clean structure ->
  exists st',
    addStructure call structure st = Ok tt st'
    /\ forall vs name r,
         (name, r) ∈ structure ->
         let st'' := state_of (setValues vs st') in
         read_path call (segs name) (VRef this) st''
         = invoke call (_convertRangeToGetter r VUndef) st''
         /\ (forall i, r = RIndex i ->
               read_path call (segs name) (VRef this) st''
               = Ok (index_value vs i) st'').
Proof.
  intros Hblank Hclean.
  destruct (addStructure_blank structure st Hblank Hclean)
    as (st' & Hrun & Hview & _).
  exists st'. split; [exact Hrun|]. intros vs name r Hin st''.
  assert (Hread : read_path call (segs name) (VRef this) st''
                  = invoke call (_convertRangeToGetter r VUndef) st'').
  { apply (view_read structure.*1 (getters structure)).
    - eapply view_heap; [|exact Hview]. reflexivity.
    - apply elem_of_getters. eauto. }
  split; [exact Hread|]. intros i ->. rewrite Hread. reflexivity.
Qed.

(** C1 (as amended).  On a new instance, [addStructure] of a structure
    whose field names are distinct, none the beginning of another, and
    admissible, returns; and from then on, whatever value sequence [vs] is
    set, a field declared with the single index [i], at whatever depth,
    reads along its path the element [i] of [vs] when [0 <= i < length
    vs], and [undefined] otherwise.  A negative single index reads
    [undefined]: it does not count from the end. *)
Theorem single_index_read structure st :
  blank st -> clean structure ->
  exists st',
    addStructure call structure st = Ok tt st'
    /\ forall vs name i,
         (name, RIndex i) ∈ structure ->
         read_path call (segs name) (VRef this) (state_of (setValues vs st'))
         = Ok (if ((0 <=? i) && (i <? Z.of_nat (length vs)))%Z
               then nth (Z.to_nat i) vs VUndef
               else VUndef)
              (state_of (setValues vs st')).
Proof.
  intros Hblank Hclean.
  destruct (addStructure_blank structure st Hblank Hclean)
    as (st' & Hrun & Hview & _).
  exists st'. split; [exact Hrun|]. intros vs name i Hin.
  rewrite (view_read structure.*1 (getters structure) _ name (GIndex i)).
  - simpl. unfold bind, gets, ret. simpl. now rewrite index_value_spec.
  - eapply view_heap; [|exact Hview]. reflexivity.
  - apply elem_of_getters. exists (RIndex i). auto.
Qed.

(** ** What a reset leaves, and declaring again *)

(** Whatever is reached from the instance through containers is a node
    of the view. *)
Lemma descend_node C F st q :
  view C F st ->
  forall c, descend (heap st) this q = Some c -> node C q.
Proof.
  intros Hview. induction q as [|k q IH] using rev_ind; intros c Hd.
  - now left.
  - rewrite descend_app in Hd.
    destruct (descend (heap st) this q) as [c1|] eqn:Hq; [|discriminate].
    simpl in Hd. destruct (heap st !! c1) as [o|] eqn:Ho; [|discriminate].
    destruct (props_get k (oprops o)) as [p|] eqn:Hk; [|discriminate].
    destruct (view_closed _ _ _ Hview q c1 o k p (IH _ eq_refl) Hq Ho Hk)
      as [[Hdir _]|(f & g & _ & _ & ->)]; [now right|discriminate].
Qed.

Lemma segs_single f k :
  segs f = [k] <-> Js.includes "." f = false /\ f = k.
Proof.
  split.
  - intros H. destruct (Js.includes "." f) eqn:Hinc.
    + apply split_sep_length in Hinc. fold (segs f) in Hinc.
      rewrite H in Hinc. simpl in Hinc. lia.
    + split; auto. unfold segs in H. rewrite (split_no_sep _ _ Hinc) in H.
      congruence.
  - intros [Hinc <-]. apply split_no_sep, Hinc.
Qed.

Lemma dir_nested f :
  Js.includes "." f = true ->
  exists k rest, dir f = k :: rest /\ first_key f = Some k.
Proof.
  intros Hinc. apply split_sep_length in Hinc. fold (segs f) in Hinc.
  unfold first_key. rewrite (segs_snoc f) in *. rewrite length_app in Hinc.
  simpl in Hinc. destruct (dir f) as [|k rest]; simpl in *; [lia|]. eauto.
Qed.

Lemma is_dir_single C k :
  is_dir C [k]
  <-> exists f, f ∈ C /\ Js.includes "." f = true /\ first_key f = Some k.
Proof.
  split.
  - intros [_ (f & Hf & rest & Hrest)]. exists f. split; auto.
    destruct (Js.includes "." f) eqn:Hinc.
    + split; auto. unfold first_key. now rewrite segs_snoc, Hrest.
    + destruct (segs_top f Hinc) as [Hdir _]. rewrite Hdir in Hrest.
      discriminate.
  - intros (f & Hf & Hinc & Hk). split; [discriminate|].
    exists f. split; auto.
    destruct (dir_nested f Hinc) as (k' & rest & Hdir & Hk').
    rewrite Hk in Hk'. injection Hk' as <-. rewrite Hdir. now exists rest.
Qed.

(** A field of a view that has no accessor: its container is there, and
    lacks its key. *)
Lemma view_no_leaf C F st f :
  view C F st -> f ∈ C -> (forall g, (f, g) ∉ F) ->
  exists c o,
    descend (heap st) this (dir f) = Some c /\ heap st !! c = Some o
    /\ props_get (leaf_key f) (oprops o) = None.
Proof.
  intros Hview Hf HF.
  assert (Hnode : node C (dir f)) by now apply node_dir.
  assert (Hc : exists c o, descend (heap st) this (dir f) = Some c
                           /\ heap st !! c = Some o).
  { destruct Hnode as [E|Hdir].
    - rewrite E. destruct (view_this _ _ _ Hview) as [ps Hps].
      exists this. eauto.
    - destruct (view_dirs _ _ _ Hview _ Hdir) as (c & o & Hd & Ho & _). eauto. }
  destruct Hc as (c & o & Hd & Ho). exists c, o. repeat split; auto.
  destruct (props_get (leaf_key f) (oprops o)) as [p|] eqn:Hk; auto.
  exfalso.
  destruct (view_closed _ _ _ Hview _ _ _ _ _ Hnode Hd Ho Hk)
    as [[[_ (f' & Hf' & Hp)] _]|(f' & g & Hf' & Hsegs & _)].
  - rewrite <- segs_snoc in Hp.
    assert (f = f').
    { apply (view_free _ _ _ Hview); auto.
      etransitivity; [exact Hp|]. rewrite (segs_snoc f') at 1.
      now exists [leaf_key f']. }
    subst f'. apply prefix_length in Hp. rewrite (segs_snoc f) in Hp at 1.
    rewrite length_app in Hp. simpl in Hp. lia.
  - rewrite <- segs_snoc in Hsegs. apply segs_inj in Hsegs. subst f'.
    now apply (HF g).
Qed.

Lemma view_container C F st f q :
  view C F st -> f ∈ C -> q `prefix_of` dir f ->
  exists c, descend (heap st) this q = Some c.
Proof.
  intros Hview Hf Hq. destruct q as [|k q]; [simpl; eauto|].
  destruct (view_dirs _ _ _ Hview (k :: q)) as (c & _ & Hd & _); eauto.
  split; [discriminate|eauto].
Qed.

(** On a blank instance, [addStructure] of a clean structure and then
    [resetStructure]: both return; the registry and the cache are empty;
    the unused set holds the parent path of every nested field; every
    container stays, the same object at the same path, without the key of
    the field; so the own keys of the instance are the first keys of the
    nested fields. *)
Theorem resetStructure_keeps_containers structure st :
  blank st -> clean structure ->
  exists st1 st2,
    addStructure call structure st = Ok tt st1
    /\ resetStructure call st1 = Ok tt st2
    /\ fields st2 = [] /\ cached st2 = [] /\ values st2 = values st
    /\ (forall m, m ∈ unused st2
          <-> exists f, f ∈ structure.*1 /\ Js.includes "." f = true
                        /\ m = MString (marker_of f))
    /\ (forall k, own_key st2 k
          <-> exists f, f ∈ structure.*1 /\ Js.includes "." f = true
                        /\ first_key f = Some k)
    /\ forall f, f ∈ structure.*1 ->
         exists c o,
           descend (heap st1) this (dir f) = Some c
           /\ descend (heap st2) this (dir f) = Some c
           /\ heap st2 !! c = Some o
           /\ props_get (leaf_key f) (oprops o) = None.
Proof.
  intros Hblank Hclean.
  destruct (addStructure_blank structure st Hblank Hclean)
    as (st1 & Hrun1 & Hview1 & Hreg1 & Hv1 & _).
  destruct (resetStructure_view _ _ st1 Hview1 Hreg1)
    as (st2 & Hrun2 & Hview2 & Hf2 & Hc2 & Hv2 & Hu2 & Hd2).
  exists st1, st2. repeat apply conj; auto; try congruence.
  - intros m. rewrite Hu2. destruct Hreg1 as [_ Hreg1]. split.
    + intros (f & Hf & H). exists f. split; auto.
      apply Hreg1 in Hf as [g Hg]. apply elem_of_getters in Hg as (r & Hr & _).
      apply elem_of_names. eauto.
    + intros (f & Hf & H). exists f. split; auto.
      apply Hreg1. apply elem_of_names in Hf as [r Hr].
      eexists. apply elem_of_getters. eauto.
  - intros k. rewrite (view_own_keys _ _ _ k Hview2), is_dir_single.
    split; [|now left]. intros [H|(f & g & H & _)]; auto.
    now apply elem_of_nil in H.
  - intros f Hf.
    destruct (view_no_leaf _ _ _ f Hview2 Hf) as (c & o & Hd & Ho & Hk).
    { intros g H. now apply elem_of_nil in H. }
    exists c, o. repeat split; auto. now rewrite <- Hd2.
Qed.

(** C5 (as amended).  [structure1] is declared on a new instance, then
    [resetStructure()] and [addStructure(structure2)] are called, where
    no field path of the two structures goes beyond another.  The three
    calls return.  The registry holds the fields of [structure2], and
    each reads along its path as its range spec says.  Every property of
    the instance and of the containers below it is the accessor of a
    field of [structure2], or the link to a container of a nested field
    of one of the two structures: no field of [structure1] is left, but
    every container made for it is, the same object at the same path.  So
    the own keys of the instance are the first keys of the fields of
    [structure2] and of the nested fields of [structure1]. *)
Theorem reset_then_add structure1 structure2 st :
  blank st -> clean structure1 -> clean structure2 ->
  prefix_free (structure2.*1 ++ structure1.*1) ->
  exists st1 st2 st3,
    addStructure call structure1 st = Ok tt st1
    /\ resetStructure call st1 = Ok tt st2
    /\ addStructure call structure2 st2 = Ok tt st3
    /\ (forall f, f ∈ fields st3 <-> f ∈ structure2.*1)
    /\ (forall name r, (name, r) ∈ structure2 ->
          read_path call (segs name) (VRef this) st3
          = invoke call (_convertRangeToGetter r VUndef) st3)
    /\ (forall q c o k p,
          descend (heap st3) this q = Some c -> heap st3 !! c = Some o ->
          props_get k (oprops o) = Some p ->
          (exists name r,
             (name, r) ∈ structure2 /\ segs name = (q ++ [k])%list
             /\ p = PGet (_convertRangeToGetter r VUndef))
          \/ (exists c',
                p = PData (VRef c')
                /\ is_dir (structure2.*1 ++ structure1.*1) (q ++ [k])))
    /\ (forall f q, f ∈ structure1.*1 -> q `prefix_of` dir f ->
          exists c, descend (heap st1) this q = Some c
                    /\ descend (heap st3) this q = Some c)
    /\ forall k, own_key st3 k
         <-> (exists f, f ∈ structure2.*1 /\ first_key f = Some k)
             \/ (exists f, f ∈ structure1.*1 /\ Js.includes "." f = true
                           /\ first_key f = Some k).
Proof.
  intros Hblank Hclean1 Hclean2 Hfree.
  destruct (addStructure_blank structure1 st Hblank Hclean1)
    as (st1 & Hrun1 & Hview1 & Hreg1 & _).
  destruct (resetStructure_view _ _ st1 Hview1 Hreg1)
    as (st2 & Hrun2 & Hview2 & Hf2 & _ & _ & _ & Hd2).
  destruct Hclean2 as (Hnd2 & _ & Hlen2).
  destruct (addStructure_view structure2 _ _ st2 Hview2)
    as (st3 & Hrun3 & Hview3 & Hf3 & _ & _ & _ & _ & Ha3); auto.
  { intros f g _ H. now apply elem_of_nil in H. }
  rewrite app_nil_r in Hview3.
  exists st1, st2, st3. repeat apply conj; auto.
  - intros f. rewrite Hf3, Hf2, elem_of_nil. tauto.
  - intros name r Hin. eapply view_read; [exact Hview3|].
    apply elem_of_getters. eauto.
  - intros q c o k p Hd Ho Hk.
    assert (Hn : node (structure2.*1 ++ structure1.*1) q)
      by (eapply descend_node; eauto).
    destruct (view_closed _ _ _ Hview3 q c o k p Hn Hd Ho Hk)
      as [[H1 [c' ->]]|(f & g & Hf & Hs & ->)].
    + right. eauto.
    + left. apply elem_of_getters in Hf as (r & Hr & ->). eauto.
  - intros f q Hf Hq.
    destruct (view_container _ _ _ f q Hview1 Hf Hq) as [c Hc].
    exists c. split; auto. eapply descend_adds; [exact Ha3|].
    now rewrite Hd2.
  - intros k. rewrite (view_own_keys _ _ _ k Hview3), is_dir_single. split.
    + intros [(f & Hf & Hinc & Hk)|(f & g & Hf & Hs)].
      * apply elem_of_app in Hf as [Hf|Hf]; [left|right]; eauto.
      * left. exists f. split.
        -- apply elem_of_getters in Hf as (r & Hr & _).
           apply elem_of_names. eauto.
        -- unfold first_key. now rewrite Hs.
    + intros [(f & Hf & Hk)|(f & Hf & Hinc & Hk)].
      * destruct (Js.includes "." f) eqn:Hinc.
        -- left. exists f. rewrite elem_of_app. auto.
        -- right. apply elem_of_names in Hf as [r Hr].
           exists f, (_convertRangeToGetter r VUndef).
           split; [apply elem_of_getters; eauto|].
           unfold first_key, segs in *.
           rewrite (split_no_sep _ _ Hinc) in *. simpl in Hk. congruence.
      * left. exists f. rewrite elem_of_app. auto.
Qed.
(** ** Clean structures, by computation *)

Lemma prefix_b_spec a b : prefix_b a b = true <-> a `prefix_of` b.
Proof.
  revert b. induction a as [|x a IH]; intros b; simpl.
  - split; auto. intros _. apply prefix_nil.
  - destruct b as [|y b].
    + split; [discriminate|]. intros H. now apply prefix_nil_inv in H.
    + rewrite andb_true_iff, IH, String.eqb_eq. split.
      * intros [-> H]. now apply prefix_cons.
      * intros H. split; [eapply prefix_cons_inv_1|eapply prefix_cons_inv_2];
          eauto.
Qed.

Lemma prefix_free_b_spec C : prefix_free_b C = true -> prefix_free C.
Proof.
  unfold prefix_free_b. rewrite forallb_forall. intros H f1 f2 H1 H2 Hp.
  apply list_elem_of_In in H1, H2. specialize (H f1 H1).
  rewrite forallb_forall in H. specialize (H f2 H2).
  apply orb_true_iff in H as [H|H].
  - apply negb_true_iff in H. apply prefix_b_spec in Hp. congruence.
  - now apply String.eqb_eq.
Qed.

Lemma nodup_b_spec l : nodup_b l = true -> NoDup l.
Proof.
  induction l as [|x l IH]; simpl; [constructor|].
  rewrite andb_true_iff, negb_true_iff. intros [Hx Hl].
  constructor; auto. intros Hin. apply list_elem_of_In in Hin.
  assert (existsb (String.eqb x) l = true); [|congruence].
  apply existsb_exists. exists x. split; auto. apply String.eqb_refl.
Qed.

Lemma clean_b_spec structure : clean_b structure = true -> clean structure.
Proof.
  unfold clean_b. rewrite !andb_true_iff. intros [[H1 H2] H3].
  split; [now apply nodup_b_spec|]. split; [now apply prefix_free_b_spec|].
  intros f Hf. rewrite forallb_forall in H3. apply H3.
  now apply list_elem_of_In.
Qed.
(** ** Export *)

Lemma serialize_S depth stack key value :
  serialize call (S depth) stack key value
  = (value <-
       (match value with
        | VRef _ =>
            toJSON <- Get call value "toJSON" ;;
            h <- gets heap ;;
            match callable h toJSON with
            | Some f => apply call f (VStr key)
            | None => ret value
            end
        | _ => ret value
        end) ;;
     match value with
     | VUndef => ret None
     | VNull => ret (Some JNull)
     | VBool b => ret (Some (JBool b))
     | VNum n => ret (Some (JNum n))
     | VNaN | VInf _ => ret (Some JNull)
     | VStr s => ret (Some (JStr s))
     | VRef l =>
         h <- gets heap ;;
         match h !! l with
         | None => ret None
         | Some o =>
             match okind o with
             | KFunction _ => ret None
             | KArray len =>
                 if existsb (Nat.eqb l) stack then throw TypeError
                 else
                   items <- map_m (fun k =>
                       v <- Get call value k ;;
                       r <- serialize call depth (l :: stack) k v ;;
                       ret (default JNull r))
                     (indices len) ;;
                   ret (Some (JArr items))
             | KObject =>
                 if existsb (Nat.eqb l) stack then throw TypeError
                 else
                   members <- map_m (fun k =>
                       v <- Get call value k ;;
                       r <- serialize call depth (l :: stack) k v ;;
                       ret (option_map (pair k) r))
                     (own_keys (oprops o)) ;;
                   ret (Some (JObj (omap id members)))
             end
         end
     end).
Proof. reflexivity. Qed.

Lemma builtin_toJSON h : Js.builtin h "toJSON" = false.
Proof. destruct h; reflexivity. Qed.

Lemma Get_toJSON_absent s l o :
  heap s !! l = Some o -> props_get "toJSON" (oprops o) = None ->
  Get call (VRef l) "toJSON" s = Ok VUndef s.
Proof.
  intros Hl Hj. apply (Get_absent s l o); auto; try discriminate.
  unfold given. rewrite bag_ne by discriminate. apply builtin_toJSON.
Qed.

(** The prologue of [serialize] on an object that has no [toJSON]. *)
Lemma serialize_object depth stack key s l o :
  heap s !! l = Some o -> props_get "toJSON" (oprops o) = None ->
  serialize call (S depth) stack key (VRef l) s
  = match okind o with
    | KFunction _ => Ok None s
    | KArray len =>
        if existsb (Nat.eqb l) stack then Throw TypeError s
        else
          (items <- map_m (fun k =>
               v <- Get call (VRef l) k ;;
               r <- serialize call depth (l :: stack) k v ;;
               ret (default JNull r))
             (indices len) ;;
           ret (Some (JArr items))) s
    | KObject =>
        if existsb (Nat.eqb l) stack then Throw TypeError s
        else
          (members <- map_m (fun k =>
               v <- Get call (VRef l) k ;;
               r <- serialize call depth (l :: stack) k v ;;
               ret (option_map (pair k) r))
             (own_keys (oprops o)) ;;
           ret (Some (JObj (omap id members)))) s
    end.
Proof.
  intros Hl Hj. rewrite serialize_S. unfold bind at 1. unfold bind at 1.
  rewrite (Get_toJSON_absent s l o) by assumption.
  unfold bind at 1. unfold gets at 1.
  change (callable (heap s) VUndef) with (@None fid). cbv beta iota.
  unfold ret at 1. unfold bind at 1. unfold gets at 1. rewrite Hl.
  destruct (okind o); try reflexivity;
    destruct (existsb (Nat.eqb l) stack); reflexivity.
Qed.

Lemma leaf_extends st s v : extends st s -> leaf st v -> leaf s v.
Proof.
  intros Hext. destruct v; auto. intros (f & fps & Hl & Hj).
  exists f, fps. split; auto. eapply extends_lookup; eauto.
Qed.

(** A leaf is exported as its image. *)
Lemma serialize_leaf depth stack key s v :
  leaf s v -> serialize call (S depth) stack key v s = Ok (json_of_leaf v) s.
Proof.
  intros Hv. destruct v; try reflexivity.
  destruct Hv as (f & fps & Hl & Hj).
  now rewrite (serialize_object depth stack key s l _ Hl Hj).
Qed.

(** A loop whose every turn returns what [R] says, and keeps [I]. *)
Lemma map_m_Forall2 {A B X} (I : state -> Prop) (f : A -> M B) (R : X -> B) ks :
  forall xs,
    Forall2 (fun k x => forall s, I s -> exists s', f k s = Ok (R x) s' /\ I s')
      ks xs ->
    forall s, I s -> exists s', map_m f ks s = Ok (map R xs) s' /\ I s'.
Proof.
  induction ks as [|k ks IH]; intros xs H s Hs.
  - apply Forall2_nil_inv_l in H as ->. exists s. auto.
  - apply Forall2_cons_inv_l in H as (x & xs' & Hx & Hxs & ->).
    destruct (Hx s Hs) as (s1 & E1 & Hs1).
    destruct (IH xs' Hxs s1 Hs1) as (s2 & E2 & Hs2).
    exists s2. split; auto. simpl. unfold bind. now rewrite E1, E2.
Qed.

Lemma map_m_each {A B} (I : state -> Prop) (f : A -> M B) (R : A -> B) ks :
  (forall k, k ∈ ks -> forall s, I s -> exists s', f k s = Ok (R k) s' /\ I s') ->
  forall s, I s -> exists s', map_m f ks s = Ok (map R ks) s' /\ I s'.
Proof.
  intros H. apply map_m_Forall2. apply Forall2_same_length_lookup.
  split; auto. intros i k k' Hk Hk'. assert (k' = k) by congruence. subst k'.
  apply H. eapply list_elem_of_lookup_2; eauto.
Qed.

Lemma omap_id_fmap {A B} (g : A -> option B) l : omap id (map g l) = omap g l.
Proof.
  induction l as [|x l IH]; [reflexivity|].
  cbn. destruct (g x); cbn; [f_equal|]; exact IH.
Qed.

(** *** Indices *)

Lemma to_uint_nonnil n : N.to_uint n <> Decimal.Nil.
Proof.
  destruct n; [discriminate|]. apply DecimalPos.Unsigned.to_uint_nonnil.
Qed.

Lemma of_N_inj n m : Js.of_N n = Js.of_N m -> n = m.
Proof.
  unfold Js.of_N. intros H. apply DecimalN.Unsigned.to_uint_inj.
  pose proof (NilZero.usu _ (to_uint_nonnil n)) as Hn.
  pose proof (NilZero.usu _ (to_uint_nonnil m)) as Hm.
  rewrite H in Hn. congruence.
Qed.

Lemma of_N_digit n :
  exists c s, Js.of_N n = String c s /\ Js.digit 10 c <> None.
Proof.
  unfold Js.of_N. pose proof (to_uint_nonnil n) as H.
  destruct (N.to_uint n); [contradiction|..]; simpl;
    eexists _, _; (split; [reflexivity|discriminate]).
Qed.

Lemma builtin_no_digit h k c s :
  Js.builtin h k = true -> k = String c s -> Js.digit 10 c = None.
Proof.
  unfold Js.builtin. intros H ->. apply existsb_exists in H as (m & Hm & E).
  apply String.eqb_eq in E. subst m.
  assert (Hall : forallb (fun m => match m with
                                   | String c _ =>
                                       match Js.digit 10 c with
                                       | None => true
                                       | Some _ => false
                                       end
                                   | EmptyString => true
                                   end) (Js.members h) = true)
    by (destruct h; vm_compute; reflexivity).
  rewrite forallb_forall in Hall. apply Hall in Hm.
  now destruct (Js.digit 10 c).
Qed.

(** An index is not given to an object that is not the instance. *)
Lemma given_index l o n :
  l <> this -> given l o (Js.of_N n) = false /\ Js.of_N n <> "length".
Proof.
  intros Hl. destruct (of_N_digit n) as (c & s & E & Hc). split.
  - unfold given. rewrite bag_not_this by assumption.
    destruct (Js.builtin _ _) eqn:Eb; auto.
    now apply (builtin_no_digit _ _ c s) in Eb.
  - rewrite E. intros [= -> _]. now apply Hc.
Qed.

Lemma indices_lookup len i :
  i < N.to_nat len -> indices len !! i = Some (Js.of_N (N.of_nat i)).
Proof.
  intros Hi. unfold indices.
  now rewrite list_lookup_fmap, lookup_seq_lt by lia.
Qed.

Lemma elem_of_indices len k :
  k ∈ indices len <-> exists n, (n < len)%N /\ k = Js.of_N n.
Proof.
  unfold indices. rewrite list_elem_of_fmap. split.
  - intros (i & -> & Hi). apply elem_of_seq in Hi.
    exists (N.of_nat i). split; auto. lia.
  - intros (n & Hn & ->). exists (N.to_nat n). split.
    + now rewrite N2Nat.id.
    + apply elem_of_seq. lia.
Qed.

Lemma array_index_canonical k n : Js.array_index k = Some n -> Js.of_N n = k.
Proof.
  unfold Js.array_index. destruct (NilEmpty.uint_of_string k); [|discriminate].
  destruct (String.eqb_spec (Js.of_N (N.of_uint u)) k); simpl; [|discriminate].
  destruct (_ <? _)%N; [|discriminate]. now intros [= <-].
Qed.

(** *** The own keys *)

Lemma elem_of_insert_N x y l : y ∈ insert_N x l <-> y = x \/ y ∈ l.
Proof.
  induction l as [|z l IH]; simpl.
  - rewrite list_elem_of_singleton, elem_of_nil. tauto.
  - destruct (x <=? z)%N; rewrite !elem_of_cons; [tauto|].
    rewrite IH. tauto.
Qed.

Lemma elem_of_sorted_N y l : y ∈ foldr insert_N [] l <-> y ∈ l.
Proof.
  induction l as [|x l IH]; simpl; [tauto|].
  rewrite elem_of_insert_N, elem_of_cons, IH. tauto.
Qed.

Lemma elem_of_keys k (ps : list (string * prop)) :
  k ∈ map fst ps <-> exists p, props_get k ps = Some p.
Proof.
  induction ps as [|[k' p'] ps IH]; simpl.
  - rewrite elem_of_nil. split; [tauto|]. intros [p H]. discriminate.
  - rewrite elem_of_cons, IH. destruct (String.eqb_spec k k'); split; eauto.
    intros [|]; [contradiction|auto].
Qed.

Lemma elem_of_own_keys k ps :
  k ∈ own_keys ps <-> exists p, props_get k ps = Some p.
Proof.
  rewrite <- elem_of_keys. unfold own_keys.
  rewrite elem_of_app, list_elem_of_fmap, list_elem_of_filter. split.
  - intros [(n & -> & Hn)|[_ H]]; auto.
    apply elem_of_sorted_N, list_elem_of_omap in Hn as (k' & Hk' & Hidx).
    now rewrite (array_index_canonical _ _ Hidx).
  - intros Hk. destruct (Js.array_index k) as [n|] eqn:E; [left|right; auto].
    exists n. split; [symmetry; now apply array_index_canonical|].
    apply elem_of_sorted_N, list_elem_of_omap. eauto.
Qed.

(** *** A slice of leaves *)

Lemma props_get_imap_ne k (vs : list value) j :
  (forall i, k <> Js.of_N (N.of_nat (j + i))) ->
  props_get k (imap (fun i v => (Js.of_N (N.of_nat (j + i)), PData v)) vs)
  = None.
Proof.
  revert j. induction vs as [|v vs IH]; intros j Hk; simpl; auto.
  destruct (String.eqb_spec k (Js.of_N (N.of_nat (j + 0)))) as [E|_].
  - now apply Hk in E.
  - rewrite (imap_ext _ (fun i v => (Js.of_N (N.of_nat (S j + i)), PData v)))
      by (intros; simpl; do 3 f_equal; lia).
    apply IH. intros i. replace (S j + i) with (j + S i) by lia. apply Hk.
Qed.

Lemma props_get_imap (vs : list value) j i v :
  vs !! i = Some v ->
  props_get (Js.of_N (N.of_nat (j + i)))
    (imap (fun i v => (Js.of_N (N.of_nat (j + i)), PData v)) vs)
  = Some (PData v).
Proof.
  revert j i. induction vs as [|w vs IH]; intros j i Hi; [discriminate|].
  simpl. destruct i as [|i].
  - injection Hi as ->. now rewrite String.eqb_refl.
  - destruct (String.eqb_spec (Js.of_N (N.of_nat (j + S i)))
                (Js.of_N (N.of_nat (j + 0)))) as [E|_].
    + apply of_N_inj in E. lia.
    + rewrite (imap_ext _ (fun i v => (Js.of_N (N.of_nat (S j + i)), PData v)))
        by (intros; simpl; do 3 f_equal; lia).
      replace (j + S i) with (S j + i) by lia. now apply IH.
Qed.

Lemma array_of_get vs i v :
  vs !! i = Some v ->
  props_get (Js.of_N (N.of_nat i)) (oprops (array_of vs)) = Some (PData v).
Proof. intros H. apply (props_get_imap vs 0 i v H). Qed.

Lemma array_of_toJSON vs : props_get "toJSON" (oprops (array_of vs)) = None.
Proof.
  apply (props_get_imap_ne "toJSON" vs 0). intros i E.
  destruct (of_N_digit (N.of_nat (0 + i))) as (c & s & E' & Hc).
  rewrite E' in E. injection E as <- _. now apply Hc.
Qed.

(** A new array of leaves is exported as the list of their images,
    [null] for an element that has none. *)
Lemma serialize_array_of depth stack key s a vs :
  heap s !! a = Some (array_of vs) -> a ∉ stack ->
  Forall (leaf s) vs ->
  serialize call (S (S depth)) stack key (VRef a) s
  = Ok (Some (JArr (map (fun v => default JNull (json_of_leaf v)) vs))) s.
Proof.
  intros Ha Hstack Hvs.
  rewrite (serialize_object _ _ _ _ _ _ Ha (array_of_toJSON vs)).
  simpl okind.
  replace (existsb (Nat.eqb a) stack) with false.
  2:{ symmetry. apply not_true_is_false. intros H.
      apply existsb_exists in H as (x & Hx & E). apply Nat.eqb_eq in E.
      subst x. apply Hstack. now apply list_elem_of_In. }
  unfold bind at 1.
  match goal with |- context [map_m ?F ?ks s] =>
    destruct (map_m_Forall2 (fun s' => s' = s) F
                (fun v => default JNull (json_of_leaf v)) ks vs)
      with (s := s) as (s' & -> & ->); auto
  end.
  apply Forall2_same_length_lookup. split.
  { unfold indices. rewrite length_map, length_seq. lia. }
  intros i k v Hk Hv s' ->. exists s. split; auto.
  assert (Hi : i < N.to_nat (N.of_nat (length vs))).
  { apply lookup_lt_Some in Hv. lia. }
  rewrite (indices_lookup _ _ Hi) in Hk. injection Hk as <-.
  unfold bind at 1.
  rewrite (Get_data s a (array_of vs) _ v Ha (array_of_get vs i v Hv)).
  unfold bind. rewrite serialize_leaf.
  - reflexivity.
  - rewrite Forall_forall in Hvs. apply Hvs.
    eapply list_elem_of_lookup_2; eauto.
Qed.

(** *** Reading an exported value *)

Lemma jget_app p1 p2 :
  forall j,
    jget j (p1 ++ p2)
    = match jget j p1 with Some j' => jget j' p2 | None => None end.
Proof.
  induction p1 as [|k p1 IH]; intros j; simpl; auto.
  destruct j; auto.
  - destruct (Js.array_index k); auto. destruct (items !! _); auto.
  - destruct (assoc k members); auto.
Qed.

Lemma assoc_omap_notin (img : string -> option json) ks k :
  k ∉ ks -> assoc k (omap (fun k => option_map (pair k) (img k)) ks) = None.
Proof.
  induction ks as [|k0 ks IH]; intros Hk; [reflexivity|].
  apply not_elem_of_cons in Hk as [Hne Hk]. cbn.
  destruct (img k0); cbn; auto.
  destruct (String.eqb_spec k k0); [contradiction|auto].
Qed.

Lemma assoc_omap_in (img : string -> option json) ks k :
  k ∈ ks -> assoc k (omap (fun k => option_map (pair k) (img k)) ks) = img k.
Proof.
  induction ks as [|k0 ks IH]; intros Hk; [now apply elem_of_nil in Hk|].
  cbn. destruct (String.eqb_spec k k0) as [->|Hne].
  - destruct (img k0) as [j|] eqn:E; cbn.
    + now rewrite String.eqb_refl.
    + destruct (decide (k0 ∈ ks)) as [Hin|Hnin].
      * now apply IH.
      * now apply assoc_omap_notin.
  - apply elem_of_cons in Hk as [|Hk]; [contradiction|].
    destruct (img k0); cbn; auto.
    destruct (String.eqb_spec k k0); [contradiction|auto].
Qed.

(** What the image of an object holds under a key. *)
Lemma render_lookup h vs n (c : loc) o pj k :
  h !! c = Some o -> render h vs (S n) c = Some pj ->
  jget pj [k]
  = match okind o with
    | KObject => image (render h vs n) vs o k
    | KArray len =>
        match Js.array_index k with
        | Some i =>
            if (i <? len)%N
            then Some (default JNull (image (render h vs n) vs o k))
            else None
        | None => None
        end
    | KFunction _ => None
    end.
Proof.
  intros Ho. cbn [render]. unfold loc in *. rewrite Ho.
  destruct (okind o) as [|len|f]; [| |discriminate]; intros [= <-];
    cbn [jget].
  - destruct (props_get k (oprops o)) as [p|] eqn:Hp.
    + rewrite assoc_omap_in by (apply elem_of_own_keys; eauto).
      now destruct (image _ vs o k).
    + rewrite assoc_omap_notin.
      * unfold image. now rewrite Hp.
      * intros H. apply elem_of_own_keys in H as [p H]. congruence.
  - destruct (Js.array_index k) as [i|] eqn:Ei; auto.
    rewrite list_lookup_fmap. destruct (N.ltb_spec i len).
    + rewrite indices_lookup by lia. simpl. rewrite N2Nat.id.
      now rewrite (array_index_canonical _ _ Ei).
    + unfold indices. rewrite list_lookup_fmap.
      rewrite (proj2 (lookup_ge_None _ _)); [reflexivity|].
      rewrite length_seq. lia.
Qed.

(** *** The export of a view *)

Section Snapshot.

Variables (C : list string) (F : list (string * getter)) (st0 : state).
Hypothesis Hview : view C F st0.
Hypothesis Hdirect : forall f g, (f, g) ∈ F -> direct g = true.
Hypothesis Hleaves : Forall (leaf st0) (values st0).
Hypothesis HtoJSON : forall f, f ∈ C -> "toJSON" ∉ segs f.
Variable D0 : nat.
Hypothesis Hdepth : forall f, f ∈ C -> length (dir f) <= D0.

Lemma node_object q c :
  node C q -> descend (heap st0) this q = Some c ->
  exists o, heap st0 !! c = Some o /\ container o.
Proof.
  intros [->|Hq] Hd.
  - simpl in Hd. injection Hd as <-.
    destruct (view_this _ _ _ Hview) as [ps Hps].
    exists (Object KObject ps). split; auto. exact I.
  - destruct (view_dirs _ _ _ Hview _ Hq) as (c' & o & Hd' & Ho & Hc).
    exists o. split; [congruence|auto].
Qed.

Lemma node_no_toJSON q c o :
  node C q -> descend (heap st0) this q = Some c -> heap st0 !! c = Some o ->
  props_get "toJSON" (oprops o) = None.
Proof.
  intros Hq Hd Ho.
  destruct (props_get "toJSON" (oprops o)) as [p|] eqn:E; auto. exfalso.
  destruct (view_closed _ _ _ Hview _ _ _ _ _ Hq Hd Ho E)
    as [[[_ (f & Hf & Hp)] _]|(f & g & Hf & Hs & _)].
  - apply (HtoJSON f Hf). rewrite segs_snoc. apply elem_of_app. left.
    destruct Hp as [t ->]. apply elem_of_app. left.
    apply elem_of_app. right. left.
  - apply (HtoJSON f); [eapply view_sub; eauto|].
    rewrite Hs. apply elem_of_app. right. left.
Qed.

Lemma dir_depth q : is_dir C q -> length q <= D0.
Proof.
  intros [_ (f & Hf & Hp)]. apply prefix_length in Hp.
  specialize (Hdepth f Hf). lia.
Qed.

Lemma not_on_stack q c stack :
  node C q -> descend (heap st0) this q = Some c ->
  above C (heap st0) q stack -> existsb (Nat.eqb c) stack = false.
Proof.
  intros Hq Hd Hstack. apply not_true_is_false. intros H.
  apply existsb_exists in H as (x & Hx & E). apply Nat.eqb_eq in E. subst x.
  apply list_elem_of_In in Hx. destruct (Hstack c Hx) as (q' & Hq' & Hd' & Hlt).
  assert (q' = q) by (eapply (view_inj _ _ _ Hview); eauto). subst q'. lia.
Qed.

Lemma index_value_leaf s i :
  extends st0 s -> leaf s (index_value (values st0) i).
Proof.
  intros Hext. unfold index_value. destruct (i <? 0)%Z; [exact I|].
  destruct (values st0 !! Z.to_nat i) as [v|] eqn:E; [|exact I]. simpl.
  apply (leaf_extends st0); auto. rewrite Forall_forall in Hleaves.
  apply Hleaves. eapply list_elem_of_lookup_2; eauto.
Qed.

Lemma slice_leaves s a e :
  extends st0 s -> Forall (leaf s) (slice (values st0) a e).
Proof.
  intros Hext. unfold slice. apply Forall_take, Forall_drop.
  eapply Forall_impl; [exact Hleaves|]. intros v. now apply leaf_extends.
Qed.

Lemma extends_values s : extends st0 s -> values s = values st0.
Proof. now intros (c & n & ->). Qed.

Lemma extends_length s : extends st0 s -> length (heap st0) <= length (heap s).
Proof. intros (c & n & ->). simpl. rewrite length_app. lia. Qed.

(** The serialization of a node of the view returns its image. *)
Lemma serialize_node n :
  forall q c o depth stack key s,
    length q + n = D0 -> node C q ->
    descend (heap st0) this q = Some c -> heap st0 !! c = Some o ->
    n + 3 <= depth -> above C (heap st0) q stack -> extends st0 s ->
    exists s',
      serialize call depth stack key (VRef c) s
      = Ok (render (heap st0) (values st0) (S n) c) s'
      /\ extends st0 s'.
Proof.
  induction n as [n IH] using lt_wf_ind.
  intros q c o depth stack key s Hn Hq Hd Ho Hdep Hstack Hext.
  destruct depth as [|d]; [lia|].
  assert (Hcont : container o).
  { destruct (node_object q c Hq Hd) as (o' & Ho' & Hc). congruence. }
  (* what is read under a key that the node holds *)
  assert (Hprop : forall k p,
            props_get k (oprops o) = Some p ->
            forall s1, extends st0 s1 ->
              exists s2,
                (v <- Get call (VRef c) k ;;
                 serialize call d (c :: stack) k v) s1
                = Ok (image (render (heap st0) (values st0) n) (values st0)
                        o k) s2
                /\ extends st0 s2).
  { intros k p Hk s1 Hs1.
    assert (Hc1 : heap s1 !! c = Some o) by (eapply extends_lookup; eauto).
    unfold image. rewrite Hk.
    destruct (view_closed _ _ _ Hview _ _ _ _ _ Hq Hd Ho Hk)
      as [[Hdir (c' & ->)]|(f & g & Hf & Hs & ->)].
    - (* a container *)
      pose proof (dir_depth _ Hdir) as Hlen. rewrite length_app in Hlen.
      simpl in Hlen.
      destruct n as [|m]; [lia|].
      destruct (view_dirs _ _ _ Hview _ Hdir) as (c2 & o' & Hd' & Ho' & _).
      assert (c2 = c').
      { rewrite descend_app, Hd in Hd'. simpl in Hd'.
        rewrite Ho, Hk in Hd'. congruence. }
      subst c2. unfold bind.
      rewrite (Get_data s1 c o k (VRef c')) by assumption.
      apply (IH m) with (q := (q ++ [k])%list) (o := o'); auto; try lia.
      + rewrite length_app. simpl. lia.
      + now right.
      + intros l Hl. apply elem_of_cons in Hl as [->|Hl].
        * exists q. rewrite length_app. simpl. repeat split; auto. lia.
        * destruct (Hstack l Hl) as (q' & H1 & H2 & H3).
          exists q'. rewrite length_app. simpl. repeat split; auto. lia.
    - (* a field *)
      unfold bind. rewrite (Get_own_getter s1 c o k g) by assumption.
      pose proof (Hdirect _ _ Hf) as Hg.
      destruct g as [| i | |a e]; try discriminate;
        cbn [invoke field_json].
      + unfold bind, gets, ret. rewrite (extends_values s1 Hs1).
        destruct d as [|d]; [lia|].
        rewrite serialize_leaf by now apply index_value_leaf.
        eauto.
      + unfold bind, gets. rewrite (extends_values s1 Hs1), alloc_ok.
        set (s2 := set_heap _ s1).
        assert (Hs2 : extends s1 s2).
        { exists (cached s1), [array_of (slice (values st0) a e)].
          reflexivity. }
        assert (Hs02 : extends st0 s2) by (eapply extends_trans; eauto).
        destruct d as [|[|d]]; [lia..|].
        rewrite (serialize_array_of d (c :: stack) k s2 (length (heap s1))
                   (slice (values st0) a e)).
        * eauto.
        * unfold s2. simpl. rewrite lookup_app_r, Nat.sub_diag by lia.
          reflexivity.
        * pose proof (extends_length s1 Hs1) as Hlen.
          intros Hin. apply elem_of_cons in Hin as [E|Hin].
          -- apply lookup_lt_Some in Ho. unfold loc in *. lia.
          -- destruct (Hstack _ Hin) as (q' & Hq' & Hd' & _).
             destruct (node_object q' _ Hq' Hd') as (o' & Ho' & _).
             apply lookup_lt_Some in Ho'. lia.
        * now apply slice_leaves. }
  assert (Hc0 : heap s !! c = Some o) by (eapply extends_lookup; eauto).
  rewrite (serialize_object d stack key s c o Hc0
             (node_no_toJSON q c o Hq Hd Ho)).
  rewrite (not_on_stack q c stack Hq Hd Hstack).
  cbn [render]. rewrite Ho.
  destruct (okind o) as [|len|f] eqn:Hkind; [| |now unfold container in Hcont; rewrite Hkind in Hcont].
  - (* a map *)
    unfold bind at 1.
    match goal with |- context [map_m ?f ?ks s] =>
      destruct (map_m_each (extends st0) f
                  (fun k => option_map (pair k)
                              (image (render (heap st0) (values st0) n)
                                 (values st0) o k)) ks)
        with (s := s) as (s' & -> & Hs'); auto
    end.
    + intros k Hk s1 Hs1. apply elem_of_own_keys in Hk as [p Hp].
      destruct (Hprop k p Hp s1 Hs1) as (s2 & E & Hs2).
      exists s2. split; auto. unfold bind in *.
      destruct (Get call (VRef c) k s1) as [v s3| |]; try discriminate.
      now rewrite E.
    + exists s'. split; auto. unfold ret. now rewrite omap_id_fmap.
  - (* a list *)
    assert (Hne : c <> this).
    { intros ->. destruct (view_this _ _ _ Hview) as [ps Hps].
      rewrite Hps in Ho. injection Ho as <-. discriminate. }
    unfold bind at 1.
    match goal with |- context [map_m ?f ?ks s] =>
      destruct (map_m_each (extends st0) f
                  (fun k => default JNull
                              (image (render (heap st0) (values st0) n)
                                 (values st0) o k)) ks)
        with (s := s) as (s' & -> & Hs'); auto
    end.
    + intros k Hk s1 Hs1.
      destruct (props_get k (oprops o)) as [p|] eqn:Hp.
      * destruct (Hprop k p Hp s1 Hs1) as (s2 & E & Hs2).
        exists s2. split; auto. unfold bind in *.
        destruct (Get call (VRef c) k s1) as [v s3| |]; try discriminate.
        now rewrite E.
      * apply elem_of_indices in Hk as (i & _ & ->).
        destruct (given_index c o i Hne) as [Hg Hl].
        exists s1. split; auto. unfold bind.
        rewrite (Get_absent s1 c o (Js.of_N i)); auto.
        -- destruct d as [|d]; [lia|]. unfold image. now rewrite Hp.
        -- eapply extends_lookup; eauto.
    + exists s'. split; auto.
Qed.

(** The image of the instance. *)
Variable j0 : json.
Hypothesis Hj0 : render (heap st0) (values st0) (S D0) this = Some j0.

Lemma render_container q c o n :
  node C q -> descend (heap st0) this q = Some c -> heap st0 !! c = Some o ->
  exists pj,
    render (heap st0) (values st0) (S n) c = Some pj
    /\ is_list pj = is_array (okind o)
    /\ is_map pj = negb (is_array (okind o)).
Proof.
  intros Hq Hd Ho. destruct (node_object q c Hq Hd) as (o' & Ho' & Hc).
  assert (o' = o) by congruence. subst o'.
  cbn [render]. unfold loc in *. rewrite Ho. unfold container in Hc.
  destruct (okind o); [| |contradiction]; eexists; repeat split.
Qed.

Lemma node_before q k : is_dir C (q ++ [k]) -> node C q.
Proof.
  intros [_ (f & Hf & Hp)]. destruct q as [|k0 q]; [now left|].
  right. split; [discriminate|]. exists f. split; auto.
  etransitivity; [|exact Hp]. now exists [k].
Qed.

Lemma node_depth q : node C q -> length q <= D0.
Proof. intros [->|Hq]; [simpl; lia|now apply dir_depth]. Qed.

(** What the export holds at the path of a node is the image of the
    node. *)
Lemma render_path q :
  forall c pj,
    node C q -> descend (heap st0) this q = Some c ->
    jget j0 q = Some pj ->
    render (heap st0) (values st0) (S (D0 - length q)) c = Some pj.
Proof.
  induction q as [|k q IH] using rev_ind; intros c pj Hq Hd Hj.
  - simpl in *. injection Hd as <-. injection Hj as <-.
    now rewrite Nat.sub_0_r.
  - assert (Hdir : is_dir C (q ++ [k])).
    { destruct Hq as [E|Hq]; auto. apply app_eq_nil in E as [_ E].
      discriminate. }
    pose proof (node_before _ _ Hdir) as Hq1.
    pose proof (dir_depth _ Hdir) as Hlen. rewrite length_app in Hlen.
    simpl in Hlen.
    rewrite descend_app in Hd.
    destruct (descend (heap st0) this q) as [c1|] eqn:Hd1; [|discriminate].
    simpl in Hd. destruct (heap st0 !! c1) as [o1|] eqn:Ho1; [|discriminate].
    destruct (props_get k (oprops o1)) as [[v|]|] eqn:Hk; try discriminate.
    destruct v as [| | | | | | |c']; try discriminate. injection Hd as ->.
    rewrite jget_app in Hj.
    destruct (jget j0 q) as [pj1|] eqn:Hj1; [|discriminate].
    specialize (IH c1 pj1 Hq1 eq_refl eq_refl).
    rewrite (render_lookup _ _ _ _ _ _ k Ho1 IH) in Hj.
    assert (Himg : image (render (heap st0) (values st0) (D0 - length q))
                     (values st0) o1 k
                   = render (heap st0) (values st0)
                       (S (D0 - length (q ++ [k]))) c).
    { unfold image. rewrite Hk. f_equal. rewrite length_app. cbn [length].
      lia. }
    rewrite Himg in Hj.
    assert (Hd : descend (heap st0) this (q ++ [k]) = Some c).
    { rewrite descend_app, Hd1. simpl. now rewrite Ho1, Hk. }
    destruct (node_object _ _ Hq Hd) as (o & Ho & _).
    destruct (render_container (q ++ [k]) c o (D0 - length (q ++ [k])) Hq)
      as (cj & Hcj & _); auto.
    rewrite Hcj in Hj |- *. destruct (okind o1) as [|len|f]; try discriminate.
    + exact Hj.
    + destruct (Js.array_index k); [|discriminate].
      destruct (_ <? _)%N; [|discriminate]. exact Hj.
Qed.

(** What the export holds under a key of a node. *)
Lemma export_step q c o pj k :
  node C q -> descend (heap st0) this q = Some c -> heap st0 !! c = Some o ->
  jget j0 q = Some pj ->
  is_list pj = is_array (okind o)
  /\ is_map pj = negb (is_array (okind o))
  /\ jget j0 (q ++ [k])
     = match okind o with
       | KObject =>
           image (render (heap st0) (values st0) (D0 - length q))
             (values st0) o k
       | KArray len =>
           match Js.array_index k with
           | Some i =>
               if (i <? len)%N
               then Some (default JNull
                            (image (render (heap st0) (values st0)
                                      (D0 - length q)) (values st0) o k))
               else None
           | None => None
           end
       | KFunction _ => None
       end.
Proof.
  intros Hq Hd Ho Hj. pose proof (render_path q c pj Hq Hd Hj) as Hr.
  destruct (render_container q c o (D0 - length q) Hq Hd Ho)
    as (pj' & Hr' & Hl & Hm).
  assert (pj' = pj) by congruence. subst pj'.
  split; [exact Hl|]. split; [exact Hm|].
  rewrite jget_app, Hj. exact (render_lookup _ _ _ _ _ _ k Ho Hr).
Qed.

(** A container is exported under its key if its parent is: as a map or
    as a list, as it is. *)
Lemma export_container q k pj :
  is_dir C (q ++ [k]) -> jget j0 q = Some pj ->
  exists c o cj,
    descend (heap st0) this (q ++ [k]) = Some c /\ heap st0 !! c = Some o
    /\ jget j0 (q ++ [k]) = child_json pj k (Some cj)
    /\ is_list cj = is_array (okind o)
    /\ is_map cj = negb (is_array (okind o)).
Proof.
  intros Hdir Hj. pose proof (node_before _ _ Hdir) as Hq.
  pose proof (dir_depth _ Hdir) as Hlen. rewrite length_app in Hlen.
  simpl in Hlen.
  destruct (view_dirs _ _ _ Hview _ Hdir) as (c & o & Hd & Ho & _).
  pose proof Hd as Hd'. rewrite descend_app in Hd'.
  destruct (descend (heap st0) this q) as [c1|] eqn:Hd1; [|discriminate].
  simpl in Hd'. destruct (heap st0 !! c1) as [o1|] eqn:Ho1; [|discriminate].
  destruct (props_get k (oprops o1)) as [[v|]|] eqn:Hk; try discriminate.
  destruct v as [| | | | | | |c']; try discriminate. injection Hd' as ->.
  destruct (export_step q c1 o1 pj k Hq Hd1 Ho1 Hj) as (Hl & Hm & Hstep).
  destruct (render_container (q ++ [k]) c o (D0 - length (q ++ [k])))
    as (cj & Hcj & Hlc & Hmc); auto; [now right|].
  assert (Himg : image (render (heap st0) (values st0) (D0 - length q))
                   (values st0) o1 k = Some cj).
  { unfold image. rewrite Hk, <- Hcj. f_equal. rewrite length_app.
    cbn [length]. lia. }
  rewrite Himg in Hstep.
  exists c, o, cj. split; [exact Hd|]. split; [exact Ho|].
  split; [|split; assumption]. rewrite Hstep.
  pose proof (view_bounds _ _ _ Hview _ _ _ Hq Hd1 Ho1) as Hb.
  destruct (node_object q c1 Hq Hd1) as (o1' & Ho1' & Hcont1).
  assert (o1' = o1) by congruence. subst o1'.
  unfold bounded in Hb. unfold container in Hcont1.
  destruct (okind o1) as [|len|f]; [| |contradiction];
    destruct pj; try discriminate; simpl; auto.
  destruct (Js.array_index k) as [i|] eqn:Ei; auto.
  specialize (Hb _ _ _ Hk Ei). apply N.ltb_lt in Hb. now rewrite Hb.
Qed.

(** A field is exported under its key if its parent is. *)
Lemma export_field f g pj :
  (f, g) ∈ F -> jget j0 (dir f) = Some pj ->
  jget j0 (segs f) = child_json pj (leaf_key f) (field_json (values st0) g).
Proof.
  intros Hf Hj.
  destruct (view_fields _ _ _ Hview _ _ Hf) as (c & o & Hd & Ho & Hk).
  assert (Hq : node C (dir f)) by (eapply node_dir, view_sub; eauto).
  destruct (export_step (dir f) c o pj (leaf_key f) Hq Hd Ho Hj)
    as (Hl & Hm & Hstep).
  rewrite <- segs_snoc in Hstep. rewrite Hstep.
  assert (Himg : image (render (heap st0) (values st0) (D0 - length (dir f)))
                   (values st0) o (leaf_key f)
                 = field_json (values st0) g).
  { unfold image. now rewrite Hk. }
  rewrite Himg.
  pose proof (view_bounds _ _ _ Hview _ _ _ Hq Hd Ho) as Hb.
  destruct (node_object _ c Hq Hd) as (o' & Ho' & Hcont).
  assert (o' = o) by congruence. subst o'.
  unfold bounded in Hb. unfold container in Hcont.
  destruct (okind o) as [|len|fn]; [| |contradiction];
    destruct pj; try discriminate; simpl; auto.
  destruct (Js.array_index (leaf_key f)) as [i|] eqn:Ei; auto.
  specialize (Hb _ _ _ Hk Ei). apply N.ltb_lt in Hb. now rewrite Hb.
Qed.

(** The export holds nothing else: under a node, only what leads to a
    field, but for the [null] of an index that a list lacks. *)
Lemma export_only q k x :
  node C q -> jget j0 (q ++ [k]) = Some x ->
  (exists f, f ∈ C /\ (q ++ [k])%list `prefix_of` segs f)
  \/ (x = JNull /\ exists items, jget j0 q = Some (JArr items)).
Proof.
  intros Hq Hx. pose proof Hx as Hx'. rewrite jget_app in Hx'.
  destruct (jget j0 q) as [pj|] eqn:Hj; [|discriminate]. clear Hx'.
  assert (Hc : exists c, descend (heap st0) this q = Some c).
  { destruct Hq as [->|Hq]; [simpl; eauto|].
    destruct (view_dirs _ _ _ Hview _ Hq) as (c & _ & Hd & _). eauto. }
  destruct Hc as [c Hd]. destruct (node_object q c Hq Hd) as (o & Ho & _).
  destruct (export_step q c o pj k Hq Hd Ho Hj) as (Hl & Hm & Hstep).
  rewrite Hx in Hstep.
  assert (Hheld : forall p, props_get k (oprops o) = Some p ->
            exists f, f ∈ C /\ (q ++ [k])%list `prefix_of` segs f).
  { intros p Hk.
    destruct (view_closed _ _ _ Hview _ _ _ _ _ Hq Hd Ho Hk)
      as [[[_ (f & Hf & Hp)] _]|(f & g & Hf & Hs & _)].
    - exists f. split; auto. etransitivity; [exact Hp|apply dir_prefix].
    - exists f. split; [eapply view_sub; eauto|]. now rewrite Hs. }
  destruct (props_get k (oprops o)) as [p|] eqn:Hk; [left; eauto|].
  right. unfold image in Hstep. rewrite Hk in Hstep.
  destruct (okind o) as [|len|fn]; try discriminate.
  destruct (Js.array_index k); [|discriminate].
  destruct (_ <? _)%N; [|discriminate]. injection Hstep as ->.
  split; auto. destruct pj; try discriminate. eauto.
Qed.

End Snapshot.

Lemma max_list_bound (l : list nat) b :
  (forall x, x ∈ l -> x <= b) -> max_list l <= b.
Proof.
  induction l as [|x l IH]; intros H; simpl; [lia|].
  assert (x <= b) by (apply H; left).
  assert (max_list l <= b) by (apply IH; intros y Hy; apply H; now right).
  lia.
Qed.


(** ** What a call that throws leaves behind *)

Lemma for_each_throw_inv {A} (body : A -> M unit) l :
  forall st e st',
    for_each body l st = Throw e st' ->
    exists pre x post st1,
      l = (pre ++ x :: post)%list
      /\ for_each body pre st = Ok tt st1
      /\ body x st1 = Throw e st'.
Proof.
  induction l as [|y l IH]; intros st e st'; simpl.
  - discriminate.
  - unfold bind. destruct (body y st) as [[] st1|e1 st1|st1] eqn:Hy.
    + intros H. destruct (IH _ _ _ H) as (pre & x & post & st2 & -> & Hpre & Hx).
      exists (y :: pre), x, post, st2. repeat split; auto.
      simpl. unfold bind. now rewrite Hy.
    + intros [= -> ->]. exists [], y, l, st. repeat split; auto.
    + discriminate.
Qed.

Lemma registered_registry name : registry_only (fun st => name ∈ fields st).
Proof. intros st st' Hf _. now rewrite Hf. Qed.

(** Once in the registry, a name stays there while fields are added. *)
Lemma add_field_keeps name e :
  preserves (fun st => name ∈ fields st) (add_field call e).
Proof.
  destruct e as [fieldName r]. unfold add_field.
  pose proof (registered_registry name) as HP.
  apply preserves_bind.
  { apply preserves_modify. intros st H. simpl.
    apply elem_of_fields_add_iff. now right. }
  intros _. apply preserves_bind.
  { destruct (Js.includes "." fieldName).
    - apply preserves_ensurePathStructure; auto. intros x st H. exact H.
    - apply preserves_ret. }
  intros [obj key]. apply preserves_bind; [now apply preserves_Get|].
  intros ev. now apply preserves_DefineGetter.
Qed.

(** [add_field] registers the name first. *)
Lemma add_field_registers e st :
  e.1 ∈ fields (state_of (add_field call e st)).
Proof.
  destruct e as [fieldName r]. unfold add_field. unfold bind at 1.
  unfold modify at 1.
  set (st1 := set_fields (fields_add fieldName (fields st)) st).
  assert (H1 : fieldName ∈ fields st1).
  { simpl. apply elem_of_fields_add_iff. now left. }
  pose proof (registered_registry fieldName) as HP.
  match goal with
  | |- _ ∈ fields (state_of (?m st1)) =>
      assert (Hp : preserves (fun s => fieldName ∈ fields s) m)
  end; [|exact (Hp st1 H1)].
  apply preserves_bind.
  { destruct (Js.includes "." fieldName).
    - apply preserves_ensurePathStructure; auto. intros x s H. exact H.
    - apply preserves_ret. }
  intros [obj key]. apply preserves_bind; [now apply preserves_Get|].
  intros ev. now apply preserves_DefineGetter.
Qed.

(** [addStructure] is not all or nothing.  When it throws, it does so on
    one entry of the sorted structure, after the entries before it were
    processed; the names of those entries and of the one that failed are
    in the registry. *)
Theorem addStructure_throws_midway structure st e st' :
  addStructure call structure st = Throw e st' ->
  exists pre x post st1,
    sort_entries structure = (pre ++ x :: post)%list
    /\ for_each (add_field call) pre st = Ok tt st1
    /\ add_field call x st1 = Throw e st'
    /\ forall y, y ∈ (pre ++ [x])%list -> y.1 ∈ fields st'.
Proof.
  unfold addStructure. intros H.
  destruct (for_each_throw_inv _ _ _ _ _ H)
    as (pre & x & post & st1 & Hsplit & Hpre & Hx).
  exists pre, x, post, st1. repeat split; auto.
  intros y Hy. apply elem_of_app in Hy as [Hy|Hy].
  - assert (H1 : y.1 ∈ fields st1).
    { clear Hsplit Hx H. revert st Hpre.
      induction pre as [|z pre IH]; intros st Hpre.
      - now apply elem_of_nil in Hy.
      - simpl in Hpre. unfold bind in Hpre.
        destruct (add_field call z st) as [[] st2| |] eqn:Hz; [|discriminate..].
        apply elem_of_cons in Hy as [->|Hy].
        + pose proof (add_field_registers z st) as Hr. rewrite Hz in Hr.
          simpl in Hr.
          pose proof (preserves_for_each (fun s => z.1 ∈ fields s)
                        (add_field call) pre
                        (fun x _ => add_field_keeps z.1 x) st2 Hr) as Hk.
          now rewrite Hpre in Hk.
        + eapply IH; eauto. }
    pose proof (add_field_keeps y.1 x st1 H1) as Hk. now rewrite Hx in Hk.
  - apply list_elem_of_singleton in Hy. subst y.
    pose proof (add_field_registers x st1) as Hr. now rewrite Hx in Hr.
Qed.

(** ** Fields on top of fields *)

Lemma segs_nested name a b rest :
  segs name = a :: b :: rest -> Js.includes "." name = true.
Proof.
  intros H. destruct (Js.includes "." name) eqn:Hinc; auto.
  unfold segs in H. rewrite (split_no_sep _ _ Hinc) in H. discriminate.
Qed.

Lemma Get_primitive v k st :
  (forall l, v <> VRef l) -> (forall h, Js.builtin h k = false) ->
  Get call v k st = Throw TypeError st \/ exists x, Get call v k st = Ok x st.
Proof.
  intros Hv Hk. destruct v; simpl; auto; rewrite ?Hk; unfold ret; eauto.
  - destruct (string_get s k); eauto.
  - now destruct (Hv l).
Qed.

Lemma DefineGetter_primitive v k g st :
  (forall l, v <> VRef l) -> DefineGetter v k g st = Throw TypeError st.
Proof. intros Hv. destruct v; auto. now destruct (Hv l). Qed.

(** Declaring a field under a field that reads a value which is not an
    object, with a key that names no member the language gives: then
    [addStructure] throws a [TypeError] (not an [OdoError]); the instance
    keeps its accessor, and the name of the nested field is left in the
    registry. *)
Theorem nesting_under_a_value_throws st ps a b i name r :
  heap st !! this = Some (Object KObject ps) ->
  props_get a ps = Some (PGet (GIndex i)) ->
  (forall l, index_value (values st) i <> VRef l) ->
  (forall h, Js.builtin h b = false) ->
  segs name = [a; b] ->
  exists st',
    addStructure call [(name, r)] st = Throw TypeError st'
    /\ name ∈ fields st'
    /\ heap st' !! this = Some (Object KObject ps)
    /\ values st' = values st.
Proof.
  intros Hthis Ha Hv Hb Hsegs.
  pose proof (segs_nested _ _ _ _ Hsegs) as Hinc.
  set (st1 := set_fields (fields_add name (fields st)) st).
  assert (Hin : name ∈ fields st1).
  { simpl. apply elem_of_fields_add_iff. now left. }
  assert (Hget : forall s, heap s = heap st -> values s = values st ->
            Get call (VRef this) a s = Ok (index_value (values st) i) s).
  { intros s Hh Hvs.
    rewrite (Get_own_getter s this (Object KObject ps) a (GIndex i)).
    - simpl. unfold bind, gets, ret. now rewrite Hvs.
    - rewrite Hh. exact Hthis.
    - exact Ha. }
  assert (Hrun : exists st',
            add_field call (name, r) st = Throw TypeError st'
            /\ name ∈ fields st'
            /\ heap st' !! this = Some (Object KObject ps)
            /\ values st' = values st).
  { unfold add_field. rewrite Hinc.
    unfold _ensurePathStructure. fold (segs name). rewrite Hsegs.
    cbn [pop last removelast]. rewrite ensure_cons.
    unfold bind, modify. fold st1. rewrite (Hget st1) by reflexivity.
    destruct (is_undefined (index_value (values st) i)) eqn:Hu.
    - (* undefined: the assignment of a new container throws *)
      unfold alloc, Put, bind, gets. cbn [heap set_heap].
      rewrite (lookup_app_l_Some _ _ _ _ Hthis). cbn [oprops]. rewrite Ha.
      eexists. split; [reflexivity|]. repeat split; auto.
      simpl. now apply lookup_app_l_Some.
    - (* another value: reading or defining the key throws *)
      unfold ret at 1. rewrite (Hget st1) by reflexivity.
      cbn [ensure]. unfold ret at 1.
      match goal with |- context [ret _ ?s] => set (s2 := s) end.
      unfold ret. cbv beta iota. change (key_of (Some b)) with b.
      assert (H2 : name ∈ fields s2
                   /\ heap s2 !! this = Some (Object KObject ps)
                   /\ values s2 = values st)
        by (unfold s2; destruct (unused_has _ _); repeat split; auto).
      destruct (Get_primitive (index_value (values st) i) b s2 Hv Hb)
        as [E|[x E]]; rewrite E.
      + eauto.
      + rewrite (DefineGetter_primitive _ _ _ _ Hv). eauto. }
  destruct Hrun as (st' & Hrun & H).
  exists st'. split; [|exact H].
  unfold addStructure, sort_entries. cbn [foldr insert_entry for_each].
  unfold bind. now rewrite Hrun.
Qed.

(** Reading does not look at the registry. *)
Lemma invoke_set_fields fs g st :
  invoke call g (set_fields fs st) = with_fields fs (invoke call g st).
Proof.
  destruct g as [f ev|i|c key|s e]; simpl.
  - unfold apply. simpl. now destruct (call f ev (heap st)).
  - reflexivity.
  - unfold _cachedValue, bind, gets. simpl.
    destruct (cached_get key (cached st)); [reflexivity|].
    destruct c as [i f|s e f]; simpl; unfold bind, gets, apply, alloc; simpl.
    + now destruct (call f (index_value (values st) i) (heap st)).
    + now destruct (call f (VRef (length (heap st))) _).
  - reflexivity.
Qed.

Lemma Get_set_fields fs base k st :
  Get call base k (set_fields fs st) = with_fields fs (Get call base k st).
Proof.
  destruct base as [| |b|n| |neg|s|l]; simpl; try reflexivity.
  - now destruct (Js.builtin Js.HBoolean k).
  - now destruct (Js.builtin Js.HNumber k).
  - now destruct (Js.builtin Js.HNumber k).
  - now destruct (Js.builtin Js.HNumber k).
  - destruct (string_get s k); [reflexivity|].
    now destruct (Js.builtin Js.HString k).
  - unfold bind, gets. simpl.
    destruct (heap st !! l) as [o|]; [|reflexivity].
    destruct (props_get k (oprops o)) as [[v|g]|].
    + reflexivity.
    + apply invoke_set_fields.
    + destruct (is_array (okind o) && String.eqb k "length"); [reflexivity|].
      now destruct (given l o k).
Qed.

(** A field declared with a function, at the top level, under a name
    that is not given to the instance: the function is handed what the
    key read when the field was declared, at every read and whatever
    values are set later; for a key that held a field of a single index,
    that is the element the values had at the declaration. *)
Theorem function_field_wraps_the_value_at_declaration st ps k f :
  heap st !! this = Some (Object KObject ps) ->
  Js.includes "." k = false -> Js.top k = true ->
  exists v st1 st',
    Get call (VRef this) k st = Ok v st1
    /\ addStructure call [(k, RFun f)] st = Ok tt st'
    /\ (forall i, props_get k ps = Some (PGet (GIndex i)) ->
          v = index_value (values st) i)
    /\ (props_get k ps = None -> v = VUndef)
    /\ forall vs,
         let st'' := state_of (setValues vs st') in
         Get call (VRef this) k st'' = apply call f v st''.
Proof.
  intros Hthis Hinc Htop.
  destruct (Get_top st _ k Hthis Htop) as (v & st1 & Hget & Hext).
  pose proof (extends_lookup _ _ _ _ Hext Hthis) as Hthis1.
  set (fs := fields_add k (fields st)).
  set (o' := Object KObject (props_set k (PGet (GFun f v)) ps)).
  exists v, st1, (set_heap (<[this := o']> (heap st1)) (set_fields fs st1)).
  split; [exact Hget|]. split; [|split; [|split]].
  - unfold addStructure, sort_entries. cbn [foldr insert_entry for_each].
    unfold add_field. rewrite Hinc. unfold bind, modify, ret. fold fs.
    change (key_of (Some k)) with k. rewrite Get_set_fields, Hget. cbn [with_fields].
    unfold DefineGetter, bind, gets. cbn [heap set_fields].
    unfold loc in *. rewrite Hthis1.
    rewrite (bag_ne this k) by now apply top_spec. reflexivity.
  - intros i Hi. unfold Get, bind, gets in Hget. rewrite Hthis in Hget.
    cbn [oprops] in Hget. rewrite Hi in Hget. simpl in Hget.
    unfold bind, gets, ret in Hget. congruence.
  - intros Hnone. rewrite (Get_absent st this _ k Hthis) in Hget;
      [congruence|auto|discriminate|now apply given_top].
  - intros vs st''.
    rewrite (Get_own_getter st'' this o' k (GFun f v)); [reflexivity| |].
    + simpl. apply list_lookup_insert_eq. eapply lookup_lt_Some; eauto.
    + apply props_get_set_eq.
Qed.

(** ** Slices *)

Lemma installed_adds h h' f g : adds h h' -> installed h f g -> installed h' f g.
Proof.
  intros Ha (c & o & Hd & Ho & Hp).
  destruct (Ha c o Ho) as (o' & Ho' & Hp' & _).
  exists c, o'. repeat split; auto. eapply descend_adds; eauto.
Qed.

Lemma adds_app h new : adds h (h ++ new).
Proof.
  intros l o H. exists o. split; [now apply lookup_app_l_Some|]. auto.
Qed.

Lemma installed_read st f g :
  installed (heap st) f g ->
  read_path call (segs f) (VRef this) st = invoke call g st.
Proof.
  intros (c & o & Hd & Ho & Hp).
  rewrite segs_snoc, read_path_app, (read_path_descend _ _ _ _ Hd).
  cbn [read_path]. unfold bind.
  rewrite (Get_own_getter st c o (leaf_key f) g) by assumption.
  now destruct (invoke call g st).
Qed.

(** A field declared with a range [[s, e]] reads a new array at every
    read: two reads in a row give two arrays, at two places of the store,
    both holding the slice of the current values. *)
Theorem slice_field_reads_a_new_array structure st name s e :
  blank st -> clean structure -> (name, RSlice s e) ∈ structure ->
  exists st',
    addStructure call structure st = Ok tt st'
    /\ forall vs,
         let st1 := state_of (setValues vs st') in
         let st2 := set_heap (heap st1 ++ [array_of (slice vs s e)]) st1 in
         let st3 := set_heap (heap st2 ++ [array_of (slice vs s e)]) st2 in
         read_path call (segs name) (VRef this) st1
         = Ok (VRef (length (heap st1))) st2
         /\ read_path call (segs name) (VRef this) st2
            = Ok (VRef (S (length (heap st1)))) st3.
Proof.
  intros Hblank Hclean Hin.
  destruct (addStructure_blank structure st Hblank Hclean)
    as (st' & Hrun & Hview & _).
  exists st'. split; [exact Hrun|]. intros vs st1 st2 st3.
  assert (H1 : installed (heap st1) name (GSlice s e)).
  { apply (view_fields _ _ _ Hview). apply elem_of_getters.
    exists (RSlice s e). auto. }
  assert (H2 : installed (heap st2) name (GSlice s e)).
  { eapply installed_adds; [|exact H1]. apply adds_app. }
  rewrite (installed_read st1 _ _ H1), (installed_read st2 _ _ H2).
  split; [reflexivity|].
  simpl. unfold bind, gets, alloc. simpl. rewrite length_app. simpl.
  do 2 f_equal. lia.
Qed.


(** ** Reads leave the view as it is *)

Section Grows.

(** A property of the state that is kept when objects are added at the end
    of the store and the cache changes. *)
Variable P : state -> Prop.
Hypothesis P_grows :
  forall st c new,
    P st -> P (State (values st) (fields st) (unused st) c (heap st ++ new)).

Lemma grows_apply f arg : preserves P (apply call f arg).
Proof.
  intros st H. unfold apply. destruct (call f arg (heap st)) as [v new].
  simpl. now apply P_grows.
Qed.

Lemma grows_alloc o : preserves P (alloc o).
Proof. intros st H. simpl. now apply P_grows. Qed.

Lemma grows_set_cached c : preserves P (modify (set_cached c)).
Proof.
  intros st H. apply (P_grows st c []) in H. now rewrite app_nil_r in H.
Qed.

Lemma grows_run c : preserves P (run call c).
Proof.
  destruct c; simpl; repeat (apply preserves_bind; intros);
    auto using preserves_gets, grows_apply, grows_alloc.
Qed.

Lemma grows_invoke g : preserves P (invoke call g).
Proof.
  destruct g; simpl; unfold _cachedValue;
    repeat (apply preserves_bind; intros);
    auto using preserves_gets, grows_apply, grows_alloc, preserves_ret,
      grows_run.
  destruct (cached_get cacheKey a); [apply preserves_ret|].
  repeat (apply preserves_bind; intros);
    auto using grows_run, preserves_ret.
  intros st H. apply (grows_set_cached (cached_set cacheKey a0 (cached st))).
  exact H.
Qed.

Lemma grows_Get base k : preserves P (Get call base k).
Proof.
  destruct base as [| |b|n| |neg|s|l]; simpl;
    auto using preserves_throw.
  - destruct (Js.builtin Js.HBoolean k);
      auto using preserves_ret, preserves_beyond.
  - destruct (Js.builtin Js.HNumber k);
      auto using preserves_ret, preserves_beyond.
  - destruct (Js.builtin Js.HNumber k);
      auto using preserves_ret, preserves_beyond.
  - destruct (Js.builtin Js.HNumber k);
      auto using preserves_ret, preserves_beyond.
  - destruct (string_get s k);
      [|destruct (Js.builtin Js.HString k)];
      auto using preserves_ret, preserves_beyond.
  - apply preserves_bind; [apply preserves_gets|]. intros h.
    destruct (h !! l) as [o|]; [|apply preserves_ret].
    destruct (props_get k (oprops o)) as [[v|g]|];
      auto using preserves_ret, grows_invoke.
    destruct (is_array (okind o) && String.eqb k "length");
      [apply preserves_ret|].
    destruct (given l o k); auto using preserves_ret, preserves_beyond.
Qed.

Lemma grows_read_path keys : forall base, preserves P (read_path call keys base).
Proof.
  induction keys as [|k keys IH]; intros base; simpl.
  - apply preserves_ret.
  - apply preserves_bind; [apply grows_Get|]. intros v. apply IH.
Qed.

Lemma grows_serialize depth :
  forall stack key v, preserves P (serialize call depth stack key v).
Proof.
  induction depth as [|depth IH]; intros stack key v; simpl.
  - apply preserves_throw.
  - apply preserves_bind.
    { destruct v; try apply preserves_ret.
      apply preserves_bind; [apply grows_Get|]. intros toJSON.
      apply preserves_bind; [apply preserves_gets|]. intros h.
      destruct (callable h toJSON);
        [apply grows_apply|apply preserves_ret]. }
    intros v'. destruct v'; try apply preserves_ret.
    apply preserves_bind; [apply preserves_gets|]. intros h.
    destruct (h !! l) as [o|]; [|apply preserves_ret].
    destruct (okind o); [| |apply preserves_ret];
      (destruct (existsb (Nat.eqb l) stack); [apply preserves_throw|]);
      (apply preserves_bind; [|intros; apply preserves_ret]);
      apply preserves_map_m; intros k;
      (apply preserves_bind; [apply grows_Get|]); intros w;
      (apply preserves_bind; [apply IH|]); intros r; apply preserves_ret.
Qed.

Lemma grows_export depth : preserves P (export call depth).
Proof.
  unfold export. apply preserves_bind; [apply grows_serialize|].
  intros [j|]; [apply preserves_ret|apply preserves_throw].
Qed.

End Grows.

Lemma extends_grows st0 st c new :
  extends st0 st ->
  extends st0 (State (values st) (fields st) (unused st) c (heap st ++ new)).
Proof.
  intros (c0 & new0 & ->). exists c, (new0 ++ new)%list. simpl.
  now rewrite app_assoc.
Qed.

(** Reading a property, reading along a path and [export], whatever
    their outcome: the values, the registry, the unused set and every
    object of the store are as they were; objects may have been added at
    the end of the store, and the cache may have changed. *)
Theorem reading_only_adds st :
  (forall base k, extends st (state_of (Get call base k st)))
  /\ (forall keys base, extends st (state_of (read_path call keys base st)))
  /\ (forall depth, extends st (state_of (export call depth st))).
Proof.
  pose proof (extends_grows st) as Hg.
  repeat split; intros.
  - apply (grows_Get _ Hg), extends_refl.
  - apply (grows_read_path _ Hg), extends_refl.
  - apply (grows_export _ Hg), extends_refl.
Qed.

(** ** Field names *)

Lemma split_app c p rest :
  Js.split c (p ++ String c rest) = (Js.split c p ++ Js.split c rest)%list.
Proof.
  induction p as [|a p IH]; simpl.
  - now rewrite Ascii.eqb_refl.
  - destruct (Ascii.eqb a c); [now rewrite IH|].
    rewrite IH. pose proof (split_nonempty c p) as Hne.
    destruct (Js.split c p) as [|w ws]; [contradiction|reflexivity].
Qed.

Lemma includes_app c p rest : Js.includes c (p ++ String c rest) = true.
Proof.
  induction p as [|a p IH]; simpl.
  - now rewrite Ascii.eqb_refl.
  - rewrite IH. apply orb_true_r.
Qed.

(** The field name [p.k], where [k] has no dot: it is nested, its path is
    the path of [p] followed by [k], and the marker that [resetStructure]
    records for it (its path without the last key, joined by dots) is
    [p]. *)
Theorem nested_name_parts p k :
  Js.includes "." k = false ->
  let name := p ++ "." ++ k in
  Js.includes "." name = true
  /\ segs name = (segs p ++ [k])%list
  /\ dir name = segs p
  /\ leaf_key name = k
  /\ marker_of name = p.
Proof.
  intros Hk name.
  assert (Hsegs : segs name = (segs p ++ [k])%list).
  { unfold name, segs. change ("." ++ k) with (String "." k).
    now rewrite split_app, (split_no_sep _ _ Hk). }
  repeat apply conj.
  - apply includes_app.
  - exact Hsegs.
  - unfold dir. now rewrite Hsegs, removelast_last.
  - unfold leaf_key. now rewrite Hsegs, last_snoc.
  - unfold marker_of. fold (segs name). rewrite Hsegs, removelast_last.
    apply join_split.
Qed.

(** ** Containers that exist *)

(** [_ensurePathStructure] on a path whose containers exist: they are
    left as they are, and the cursor is at the last; nothing changes but
    the unused set, which may lose markers. *)
Theorem ensurePathStructure_reuses path st c :
  descend (heap st) this (removelast path) = Some c ->
  exists st',
    _ensurePathStructure call path st = Ok (VRef c, last path) st'
    /\ heap st' = heap st /\ values st' = values st
    /\ fields st' = fields st /\ cached st' = cached st
    /\ forall m, m ∈ unused st' -> m ∈ unused st.
Proof.
  intros Hd.
  destruct (ensure_existing (removelast path)
              (map Js.isFinite (removelast path)) (removelast path)
              this 0 EmptyString st c Hd) as (st' & Hrun & H).
  exists st'. split; [|exact H].
  unfold _ensurePathStructure, pop, bind. now rewrite Hrun.
Qed.

(** ** The registry after [setStructure] *)

Lemma fields_registry X : registry_only (fun st => fields st = X).
Proof. intros st st' Hf _ H. now rewrite <- Hf. Qed.

(** What [add_field] does to the registry, whether it returns or throws. *)
Lemma add_field_fields e st :
  fields (state_of (add_field call e st)) = fields_add e.1 (fields st).
Proof.
  destruct e as [fieldName r]. unfold add_field. unfold bind at 1.
  unfold modify at 1.
  set (st1 := set_fields (fields_add fieldName (fields st)) st).
  pose proof (fields_registry (fields_add fieldName (fields st))) as HP.
  match goal with
  | |- fields (state_of (?m st1)) = _ =>
      assert (Hp : preserves
                     (fun s => fields s = fields_add fieldName (fields st)) m)
  end; [|exact (Hp st1 eq_refl)].
  apply preserves_bind.
  { destruct (Js.includes "." fieldName).
    - apply preserves_ensurePathStructure; auto. intros x s H. exact H.
    - apply preserves_ret. }
  intros [obj key]. apply preserves_bind; [now apply preserves_Get|].
  intros ev. now apply preserves_DefineGetter.
Qed.

Lemma add_fields_fields l :
  forall st st',
    for_each (add_field call) l st = Ok tt st' ->
    fields st' = foldl (fun acc e => fields_add e.1 acc) (fields st) l.
Proof.
  induction l as [|e l IH]; intros st st'; simpl.
  - now intros [= <-].
  - unfold bind. pose proof (add_field_fields e st) as He.
    destruct (add_field call e st) as [[] st1| |]; [|discriminate..].
    intros H. apply IH in H. simpl in He. now rewrite H, He.
Qed.

Lemma fields_add_new x s : x ∉ s -> fields_add x s = (s ++ [x])%list.
Proof.
  intros Hx. unfold fields_add.
  destruct (existsb (String.eqb x) s) eqn:E; auto.
  apply existsb_exists in E as (z & Hz & Hxz).
  apply String.eqb_eq in Hxz. subst z. exfalso. apply Hx.
  now apply list_elem_of_In.
Qed.

Lemma foldl_fields_add (l : list (string * range)) :
  forall acc,
    NoDup (acc ++ l.*1) ->
    foldl (fun acc e => fields_add e.1 acc) acc l = (acc ++ l.*1)%list.
Proof.
  induction l as [|e l IH]; intros acc Hnd; simpl.
  - now rewrite app_nil_r.
  - simpl in Hnd. rewrite fields_add_new.
    + rewrite IH; rewrite <- app_assoc; auto.
    + apply NoDup_app in Hnd as (_ & Hnd & _). intros H.
      apply (Hnd _ H). left.
Qed.

(** When [setStructure] returns, the registry lists the names of the
    structure, the greatest first, and nothing is marked unused. *)
Theorem setStructure_registry structure st st' :
  NoDup structure.*1 ->
  setStructure call structure st = Ok tt st' ->
  fields st' = (sort_entries structure).*1 /\ unused st' = [].
Proof.
  intros Hnd. unfold setStructure. unfold bind at 1.
  destruct (resetStructure call st) as [[] st1| |] eqn:H1; [|discriminate..].
  unfold bind at 1.
  destruct (addStructure call structure st1) as [[] st2| |] eqn:H2;
    [|discriminate..].
  intros H3.
  assert (Hf1 : fields st1 = []).
  { unfold resetStructure, bind, modify, gets in H1.
    destruct (for_each _ _ _) as [[] s| |]; [|discriminate..].
    now injection H1 as <-. }
  assert (Hf2 : fields st2 = (sort_entries structure).*1).
  { unfold addStructure in H2. apply add_fields_fields in H2.
    rewrite H2, Hf1. apply (foldl_fields_add _ []). simpl.
    now rewrite (fmap_Permutation _ _ _ (sort_entries_perm structure)). }
  unfold removeUnusedStructure, bind, gets, modify in H3.
  pose proof (fields_registry (fields st2)) as HP.
  assert (Hr : forall m, m ∈ unused st2 ->
            preserves (fun s => fields s = fields st2) (remove_unused call m)).
  { intros m _. destruct m as [s0|p]; unfold remove_unused.
    - apply preserves_Delete. exact HP.
    - apply preserves_bind; [apply preserves_getCursor; exact HP|].
      intros c. apply preserves_Delete. exact HP. }
  pose proof (preserves_for_each _ _ _ Hr st2 eq_refl) as Hp.
  destruct (for_each (remove_unused call) (unused st2) st2) as [[] s| |] eqn:E;
    [|discriminate..].
  injection H3 as <-. split; [|reflexivity].
  rewrite <- Hf2. exact Hp.
Qed.

(** ** The order in which [addStructure] takes the entries *)

Lemma ascii_compare_refl a : Ascii.compare a a = Eq.
Proof. apply N.compare_refl. Qed.

Lemma string_compare_refl s : String.compare s s = Eq.
Proof. induction s; simpl; auto. now rewrite ascii_compare_refl. Qed.

(** [b <= a] and [c <= b] give [c <= a], for the order of [>]. *)
Lemma gt_false_trans a b c :
  Js.gt b a = false -> Js.gt c b = false -> Js.gt c a = false.
Proof.
  unfold Js.gt.
  assert (H : forall c b a,
            String.compare b a <> Gt -> String.compare c b <> Gt ->
            String.compare c a <> Gt).
  { clear. induction c as [|z c IH]; intros [|y b] [|x a]; simpl;
      try congruence.
    unfold Ascii.compare.
    destruct (N.compare_spec (N_of_ascii y) (N_of_ascii x)) as [E1|L1|G1];
      destruct (N.compare_spec (N_of_ascii z) (N_of_ascii y)) as [E2|L2|G2];
      destruct (N.compare_spec (N_of_ascii z) (N_of_ascii x)) as [E3|L3|G3];
      try congruence; try lia.
    apply IH. }
  intros H1 H2. specialize (H c b a).
  destruct (String.compare b a), (String.compare c b), (String.compare c a);
    try reflexivity; try discriminate; exfalso; apply H; congruence.
Qed.

Lemma gt_false_total a b : Js.gt a b = true -> Js.gt b a = false.
Proof.
  unfold Js.gt. rewrite (String.compare_antisym a b).
  now destruct (String.compare b a).
Qed.

(** A name is greater than its proper beginnings. *)
Lemma gt_prefix a b :
  String.prefix b a = true -> a <> b -> Js.gt a b = true.
Proof.
  unfold Js.gt. revert a. induction b as [|y b IH]; intros [|x a]; simpl;
    try congruence.
  destruct (ascii_dec y x) as [->|]; [|discriminate].
  intros Hp Hne. rewrite ascii_compare_refl. apply IH; auto. congruence.
Qed.

Lemma insert_entry_sorted x l :
  StronglySorted (fun x y => Js.gt y.1 x.1 = false) l ->
  StronglySorted (fun x y => Js.gt y.1 x.1 = false) (insert_entry x l).
Proof.
  induction 1 as [|y l Hs IH Hall]; simpl.
  - repeat constructor.
  - destruct (Js.gt y.1 x.1) eqn:E.
    + constructor; auto. apply Forall_forall. intros z Hz.
      apply elem_of_insert_entry in Hz as [->|Hz].
      * now apply gt_false_total.
      * rewrite Forall_forall in Hall. auto.
    + constructor; [now constructor|]. constructor; auto.
      eapply Forall_impl; [exact Hall|]. intros z Hz. simpl in Hz.
      eapply gt_false_trans; eauto.
Qed.

Lemma sort_entries_sorted l :
  StronglySorted (fun x y => Js.gt y.1 x.1 = false) (sort_entries l).
Proof.
  unfold sort_entries. induction l as [|x l IH]; simpl.
  - constructor.
  - now apply insert_entry_sorted.
Qed.

Lemma sorted_before (l : list (string * range)) x y :
  StronglySorted (fun x y => Js.gt y.1 x.1 = false) l ->
  x ∈ l -> y ∈ l -> Js.gt x.1 y.1 = true ->
  exists l1 l2 l3, l = (l1 ++ x :: l2 ++ y :: l3)%list.
Proof.
  intros Hs Hx Hy Hgt. induction Hs as [|z l Hs IH Hall].
  - now apply elem_of_nil in Hx.
  - apply elem_of_cons in Hx as [->|Hx].
    + apply elem_of_cons in Hy as [->|Hy].
      * unfold Js.gt in Hgt. now rewrite string_compare_refl in Hgt.
      * apply list_elem_of_split in Hy as (l2 & l3 & ->).
        now exists [], l2, l3.
    + apply elem_of_cons in Hy as [->|Hy].
      * rewrite Forall_forall in Hall. specialize (Hall x Hx).
        simpl in Hall. congruence.
      * destruct (IH Hx Hy) as (l1 & l2 & l3 & ->).
        now exists (z :: l1), l2, l3.
Qed.

(** [addStructure] takes the entries of the structure, all of them,
    sorted by name, the greatest first; so a field whose name continues
    the name of another field is taken before it. *)
Theorem addStructure_order structure :
  sort_entries structure ≡ₚ structure
  /\ StronglySorted (fun x y => Js.gt y.1 x.1 = false)
       (sort_entries structure)
  /\ forall x y,
       x ∈ structure -> y ∈ structure ->
       String.prefix y.1 x.1 = true -> x.1 <> y.1 ->
       exists l1 l2 l3,
         sort_entries structure = (l1 ++ x :: l2 ++ y :: l3)%list.
Proof.
  split; [apply sort_entries_perm|]. split; [apply sort_entries_sorted|].
  intros x y Hx Hy Hp Hne.
  apply (sorted_before _ x y (sort_entries_sorted structure)).
  - now apply elem_of_sort_entries_2.
  - now apply elem_of_sort_entries_2.
  - now apply gt_prefix.
Qed.

End Properties.

(** * The statements at concrete inputs *)

Module Instances.
Import Scenarios.

(** ** The tests of [Odo.test.js] *)

Example test_simple_object :
  result (exported
    [setValues six;
     setStructure call [("a", RIndex 0); ("b", RIndex 1); ("c", RIndex 2)]])
  = Some (JObj [("c", JNum 13); ("b", JNum 12); ("a", JNum 11)]).
Proof. reflexivity. Qed.

Example test_transforms :
  result (exported
    [setValues six;
     setStructure call
       [("a", RIndexFn 0 0 0); ("b", RIndexFn 1 1 1); ("c", RIndexFn 2 2 2);
        ("list", RSliceFn 3 3 6 3)]])
  = Some (JObj [("list", JArr [JNum 24; JNum 25; JNum 26]);
                ("c", JNum 0); ("b", JNum 600); ("a", JNum 1100)]).
Proof. reflexivity. Qed.

Example test_new_values :
  result (exported
    [setValues six;
     setStructure call
       [("a", RIndexFn 0 0 0); ("b", RIndex 1); ("c", RSlice 2 3);
        ("list", RSliceFn 3 4 6 3)];
     setValues six'])
  = Some (JObj [("list", JArr [JNum 125; JNum 126]); ("c", JArr [JNum 113]);
                ("b", JNum 112); ("a", JNum 11100)]).
Proof. reflexivity. Qed.

Example test_new_structure :
  result (exported
    [setValues six;
     setStructure call
       [("a", RIndexFn 0 0 0); ("b", RIndex 1); ("c", RSlice 2 3);
        ("list", RSliceFn 3 4 6 3)];
     setStructure call [("listOne", RSlice 0 3); ("listTwo", RSlice 3 6)]])
  = Some (JObj [("listTwo", JArr [JNum 14; JNum 15; JNum 16]);
                ("listOne", JArr [JNum 11; JNum 12; JNum 13])]).
Proof. reflexivity. Qed.

Example test_substructure :
  result (exported
    [setValues six;
     setStructure call
       [("position.x", RIndex 0); ("position.y", RIndex 1);
        ("angle.rad", RIndex 2); ("angle.deg", RIndex 3);
        ("cow.launcher.enabled", RIndex 4)];
     setValues six'])
  = Some (JObj
      [("position", JObj [("y", JNum 112); ("x", JNum 111)]);
       ("cow", JObj [("launcher", JObj [("enabled", JNum 115)])]);
       ("angle", JObj [("rad", JNum 113); ("deg", JNum 114)])]).
Proof. reflexivity. Qed.

(** The example of the documentation of [_ensurePathStructure]:
    [{ b: { c: [{ d: {} }] } }]. *)
Example ensurePathStructure_example :
  result (((_ensurePathStructure call ["b"; "c"; "0"; "d"; "e"] ;;; ret tt)
           ;;; export call 8) new_Odo)
  = Some (JObj [("b", JObj [("c", JArr [JObj [("d", JObj [])]])])]).
Proof. reflexivity. Qed.

(** ** C1 *)

(** A single index [-1] on [[11, 12, 13]] reads [undefined], not the last
    element [13]. *)
Lemma negative_index_reads_undefined :
  (- Z.of_nat (length three) <= -1 < 0)%Z
  /\ result ((setValues three ;;;
              addStructure call [("last", RIndex (-1))] ;;;
              Get call (VRef this) "last") new_Odo) = Some VUndef
  /\ nth (Z.to_nat (Z.of_nat (length three) + -1)) three VUndef = VNum 13.
Proof. split; [simpl; lia|]. split; reflexivity. Qed.

(** The fields [position.x], [b] and [last], the last with the index
    [-1]. *)
Definition indexed : list (string * range) :=
  [("position.x", RIndex 0); ("b", RIndex 1); ("last", RIndex (-1))].

Lemma single_index_read_witness :
  blank new_Odo /\ clean indexed
  /\ exists st',
       addStructure call indexed new_Odo = Ok tt st'
       /\ read_path call ["position"; "x"] (VRef this)
            (state_of (setValues three st'))
          = Ok (VNum 11) (state_of (setValues three st'))
       /\ read_path call ["last"] (VRef this)
            (state_of (setValues three st'))
          = Ok VUndef (state_of (setValues three st')).
Proof.
  split; [split; reflexivity|]. split; [apply clean_b_spec; reflexivity|].
  destruct (single_index_read call indexed new_Odo)
    as (st' & Hrun & Hread);
    [split; reflexivity|apply clean_b_spec; reflexivity|].
  exists st'. split; [exact Hrun|]. split.
  - apply (Hread three "position.x" 0%Z). left.
  - apply (Hread three "last" (-1)%Z). right. right. left.
Defined.

(** ** C3 *)

(** The state of the last test: [list: [2, 6, fn]] on six values. *)
Definition cached_list : state :=
  state_of ((setValues six ;;;
             setStructure call [("list", RSliceFn 0 2 6 3)]) new_Odo).


(** ** C4 *)

(** The container [a] of the path [a.-1.x] is an array, and [-1] does not
    consist only of digits. *)
Lemma signed_segment_makes_an_array :
  result ((addStructure call [("a.-1.x", RIndex 0)] ;;;
           a <- Get call (VRef this) "a" ;;
           h <- gets heap ;;
           ret (a, match a with
                   | VRef l => option_map (fun o => is_array (okind o)) (h !! l)
                   | _ => None
                   end)) new_Odo)
  = Some (VRef 1, Some true)
  /\ digits_only "-1" = false.
Proof. split; reflexivity. Qed.

(** The container [a] of the path [a.0] is map-like, though the segment
    that follows it, the last one, is [0]. *)
Example leaf_segment_is_not_looked_at :
  result ((addStructure call [("a.0", RIndex 0)] ;;;
           a <- Get call (VRef this) "a" ;;
           h <- gets heap ;;
           ret (a, match a with
                   | VRef l => option_map (fun o => is_array (okind o)) (h !! l)
                   | _ => None
                   end)) new_Odo)
  = Some (VRef 1, Some false)
  /\ digits_only "0" = true.
Proof. split; reflexivity. Qed.

(** The containers of [b.c.0.d.e] on a new instance, and those of
    [b.c.1.x] on the view that has [b.c] from it. *)
Lemma created_containers_witness :
  (exists st' c,
     _ensurePathStructure call ["b"; "c"; "0"; "d"; "e"] new_Odo
     = Ok (VRef c, Some "e") st'
     /\ descend (heap st') this ["b"; "c"; "0"; "d"] = Some c)
  /\ exists st' c,
       _ensurePathStructure call ["b"; "c"; "1"; "x"]
         (state_of (_ensurePathStructure call ["b"; "c"; "0"; "d"; "e"] new_Odo))
       = Ok (VRef c, Some "x") st'
       /\ descend (heap st') 2 ["1"] = Some c.
Proof.
  split.
  - destruct (created_containers call ["b"; "c"; "0"; "d"; "e"] new_Odo
                [] "b" ["c"; "0"; "d"] this (Object KObject []) new_Odo)
      as (st' & c & Hrun & Hdesc & _);
      [reflexivity|reflexivity|reflexivity|reflexivity|discriminate
      |reflexivity|repeat constructor|].
    exists st', c. split; [exact Hrun|exact Hdesc].
  - destruct (created_containers call ["b"; "c"; "1"; "x"]
                (state_of (_ensurePathStructure call
                             ["b"; "c"; "0"; "d"; "e"] new_Odo))
                ["b"; "c"] "1" [] 2
                (Object (KArray 1) [("0", PData (VRef 3))])
                (state_of (_ensurePathStructure call
                             ["b"; "c"; "0"; "d"; "e"] new_Odo)))
      as (st' & c & Hrun & Hdesc & _);
      [reflexivity|reflexivity|reflexivity|reflexivity|discriminate
      |reflexivity|repeat constructor|].
    exists st', c. split; [exact Hrun|exact Hdesc].
Defined.

(** ** C5 *)

(** After [position.x], a reset and the disjoint structure [{ a: 1 }], the
    view still shows the container [position]. *)
Lemma reset_then_add_keeps_container :
  result (exported
    [setValues six;
     addStructure call [("position.x", RIndex 0)];
     resetStructure call;
     addStructure call [("a", RIndex 1)]])
  = Some (JObj [("position", JObj []); ("a", JNum 12)]).
Proof. reflexivity. Qed.

(** A first structure with a nested field, and a second that shares
    nothing with it. *)
Definition first_structure : list (string * range) :=
  [("position.x", RIndex 0); ("a", RIndex 1)].
Definition second_structure : list (string * range) :=
  [("cow.moo", RIndex 2); ("b", RSlice 3 5)].

Lemma reset_then_add_witness :
  blank new_Odo /\ clean first_structure /\ clean second_structure
  /\ prefix_free (second_structure.*1 ++ first_structure.*1)
  /\ exists st1 st2 st3,
       addStructure call first_structure new_Odo = Ok tt st1
       /\ resetStructure call st1 = Ok tt st2
       /\ addStructure call second_structure st2 = Ok tt st3
       /\ (forall f, f ∈ fields st3 <-> f ∈ second_structure.*1)
       /\ forall k, own_key st3 k
            <-> (exists f, f ∈ second_structure.*1 /\ first_key f = Some k)
                \/ (exists f, f ∈ first_structure.*1
                              /\ Js.includes "." f = true
                              /\ first_key f = Some k).
Proof.
  split; [split; reflexivity|].
  split; [apply clean_b_spec; reflexivity|].
  split; [apply clean_b_spec; reflexivity|].
  split; [apply prefix_free_b_spec; reflexivity|].
  destruct (reset_then_add call first_structure second_structure new_Odo)
    as (st1 & st2 & st3 & H1 & H2 & H3 & Hf & _ & _ & _ & Hkeys);
    [split; reflexivity|apply clean_b_spec; reflexivity
    |apply clean_b_spec; reflexivity|apply prefix_free_b_spec; reflexivity|].
  exists st1, st2, st3.
  split; [exact H1|]. split; [exact H2|]. split; [exact H3|].
  split; [exact Hf|exact Hkeys].
Defined.

(** ** C6 *)

Definition nested_then_reset : state :=
  state_of (script
    [setValues six;
     addStructure call [("cow.launcher.enabled", RIndex 4)];
     resetStructure call] new_Odo).

(** C6, at the failing input.  The container of [cow.launcher.enabled] is
    marked unused by the reset, as the string [cow.launcher];
    [removeUnusedStructure] takes the marker for a top-level key, deletes
    nothing, and clears the set: the container is still in the view. *)
Theorem removeUnusedStructure_misses_nested_container :
  unused nested_then_reset = [MString "cow.launcher"]
  /\ unused (state_of (removeUnusedStructure call nested_then_reset)) = []
  /\ result ((removeUnusedStructure call ;;; export call 8) nested_then_reset)
     = Some (JObj [("cow", JObj [("launcher", JObj [])])]).
Proof. repeat split. Qed.

(** ** C7 *)

(** C7, at the failing input.  Declared again after a reset, the path
    [cow.launcher.enabled] does not unmark its container: the key looked
    up in the unused set is [cow,launcher] and then
    [cow,launcher.cow,launcher], never [cow.launcher].  (A path of two
    segments, as [position.x], does unmark [position].) *)
Theorem addStructure_misses_nested_reclaim :
  unused (state_of
    (addStructure call [("cow.launcher.enabled", RIndex 4)] nested_then_reset))
  = [MString "cow.launcher"]
  /\ unused (state_of (script
       [addStructure call [("position.x", RIndex 0)];
        resetStructure call] new_Odo))
     = [MString "position"]
  /\ unused (state_of (script
       [addStructure call [("position.x", RIndex 0)];
        resetStructure call;
        addStructure call [("position.y", RIndex 1)]] new_Odo))
     = [].
Proof. repeat split. Qed.

(** ** C8 *)

(** The view [{ a: null }], by a field [a] on the sequence [[null]]. *)
Definition null_parent : state :=
  state_of (script
    [setValues [VNull]; addStructure call [("a", RIndex 0)]] new_Odo).

(** [addStructure] walks the existing segment [a] of [a.b.c], finds
    [null], and throws a [TypeError], not a path resolution failure;
    [resetStructure], on the state it leaves, does raise one. *)
Lemma addStructure_raises_no_OdoError :
  result (Get call (VRef this) "a" null_parent) = Some VNull
  /\ falsy VNull = true
  /\ (exists st',
        addStructure call [("a.b.c", RIndex 1)] null_parent
        = Throw TypeError st')
  /\ exists st',
       resetStructure call
         (state_of (addStructure call [("a.b.c", RIndex 1)] null_parent))
       = Throw (OdoError (misdefined "a" ["a"; "b"]) (VRef this) (Some "c")
                  ["a"; "b"] "a") st'.
Proof. repeat split; eexists; reflexivity. Qed.

(** ** C9 *)

(** A view on the sequence [[11, f]], [f] a function: the field [a.0]
    sits in the array [a], the field [m.f] in the map-like [m], [g] in
    the instance, and [list] is the slice with both values. *)
Definition with_function : state :=
  state_of (script
    [setValues [VNum 11; VRef 1];
     addStructure call
       [("a.1.x", RIndex 0); ("a.0", RIndex 1); ("m.f", RIndex 1);
        ("g", RIndex 1); ("list", RSlice 0 2)]]
    (set_heap (heap new_Odo ++ [Object (KFunction 0) []]) new_Odo)).


(** The structure of [with_function], declared on an instance whose
    store holds the function. *)
Definition function_fields : list (string * range) :=
  [("a.1.x", RIndex 0); ("a.0", RIndex 1); ("m.f", RIndex 1);
   ("g", RIndex 1); ("list", RSlice 0 2)].

Definition holding_function : state :=
  set_heap (heap new_Odo ++ [Object (KFunction 0) []]) new_Odo.


(** ** C10 *)

(** The container of [cow.launcher.enabled] is marked by a first reset
    and dropped from the unused set by a second; then [cow.x] is
    declared and reset, which marks [cow]. *)
Definition dropped_then_marked_above : state :=
  state_of (script
    [addStructure call [("cow.launcher.enabled", RIndex 4)];
     resetStructure call;
     resetStructure call;
     addStructure call [("cow.x", RIndex 0)];
     resetStructure call] new_Odo).

(** The container [cow.launcher], dropped from tracking by a reset, is
    deleted from the view by a later [removeUnusedStructure], with
    [cow]. *)
Lemma dropped_container_is_deleted_later :
  unused (state_of (script
    [addStructure call [("cow.launcher.enabled", RIndex 4)];
     resetStructure call] new_Odo)) = [MString "cow.launcher"]
  /\ unused (state_of (script
       [addStructure call [("cow.launcher.enabled", RIndex 4)];
        resetStructure call;
        resetStructure call] new_Odo)) = []
  /\ descend (heap dropped_then_marked_above) this ["cow"; "launcher"]
     = Some 2
  /\ removeUnusedStructure call dropped_then_marked_above
     = Ok tt (state_of (removeUnusedStructure call dropped_then_marked_above))
  /\ descend (heap (state_of
       (removeUnusedStructure call dropped_then_marked_above))) this
       ["cow"; "launcher"] = None
  /\ result ((removeUnusedStructure call ;;; export call 8)
               dropped_then_marked_above) = Some (JObj []).
Proof. repeat split. Qed.

(** [cow.launcher.enabled] and [position.x], declared. *)
Definition two_nested : state :=
  state_of (addStructure call
    [("cow.launcher.enabled", RIndex 4); ("position.x", RIndex 0)] new_Odo).

Lemma reset_tracks_registered_parents_witness :
  resetStructure call two_nested
  = Ok tt (state_of (resetStructure call two_nested))
  /\ (forall m,
        m ∈ unused (state_of (resetStructure call two_nested))
        <-> exists f, f ∈ fields two_nested /\ Js.includes "." f = true
                      /\ m = MString (marker_of f))
  /\ exists st2 ps2,
       removeUnusedStructure call (state_of (resetStructure call two_nested))
       = Ok tt st2
       /\ heap st2 !! this = Some (Object KObject ps2)
       /\ props_get "position" ps2 = None
       /\ props_get "cow" ps2 = Some (PData (VRef 2)).
Proof.
  split; [reflexivity|].
  destruct (reset_tracks_registered_parents call two_nested
              (state_of (resetStructure call two_nested)) eq_refl)
    as [Htrack Hremove].
  split; [exact Htrack|].
  destruct (Hremove [("position", PData (VRef 1)); ("cow", PData (VRef 2))])
    as (st2 & ps2 & Hrun & _ & Hheap & Hdel & Hkeep); [reflexivity| |].
  - intros H. repeat (apply elem_of_cons in H as [H|H]; [discriminate|]).
    now apply elem_of_nil in H.
  - exists st2, ps2. split; [exact Hrun|]. split; [now rewrite Hheap|].
    split.
    + apply Hdel. left.
    + rewrite Hkeep; [reflexivity|].
      intros H. repeat (apply elem_of_cons in H as [H|H]; [discriminate|]).
      now apply elem_of_nil in H.
Defined.

(** ** Further properties, at concrete inputs *)

(** A nested field with a function on an index, and a slice. *)
Definition mixed : list (string * range) :=
  [("a.b", RIndexFn 0 0 0); ("list", RSlice 0 2)].

Lemma declared_fields_read_witness :
  blank new_Odo /\ clean mixed
  /\ exists st',
       addStructure call mixed new_Odo = Ok tt st'
       /\ read_path call ["a"; "b"] (VRef this)
            (state_of (setValues three st'))
          = invoke call (GCached (CIndexFn 0 0) 0)
              (state_of (setValues three st')).
Proof.
  split; [split; reflexivity|]. split; [apply clean_b_spec; reflexivity|].
  destruct (declared_fields_read call mixed new_Odo) as (st' & Hrun & Hread);
    [split; reflexivity|apply clean_b_spec; reflexivity|].
  exists st'. split; [exact Hrun|].
  apply (Hread three "a.b" (RIndexFn 0 0 0)). left.
Defined.

Lemma resetStructure_keeps_containers_witness :
  blank new_Odo /\ clean first_structure
  /\ exists st1 st2,
       addStructure call first_structure new_Odo = Ok tt st1
       /\ resetStructure call st1 = Ok tt st2
       /\ fields st2 = [] /\ cached st2 = [].
Proof.
  split; [split; reflexivity|]. split; [apply clean_b_spec; reflexivity|].
  destruct (resetStructure_keeps_containers call first_structure new_Odo)
    as (st1 & st2 & H1 & H2 & H3 & H4 & _);
    [split; reflexivity|apply clean_b_spec; reflexivity|].
  exists st1, st2. split; [exact H1|]. split; [exact H2|].
  split; [exact H3|exact H4].
Defined.

Lemma addStructure_throws_midway_witness :
  addStructure call [("a.b.c", RIndex 1); ("z", RIndex 0)] null_parent
  = Throw TypeError
      (state_of (addStructure call [("a.b.c", RIndex 1); ("z", RIndex 0)]
                   null_parent))
  /\ exists pre x post st1,
       sort_entries [("a.b.c", RIndex 1); ("z", RIndex 0)]
       = (pre ++ x :: post)%list
       /\ for_each (add_field call) pre null_parent = Ok tt st1
       /\ add_field call x st1
          = Throw TypeError
              (state_of (addStructure call
                           [("a.b.c", RIndex 1); ("z", RIndex 0)] null_parent)).
Proof.
  split; [reflexivity|].
  destruct (addStructure_throws_midway call
              [("a.b.c", RIndex 1); ("z", RIndex 0)] null_parent TypeError
              (state_of (addStructure call
                           [("a.b.c", RIndex 1); ("z", RIndex 0)] null_parent))
              eq_refl)
    as (pre & x & post & st1 & H1 & H2 & H3 & _).
  exists pre, x, post, st1. split; [exact H1|]. split; [exact H2|exact H3].
Defined.

Lemma nesting_under_a_value_throws_witness :
  heap null_parent !! this = Some (Object KObject [("a", PGet (GIndex 0))])
  /\ (forall l, index_value (values null_parent) 0 <> VRef l)
  /\ (forall h, Js.builtin h "b" = false)
  /\ segs "a.b" = ["a"; "b"]
  /\ exists st',
       addStructure call [("a.b", RIndex 1)] null_parent
       = Throw TypeError st'.
Proof.
  assert (Hv : forall l, index_value (values null_parent) 0 <> VRef l)
    by (intros l; discriminate).
  assert (Hb : forall h, Js.builtin h "b" = false)
    by (intros h; destruct h; reflexivity).
  split; [reflexivity|]. split; [exact Hv|]. split; [exact Hb|].
  split; [reflexivity|].
  destruct (nesting_under_a_value_throws call null_parent
              [("a", PGet (GIndex 0))] "a" "b" 0%Z "a.b" (RIndex 1)
              eq_refl eq_refl Hv Hb eq_refl) as (st' & Hrun & _).
  exists st'. exact Hrun.
Defined.

(** The field [a] on six values. *)
Definition one_field : state :=
  state_of (script [setValues six; addStructure call [("a", RIndex 0)]]
              new_Odo).

Lemma function_field_wraps_the_value_at_declaration_witness :
  heap one_field !! this = Some (Object KObject [("a", PGet (GIndex 0))])
  /\ Js.includes "." "a" = false /\ Js.top "a" = true
  /\ exists st',
       addStructure call [("a", RFun 0)] one_field = Ok tt st'
       /\ Get call (VRef this) "a" (state_of (setValues six' st'))
          = apply call 0 (VNum 11) (state_of (setValues six' st')).
Proof.
  split; [reflexivity|]. split; [reflexivity|]. split; [reflexivity|].
  destruct (function_field_wraps_the_value_at_declaration call one_field
              [("a", PGet (GIndex 0))] "a" 0 eq_refl eq_refl eq_refl)
    as (v & st1 & st' & Hget & Hrun & Hidx & _ & Hread).
  exists st'. split; [exact Hrun|].
  rewrite <- (Hidx 0%Z eq_refl : v = VNum 11). apply Hread.
Defined.

Lemma slice_field_reads_a_new_array_witness :
  blank new_Odo /\ clean mixed
  /\ exists st',
       addStructure call mixed new_Odo = Ok tt st'
       /\ exists st2,
            read_path call ["list"] (VRef this)
              (state_of (setValues three st'))
            = Ok (VRef (length (heap st'))) st2
            /\ read_path call ["list"] (VRef this) st2
               = Ok (VRef (S (length (heap st'))))
                   (set_heap (heap st2 ++ [array_of (slice three 0 2)]) st2).
Proof.
  split; [split; reflexivity|]. split; [apply clean_b_spec; reflexivity|].
  destruct (slice_field_reads_a_new_array call mixed new_Odo "list" 0%Z 2%Z)
    as (st' & Hrun & Hread);
    [split; reflexivity|apply clean_b_spec; reflexivity|right; left|].
  exists st'. split; [exact Hrun|].
  destruct (Hread three) as [H1 H2]. eexists. split; [exact H1|exact H2].
Defined.

Lemma nested_name_parts_witness :
  Js.includes "." "enabled" = false
  /\ segs "cow.launcher.enabled" = ["cow"; "launcher"; "enabled"]
  /\ marker_of "cow.launcher.enabled" = "cow.launcher".
Proof.
  split; [reflexivity|].
  destruct (nested_name_parts "cow.launcher" "enabled" eq_refl)
    as (_ & H1 & _ & _ & H2).
  split; [exact H1|exact H2].
Defined.

Lemma ensurePathStructure_reuses_witness :
  descend (heap nested_then_reset) this ["cow"; "launcher"] = Some 2
  /\ exists st',
       _ensurePathStructure call ["cow"; "launcher"; "enabled"]
         nested_then_reset = Ok (VRef 2, Some "enabled") st'
       /\ heap st' = heap nested_then_reset.
Proof.
  split; [reflexivity|].
  destruct (ensurePathStructure_reuses call ["cow"; "launcher"; "enabled"]
              nested_then_reset 2 eq_refl) as (st' & Hrun & Hheap & _).
  exists st'. split; [exact Hrun|exact Hheap].
Defined.

Lemma setStructure_registry_witness :
  NoDup first_structure.*1
  /\ setStructure call first_structure new_Odo
     = Ok tt (state_of (setStructure call first_structure new_Odo))
  /\ fields (state_of (setStructure call first_structure new_Odo))
     = ["position.x"; "a"].
Proof.
  split; [apply nodup_b_spec; reflexivity|]. split; [reflexivity|].
  destruct (setStructure_registry call first_structure new_Odo
              (state_of (setStructure call first_structure new_Odo)))
    as [Hfields _];
    [apply nodup_b_spec; reflexivity|reflexivity|exact Hfields].
Defined.

End Instances.
